(** * Tuxemon combat core: a shallow embedding and its verified properties

    The development follows four source files of the repository:
    - [tuxemon/ai.py]                                (module [AI])
    - [tuxemon/condition/conditions/current_hp.py]  (module [CurrentHp])
    - [tuxemon/technique/effects/local_damage.py]   (module [LocalDamage])
    - [tuxemon/states/combat/combat.py]             (module [Combat])

    Python objects are heap cells: a monster, a trainer, a technique is
    named by a reference and the heaps of the combat state map references
    to records, so that two names of one object see each other's writes.
    Python [int] is [Z]; Python [float] is IEEE-754 binary64, taken from
    the Standard Library's [SpecFloat]; an exception is a value of the
    error monad [Py.result].

    Rendering, sound, localised text and menus are collaborators outside
    the battle core and are not part of the state modelled here. *)

From Stdlib Require Import ZArith SpecFloat.
From stdpp Require Import base tactics option list sorting functions gmap strings.

Open Scope Z_scope.

(** ** Python primitives *)

Module Py.

(** Exceptions the modelled code can raise. *)
Inductive exn :=
| KeyError | IndexError | ValueError | OverflowError
| ZeroDivisionError | AssertionError.

Inductive result (A : Type) :=
| Ok (a : A)
| Raise (e : exn).
Arguments Ok {A} a.
Arguments Raise {A} e.

Definition bind {A B} (m : result A) (k : A -> result B) : result B :=
  match m with
  | Ok a => k a
  | Raise e => Raise e
  end.

Definition is_ok {A} (m : result A) : bool :=
  match m with Ok _ => true | Raise _ => false end.

Global Instance exn_eq_dec : EqDecision exn.
Proof. solve_decision. Defined.
Global Instance result_eq_dec {A} `{EqDecision A} : EqDecision (result A).
Proof. solve_decision. Defined.

Global Instance result_ret : MRet result := @Ok.
Global Instance result_bind : MBind result :=
  fun A B k m => bind m k.

(** *** binary64 floats *)

Definition prec : Z := 53.
Definition emax : Z := 1024.
Definition float := spec_float.

Definition fmul : float -> float -> float := SFmul prec emax.
Definition fdiv : float -> float -> float := SFdiv prec emax.

(** [float(i)]: nearest-even conversion, [OverflowError] past the largest
    finite double. *)
Definition float_of_int (i : Z) : result float :=
  match binary_normalize prec emax i 0 false with
  | S754_infinity _ => Raise OverflowError
  | f => Ok f
  end.

(** The float literals of the sources, as the doubles Python reads. *)
Definition f_0_15 : float := S754_finite false 5404319552844595 (-55).
Definition f_1_0 : float := S754_finite false 4503599627370496 (-52).
Definition f_0_5 : float := S754_finite false 4503599627370496 (-53).
Definition f_0_25 : float := S754_finite false 4503599627370496 (-54).
Definition f_2 : float := S754_finite false 4503599627370496 (-51).
Definition f_4 : float := S754_finite false 4503599627370496 (-50).

(** Nearest integer to [n / d] for [0 < d], ties to the even one. *)
Definition round_half_even (n d : Z) : Z :=
  let q := n / d in
  let r := n mod d in
  match (2 * r) ?= d with
  | Lt => q
  | Gt => q + 1
  | Eq => if Z.even q then q else q + 1
  end.

(** [round(x)] with one argument: the nearest integer, ties to even;
    [ValueError] on NaN and [OverflowError] on an infinity. *)
Definition round (x : float) : result Z :=
  match x with
  | S754_zero _ => Ok 0
  | S754_nan => Raise ValueError
  | S754_infinity _ => Raise OverflowError
  | S754_finite s m e =>
      let a := if 0 <=? e then Z.pos m * 2 ^ e
               else round_half_even (Z.pos m) (2 ^ (- e)) in
      Ok (if s then - a else a)
  end.

(** Comparison of an [int] with a [float] is exact in Python: the float
    is not rounded and the integer is not converted. *)
Definition compare_int_float (i : Z) (x : float) : option comparison :=
  match x with
  | S754_nan => None
  | S754_infinity s => Some (if s then Gt else Lt)
  | S754_zero _ => Some (i ?= 0)
  | S754_finite s m e =>
      let v := if s then Z.neg m else Z.pos m in
      Some (if 0 <=? e then i ?= v * 2 ^ e else i * 2 ^ (- e) ?= v)
  end.

(** A number as the functions of [operator] receive it. *)
Inductive num :=
| Int (i : Z)
| Float (x : float).

Definition compare (a b : num) : option comparison :=
  match a, b with
  | Int i, Int j => Some (i ?= j)
  | Int i, Float y => compare_int_float i y
  | Float x, Int j => option_map CompOpp (compare_int_float j x)
  | Float x, Float y => SFcompare x y
  end.

(** The comparison functions of the module [operator]. *)
Module operator.
Definition lt (a b : num) : bool :=
  match compare a b with Some Lt => true | _ => false end.
Definition le (a b : num) : bool :=
  match compare a b with Some (Lt | Eq) => true | _ => false end.
Definition gt (a b : num) : bool :=
  match compare a b with Some Gt => true | _ => false end.
Definition ge (a b : num) : bool :=
  match compare a b with Some (Gt | Eq) => true | _ => false end.
Definition eq (a b : num) : bool :=
  match compare a b with Some Eq => true | _ => false end.
End operator.

(** [i * x] for an [int] and a [float]: the integer is converted first. *)
Definition mul_int_float (i : Z) (x : float) : result float :=
  bind (float_of_int i) (fun fi => Ok (fmul fi x)).

(** [l[-n:]].  A positive [n] keeps the last [n] elements; [-0] is [0],
    so [n = 0] keeps the whole list; a negative [n] is a positive start
    index. *)
Definition slice_from_neg {A} (n : Z) (l : list A) : list A :=
  if 0 <? n then drop (length l - Z.to_nat n) l
  else drop (Z.to_nat (- n)) l.

(** [l.index(x)]: position of the first occurrence, or [ValueError]. *)
Fixpoint index {A} `{EqDecision A} (x : A) (l : list A) : result Z :=
  match l with
  | [] => Raise ValueError
  | y :: l' => if decide (x = y) then Ok 0
               else bind (index x l') (fun i => Ok (i + 1))
  end.

(** [l.remove(x)]: drops the first occurrence, or [ValueError]. *)
Fixpoint remove {A} `{EqDecision A} (x : A) (l : list A) : result (list A) :=
  match l with
  | [] => Raise ValueError
  | y :: l' => if decide (x = y) then Ok l'
               else bind (remove x l') (fun r => Ok (y :: r))
  end.

(** [l.pop()]: the last element and the list without it, or
    [IndexError]. *)
Definition pop {A} (l : list A) : result (A * list A) :=
  match reverse l with
  | [] => Raise IndexError
  | x :: r => Ok (x, reverse r)
  end.

(** [random.choice(l)]: [l[k]] for the generator's draw [k] below
    [len(l)], every index being equally likely; [IndexError] on an empty
    list.  The draw is an input of the model. *)
Definition choice {A} (draw : nat -> nat) (l : list A) : result A :=
  match l !! draw (length l) with
  | Some x => Ok x
  | None => Raise IndexError
  end.

(** Stable insertion sort, ascending for the strict order [ltb]: an
    element is inserted in front of the first one that is not below it,
    so it stays in front of its equals that followed it. *)
Fixpoint insert_sorted {A} (ltb : A -> A -> bool) (x : A) (l : list A) : list A :=
  match l with
  | [] => [x]
  | y :: l' => if ltb y x then y :: insert_sorted ltb x l' else x :: y :: l'
  end.

Fixpoint stable_sort {A} (ltb : A -> A -> bool) (l : list A) : list A :=
  match l with
  | [] => []
  | x :: l' => insert_sorted ltb x (stable_sort ltb l')
  end.

(** [l.sort(key=..., reverse=True)] on elements paired with their keys:
    CPython reverses the list, sorts it stably in ascending order, and
    reverses it again, so equal keys keep their original order.  The
    result of a stable sort does not depend on the algorithm. *)
Definition sort_reverse {A} (ltb : A -> A -> bool) (l : list A) : list A :=
  reverse (stable_sort ltb (reverse l)).

End Py.

Export Py.

(** ** Objects

    A reference names an object; [is] is equality of references.  No
    class of the model overrides [__eq__], so [==] on objects is [is]. *)

Definition ref := positive.
Bind Scope positive_scope with ref.

(** [tuxemon.db.ItemCategory], the members the battle core tests. *)
Inductive ItemCategory :=
| potion
| capture
| other_category (name : string).

Global Instance ItemCategory_eq_dec : EqDecision ItemCategory.
Proof. solve_decision. Defined.

Module Technique.
Record t := {
  slug : string;
  sort : string;
  range : string;
  accuracy : float;
  next_use : Z;
  hit : bool;
}.
Definition set_hit (b : bool) (x : t) : t :=
  {| slug := slug x; sort := sort x; range := range x;
     accuracy := accuracy x; next_use := next_use x; hit := b |}.
End Technique.

Module Item.
Record t := {
  slug : string;
  sort : string;
  category : ItemCategory;
}.
End Item.

Module Condition.
Record t := {
  slug : string;
  sort : string;
  nr_turn : Z;
  phase : option string;
}.
Definition set_nr_turn (n : Z) (x : t) : t :=
  {| slug := slug x; sort := sort x; nr_turn := n; phase := phase x |}.
Definition set_phase (p : string) (x : t) : t :=
  {| slug := slug x; sort := sort x; nr_turn := nr_turn x;
     phase := Some p |}.
End Condition.

Module Monster.
Record t := {
  level : Z;
  current_hp : Z;
  hp : Z;
  total_experience : Z;
  experience_modifier : Z;
  money_modifier : Z;
  moves : list ref;
  max_moves : Z;
  status : list ref;
}.
Definition set_current_hp (v : Z) (x : t) : t :=
  {| level := level x; current_hp := v; hp := hp x;
     total_experience := total_experience x;
     experience_modifier := experience_modifier x;
     money_modifier := money_modifier x;
     moves := moves x; max_moves := max_moves x; status := status x |}.
Definition set_status (v : list ref) (x : t) : t :=
  {| level := level x; current_hp := current_hp x; hp := hp x;
     total_experience := total_experience x;
     experience_modifier := experience_modifier x;
     money_modifier := money_modifier x;
     moves := moves x; max_moves := max_moves x; status := v |}.
End Monster.

(** A value of [game_variables]. *)
Inductive gvalue :=
| GStr (s : string)
| GFloat (x : float).

Module NPC.
Record t := {
  monsters : list ref;
  items : list ref;
  max_position : Z;
  isplayer : bool;
  game_variables : gmap string gvalue;
}.
Definition set_max_position (v : Z) (x : t) : t :=
  {| monsters := monsters x; items := items x; max_position := v;
     isplayer := isplayer x; game_variables := game_variables x |}.
Definition set_game_variable (k : string) (v : gvalue) (x : t) : t :=
  {| monsters := monsters x; items := items x;
     max_position := max_position x; isplayer := isplayer x;
     game_variables := <[k := v]> (game_variables x) |}.
End NPC.

(** The user of an action: [Union[Monster, NPC, None]]. *)
Inductive user_ref :=
| UMonster (m : ref)
| UNPC (p : ref).

(** The payload of an action: [Union[Technique, Item, Condition, None]]. *)
Inductive payload_ref :=
| PTechnique (r : ref)
| PItem (r : ref)
| PCondition (r : ref).

(** [class EnqueuedAction(NamedTuple)]: a tuple, compared and hashed
    field by field. *)
Record EnqueuedAction := {
  user : option user_ref;
  technique : option payload_ref;
  target : ref;
}.

Global Instance user_ref_eq_dec : EqDecision user_ref.
Proof. solve_decision. Defined.
Global Instance payload_ref_eq_dec : EqDecision payload_ref.
Proof. solve_decision. Defined.
Global Instance EnqueuedAction_eq_dec : EqDecision EnqueuedAction.
Proof. solve_decision. Defined.

Global Instance user_ref_countable : Countable user_ref.
Proof.
  refine (inj_countable'
    (fun u => match u with UMonster m => inl m | UNPC p => inr p end)
    (fun s => match s with inl m => UMonster m | inr p => UNPC p end) _).
  by intros [].
Defined.
Global Instance payload_ref_countable : Countable payload_ref.
Proof.
  refine (inj_countable'
    (fun x => match x with
              | PTechnique r => inl r
              | PItem r => inr (inl r)
              | PCondition r => inr (inr r)
              end)
    (fun s => match s with
              | inl r => PTechnique r
              | inr (inl r) => PItem r
              | inr (inr r) => PCondition r
              end) _).
  by intros [].
Defined.
Global Instance EnqueuedAction_countable : Countable EnqueuedAction.
Proof.
  refine (inj_countable'
    (fun a => (user a, technique a, target a))
    (fun p => {| user := p.1.1; technique := p.1.2; target := p.2 |}) _).
  by intros [].
Defined.

(** [CombatPhase]. *)
Inductive CombatPhase :=
| begin
| ready
| housekeeping_phase
| decision_phase
| pre_action_phase
| action_phase
| post_action_phase
| resolve_match
| ran_away
| draw_match
| has_winner
| end_combat.

(** [CombatState]: the fields the battle core reads and writes, and the
    heaps of the objects it reaches.  [players] is the pair
    [(players[0], players[1])]: the human and the opponent. *)
Record CombatState := {
  techniques : ref -> Technique.t;
  next_technique : ref;
  items : ref -> Item.t;
  conditions : ref -> Condition.t;
  next_condition : ref;
  monsters : ref -> Monster.t;
  npcs : ref -> NPC.t;
  players : ref * ref;
  monsters_in_play : gmap ref (list ref);
  is_trainer_battle : bool;
  _damage_map : gmap ref (gset ref);
  _action_queue : list EnqueuedAction;
  _log_action : list (Z * EnqueuedAction);
  _turn : Z;
  _prize : Z;
  _captured : bool;
  _captured_mon : option ref;
  _run : bool;
  _level_before : Z;
  _level_after : Z;
}.

(** Field updates of the combat state. *)
Definition set_techniques (f : (ref -> Technique.t) -> ref -> Technique.t)
    (n : ref -> ref) (s : CombatState) : CombatState :=
  {| techniques := f (techniques s); next_technique := n (next_technique s);
     items := items s; conditions := conditions s;
     next_condition := next_condition s; monsters := monsters s;
     npcs := npcs s; players := players s;
     monsters_in_play := monsters_in_play s;
     is_trainer_battle := is_trainer_battle s;
     _damage_map := _damage_map s; _action_queue := _action_queue s;
     _log_action := _log_action s; _turn := _turn s; _prize := _prize s;
     _captured := _captured s; _captured_mon := _captured_mon s;
     _run := _run s; _level_before := _level_before s;
     _level_after := _level_after s |}.

Definition set_conditions (f : (ref -> Condition.t) -> ref -> Condition.t)
    (n : ref -> ref) (s : CombatState) : CombatState :=
  {| techniques := techniques s; next_technique := next_technique s;
     items := items s; conditions := f (conditions s);
     next_condition := n (next_condition s); monsters := monsters s;
     npcs := npcs s; players := players s;
     monsters_in_play := monsters_in_play s;
     is_trainer_battle := is_trainer_battle s;
     _damage_map := _damage_map s; _action_queue := _action_queue s;
     _log_action := _log_action s; _turn := _turn s; _prize := _prize s;
     _captured := _captured s; _captured_mon := _captured_mon s;
     _run := _run s; _level_before := _level_before s;
     _level_after := _level_after s |}.

Definition set_monsters (f : (ref -> Monster.t) -> ref -> Monster.t)
    (s : CombatState) : CombatState :=
  {| techniques := techniques s; next_technique := next_technique s;
     items := items s; conditions := conditions s;
     next_condition := next_condition s; monsters := f (monsters s);
     npcs := npcs s; players := players s;
     monsters_in_play := monsters_in_play s;
     is_trainer_battle := is_trainer_battle s;
     _damage_map := _damage_map s; _action_queue := _action_queue s;
     _log_action := _log_action s; _turn := _turn s; _prize := _prize s;
     _captured := _captured s; _captured_mon := _captured_mon s;
     _run := _run s; _level_before := _level_before s;
     _level_after := _level_after s |}.

Definition set_npcs (f : (ref -> NPC.t) -> ref -> NPC.t)
    (s : CombatState) : CombatState :=
  {| techniques := techniques s; next_technique := next_technique s;
     items := items s; conditions := conditions s;
     next_condition := next_condition s; monsters := monsters s;
     npcs := f (npcs s); players := players s;
     monsters_in_play := monsters_in_play s;
     is_trainer_battle := is_trainer_battle s;
     _damage_map := _damage_map s; _action_queue := _action_queue s;
     _log_action := _log_action s; _turn := _turn s; _prize := _prize s;
     _captured := _captured s; _captured_mon := _captured_mon s;
     _run := _run s; _level_before := _level_before s;
     _level_after := _level_after s |}.

Definition set_damage_map (f : gmap ref (gset ref) -> gmap ref (gset ref))
    (s : CombatState) : CombatState :=
  {| techniques := techniques s; next_technique := next_technique s;
     items := items s; conditions := conditions s;
     next_condition := next_condition s; monsters := monsters s;
     npcs := npcs s; players := players s;
     monsters_in_play := monsters_in_play s;
     is_trainer_battle := is_trainer_battle s;
     _damage_map := f (_damage_map s); _action_queue := _action_queue s;
     _log_action := _log_action s; _turn := _turn s; _prize := _prize s;
     _captured := _captured s; _captured_mon := _captured_mon s;
     _run := _run s; _level_before := _level_before s;
     _level_after := _level_after s |}.

Definition set_action_queue (q : list EnqueuedAction)
    (s : CombatState) : CombatState :=
  {| techniques := techniques s; next_technique := next_technique s;
     items := items s; conditions := conditions s;
     next_condition := next_condition s; monsters := monsters s;
     npcs := npcs s; players := players s;
     monsters_in_play := monsters_in_play s;
     is_trainer_battle := is_trainer_battle s;
     _damage_map := _damage_map s; _action_queue := q;
     _log_action := _log_action s; _turn := _turn s; _prize := _prize s;
     _captured := _captured s; _captured_mon := _captured_mon s;
     _run := _run s; _level_before := _level_before s;
     _level_after := _level_after s |}.

Definition set_log_action (l : list (Z * EnqueuedAction))
    (s : CombatState) : CombatState :=
  {| techniques := techniques s; next_technique := next_technique s;
     items := items s; conditions := conditions s;
     next_condition := next_condition s; monsters := monsters s;
     npcs := npcs s; players := players s;
     monsters_in_play := monsters_in_play s;
     is_trainer_battle := is_trainer_battle s;
     _damage_map := _damage_map s; _action_queue := _action_queue s;
     _log_action := l; _turn := _turn s; _prize := _prize s;
     _captured := _captured s; _captured_mon := _captured_mon s;
     _run := _run s; _level_before := _level_before s;
     _level_after := _level_after s |}.

(** [_prize], [_captured_mon], [_level_before] and [_level_after]. *)
Definition set_scalars (prize : Z) (captured_mon : option ref)
    (before after : Z) (s : CombatState) : CombatState :=
  {| techniques := techniques s; next_technique := next_technique s;
     items := items s; conditions := conditions s;
     next_condition := next_condition s; monsters := monsters s;
     npcs := npcs s; players := players s;
     monsters_in_play := monsters_in_play s;
     is_trainer_battle := is_trainer_battle s;
     _damage_map := _damage_map s; _action_queue := _action_queue s;
     _log_action := _log_action s; _turn := _turn s; _prize := prize;
     _captured := _captured s; _captured_mon := captured_mon;
     _run := _run s; _level_before := before; _level_after := after |}.

Definition set_prize (v : Z) (s : CombatState) : CombatState :=
  set_scalars v (_captured_mon s) (_level_before s) (_level_after s) s.
Definition set_captured_mon (v : option ref) (s : CombatState) : CombatState :=
  set_scalars (_prize s) v (_level_before s) (_level_after s) s.
Definition set_level_before (v : Z) (s : CombatState) : CombatState :=
  set_scalars (_prize s) (_captured_mon s) v (_level_after s) s.
Definition set_level_after (v : Z) (s : CombatState) : CombatState :=
  set_scalars (_prize s) (_captured_mon s) (_level_before s) v s.

(** [monster.attr = v] and [player.attr = v] through a reference. *)
Definition update_monster (m : ref) (f : Monster.t -> Monster.t)
    (s : CombatState) : CombatState :=
  set_monsters (fun h => <[m := f (h m)]> h) s.
Definition update_npc (p : ref) (f : NPC.t -> NPC.t)
    (s : CombatState) : CombatState :=
  set_npcs (fun h => <[p := f (h p)]> h) s.
Definition update_technique (r : ref) (f : Technique.t -> Technique.t)
    (s : CombatState) : CombatState :=
  set_techniques (fun h => <[r := f (h r)]> h) id s.
Definition update_condition (r : ref) (f : Condition.t -> Condition.t)
    (s : CombatState) : CombatState :=
  set_conditions (fun h => <[r := f (h r)]> h) id s.

(** [self.monsters_in_play[player]]: a [defaultdict(list)] of the parent
    class, read as the empty list where no entry exists. *)
Definition in_play (s : CombatState) (player : ref) : list ref :=
  default [] (monsters_in_play s !! player).

(** ** Collaborators

    Result dictionaries of the effect contract, and the functions of the
    repository that live outside the four source files: they are the
    parameters of the model. *)

Record TechEffectResult := {
  damage : Z;
  element_multiplier : float;
  should_tackle : bool;
  success : bool;
  extra : option string;
}.

Record CondEffectResult := {
  cond_success : bool;
  cond_extra : option string;
  cond_condition : option ref;
}.

Class Collaborators := {
  (** [Technique.validate(target)], for a move and an opponent *)
  validate : CombatState -> ref -> ref -> bool;
  (** [tuxemon.combat.pre_checking(monster, technique, target)] *)
  pre_checking : CombatState -> ref -> ref -> ref -> ref;
  (** [Technique.load(slug)] and [Condition.load(slug)] read the record
      of that slug from the database *)
  technique_db : string -> Technique.t;
  technique_db_slug : forall n, Technique.slug (technique_db n) = n;
  condition_db : string -> Condition.t;
  condition_db_slug : forall n, Condition.slug (condition_db n) = n;
  (** the draw of [random.choice] on a sequence of the given length *)
  randbelow : nat -> nat;
  randbelow_lt : forall n, (0 < n)%nat -> (randbelow n < n)%nat;
  (** [user.speed_test(action)] *)
  speed_test : CombatState -> user_ref -> EnqueuedAction -> Z;
  (** [Monster.give_experience(amount)] *)
  give_experience : Monster.t -> Z -> Monster.t;
  (** [tuxemon.combat.check_moves(monster, levels)], on the monster *)
  check_moves : Monster.t -> Z -> Monster.t;
  (** [Technique.advance_round()], [Technique.use(user, target)] *)
  technique_advance_round : Technique.t -> Technique.t;
  technique_use :
    ref -> ref -> ref -> CombatState -> TechEffectResult * CombatState;
  (** [Item.use(user, target)] *)
  item_use : ref -> ref -> ref -> CombatState -> CombatState;
  (** [Condition.advance_round()], [Condition.use(target)] *)
  condition_advance_round : Condition.t -> Condition.t;
  condition_use : ref -> ref -> CombatState -> CondEffectResult * CombatState;
  (** [Monster.apply_status(condition)] *)
  apply_status : ref -> ref -> CombatState -> CombatState;
  (** [formula.simple_damage_calculate], [formula.damage_full_hp] *)
  simple_damage_calculate :
    Technique.t -> Monster.t -> Monster.t -> Z * float;
  damage_full_hp : Monster.t -> Z -> Z;
  (** [Technique.advance_counter_success()] *)
  advance_counter_success : Technique.t -> Technique.t;
}.

(** ** [tuxemon/condition/conditions/current_hp.py] *)

Module CurrentHp.

Definition cmp_dict (key : option string) : result (num -> num -> bool) :=
  match key with
  | None => Ok operator.ge
  | Some k =>
      if decide (k = "<") then Ok operator.lt
      else if decide (k = "<=") then Ok operator.le
      else if decide (k = ">") then Ok operator.gt
      else if decide (k = ">=") then Ok operator.ge
      else if decide (k = "==") then Ok operator.eq
      else if decide (k = "=") then Ok operator.eq
      else Raise KeyError
  end.

Record CurrentHitPointsCondition := {
  comparison : option string;
  value : num;
}.

Definition test (self : CurrentHitPointsCondition) (target : Monster.t)
    : result bool :=
  let lhs := Int (Monster.current_hp target) in
  op ← cmp_dict (comparison self);
  rhs ← match value self with
        | Float v => x ← mul_int_float (Monster.hp target) v; Ok (Float x)
        | Int v => Ok (Int v)
        end;
  Ok (op lhs rhs).

(** The reading of the specification: the comparison the condition names, on the
    current health and on the value, scaled by the maximum health when
    the value is a float. *)
Definition test_spec (c : num -> num -> bool)
    (self : CurrentHitPointsCondition) (target : Monster.t) : result bool :=
  match value self with
  | Float v =>
      x ← mul_int_float (Monster.hp target) v;
      Ok (c (Int (Monster.current_hp target)) (Float x))
  | Int v => Ok (c (Int (Monster.current_hp target)) (Int v))
  end.

End CurrentHp.

(** ** [tuxemon/technique/effects/local_damage.py] *)

Module LocalDamage.
Section Effect.
Context `{Collaborators}.

(** [float(v)] of a game variable.  A string is not parsed: the combat
    state stores the draw as a float. *)
Definition float_of_gvalue (v : gvalue) : result float :=
  match v with
  | GFloat x => Ok x
  | GStr _ => Raise ValueError
  end.

(** [LocalDamageEffect.apply(tech, user, target)]; [player] is
    [self.session.player]. *)
Definition apply (player : ref) (tech user target : ref) (s : CombatState)
    : result (TechEffectResult * CombatState) :=
  raw ← match NPC.game_variables (npcs s player) !! "random_tech_hit" with
        | Some v => Ok v
        | None => Raise KeyError
        end;
  value ← float_of_gvalue raw;
  let hit := operator.ge (Float (Technique.accuracy (techniques s tech)))
                   (Float value) in
  let '(damage, mult, s) :=
    if hit then
      let s := update_technique tech (Technique.set_hit true) s in
      let s := update_technique tech advance_counter_success s in
      let '(damage, mult) :=
        simple_damage_calculate (techniques s tech) (monsters s user)
                                (monsters s target) in
      let damage :=
        if decide (Technique.slug (techniques s tech) = "panjandrum")
        then damage_full_hp (monsters s target) 4
        else damage in
      let s := update_monster target
                 (fun m => Monster.set_current_hp
                             (Monster.current_hp m - damage) m) s in
      (damage, mult, s)
    else
      let s := update_technique tech (Technique.set_hit false) s in
      (0, f_1_0, s) in
  Ok ({| damage := damage;
         element_multiplier := mult;
         should_tackle := bool_decide (damage <> 0);
         success := bool_decide (damage <> 0);
         extra := None |}, s).

End Effect.
End LocalDamage.

(** ** [tuxemon/states/combat/combat.py] *)

Module Combat.

(** [MULT_MAP]: a dictionary with two [int] and two [float] keys. *)
Definition MULT_MAP : list (num * string) :=
  [ (Int 4, "attack_very_effective");
    (Int 2, "attack_effective");
    (Float f_0_5, "attack_resisted");
    (Float f_0_25, "attack_weak") ].

(** [d.get(k)] on numeric keys: the entry whose key equals [k] ([4.0]
    finds the key [4]; NaN finds nothing). *)
Definition dict_get {V} (d : list (num * V)) (k : num) : option V :=
  snd <$> List.find (fun kv => operator.eq kv.1 k) d.

Section State.
Context `{Collaborators}.

(** Modelled from the spec: [tuxemon.combat.alive_party] is not among the
    sources; the members of the roster with health above zero (a party
    is defeated when it has no combatant with health > 0). *)
Definition alive_party (s : CombatState) (player : ref) : list ref :=
  filter (fun m => 0 < Monster.current_hp (monsters s m))
         (NPC.monsters (npcs s player)).

(** Modelled from the spec: [tuxemon.combat.defeated] is not among the
    sources; a party is defeated when it has no combatant with
    health > 0. *)
Definition defeated (s : CombatState) (player : ref) : bool :=
  bool_decide (alive_party s player = []).

(** Modelled from the spec: [tuxemon.combat.has_status] is not among the
    sources; the monster carries a condition of that slug. *)
Definition has_status (s : CombatState) (monster : ref) (status_id : string)
    : bool :=
  bool_decide
    (Exists (fun c => Condition.slug (conditions s c) = status_id)
            (Monster.status (monsters s monster))).

Definition players_list (s : CombatState) : list ref :=
  [(players s).1; (players s).2].

(** [remaining_players]. *)
Definition remaining_players (s : CombatState) : list ref :=
  filter (fun p => defeated s p = false) (players_list s).

(** [active_monsters]. *)
Definition active_monsters (s : CombatState) : list ref :=
  concat (snd <$> map_to_list (monsters_in_play s)).

(** The loop of the housekeeping phase over [self.active_players], a
    generator that tests [defeated] when it reaches each player. *)
Fixpoint wait_for_positions (todo : list ref) (s : CombatState)
    : option CombatPhase * CombatState :=
  match todo with
  | [] => (Some decision_phase, s)
  | player :: todo' =>
      if defeated s player then wait_for_positions todo' s
      else
        let s :=
          if bool_decide (length (alive_party s player) = 1%nat)
          then update_npc player (NPC.set_max_position 1) s
          else s in
        let positions_available :=
          NPC.max_position (npcs s player)
          - Z.of_nat (length (in_play s player)) in
        if bool_decide (positions_available <> 0) then (None, s)
        else wait_for_positions todo' s
  end.

(** [determine_phase(phase)]: the next phase, or [None] to stay, and the
    combat state as the call leaves it. *)
Definition determine_phase (phase : option CombatPhase) (s : CombatState)
    : option CombatPhase * CombatState :=
  match phase with
  | None | Some begin => (None, s)
  | Some ready => (Some housekeeping_phase, s)
  | Some housekeeping_phase => wait_for_positions (players_list s) s
  | Some decision_phase =>
      if bool_decide (length (remaining_players s) = 1%nat)
      then (Some ran_away, s)
      else if bool_decide
                (length (_action_queue s) = length (active_monsters s))
      then (Some pre_action_phase, s)
      else (None, s)
  | Some pre_action_phase => (Some action_phase, s)
  | Some action_phase =>
      match _action_queue s with
      | [] => (Some post_action_phase, s)
      | _ => (None, s)
      end
  | Some post_action_phase =>
      match _action_queue s with
      | [] => (Some resolve_match, s)
      | _ => (None, s)
      end
  | Some resolve_match =>
      let remaining := length (remaining_players s) in
      if bool_decide (remaining = 0%nat) then (Some draw_match, s)
      else if bool_decide (remaining = 1%nat) then
        if _run s then (Some ran_away, s) else (Some has_winner, s)
      else (Some housekeeping_phase, s)
  | Some ran_away => (Some end_combat, s)
  | Some draw_match => (Some end_combat, s)
  | Some has_winner => (Some end_combat, s)
  | Some end_combat => (None, s)
  end.

(** [enqueue_action(user, technique, target)]. *)
Definition enqueue_action (user : option user_ref)
    (technique : option payload_ref) (target : ref) (s : CombatState)
    : CombatState :=
  let action := {| user := user; technique := technique;
                   target := target |} in
  let s := set_action_queue (_action_queue s ++ [action]) s in
  set_log_action (_log_action s ++ [(_turn s, action)]) s.

(** *** Sorting and draining the queue *)

Definition sort_order : list string :=
  ["meta"; "item"; "utility"; "potion"; "food"; "heal"; "damage"].

(** [action.technique.sort]. *)
Definition payload_sort (s : CombatState) (p : payload_ref) : string :=
  match p with
  | PTechnique r => Technique.sort (techniques s r)
  | PItem r => Item.sort (items s r)
  | PCondition r => Condition.sort (conditions s r)
  end.

Definition rank_action (s : CombatState) (action : EnqueuedAction)
    : result (Z * Z) :=
  match technique action with
  | None => Ok (0, 0)
  | Some p =>
      let sort := payload_sort s p in
      primary_order ← index sort sort_order;
      if decide (sort = "meta") then Ok (primary_order, 0)
      else if decide (sort = "potion") then Ok (primary_order, 0)
      else match user action with
           | None => Raise AssertionError
           | Some u => Ok (primary_order, speed_test s u action)
           end
  end.

(** [<] on the key tuples. *)
Definition key_lt (a b : Z * Z) : bool :=
  (a.1 <? b.1) || ((a.1 =? b.1) && (a.2 <? b.2)).

(** [sort_action_queue()]: the keys are computed once, in queue order,
    and an exception among them leaves the queue as it was. *)
Definition sort_action_queue (s : CombatState) : result CombatState :=
  keyed ← mapM (fun action => k ← rank_action s action; Ok (k, action))
               (_action_queue s);
  Ok (set_action_queue
        (snd <$> sort_reverse (fun x y => key_lt x.1 y.1) keyed) s).

(** *** Retargeting and purging *)

(** [rewrite_action_queue_target(original, new)]: the loop assigns in
    place at the index it enumerates. *)
Definition rewrite_step (original new : ref) (queue : list EnqueuedAction)
    (index : nat) : list EnqueuedAction :=
  match queue !! index with
  | Some action =>
      if decide (target action = original) then
        let new_action := {| user := user action;
                             technique := technique action;
                             target := new |} in
        <[index := new_action]> queue
      else queue
  | None => queue
  end.

Definition rewrite_action_queue_target (original new : ref)
    (s : CombatState) : CombatState :=
  set_action_queue
    (foldl (rewrite_step original new) (_action_queue s)
           (seq 0 (length (_action_queue s)))) s.

(** [action.user is monster or action.target is monster]. *)
Definition refers_to (monster : ref) (action : EnqueuedAction) : bool :=
  bool_decide (user action = Some (UMonster monster))
  || bool_decide (target action = monster).

(** The second loop of [remove_monster_actions_from_queue]. *)
Fixpoint remove_each (to_remove : list EnqueuedAction)
    (queue : list EnqueuedAction) : result (list EnqueuedAction) :=
  match to_remove with
  | [] => Ok queue
  | action :: rest => queue ← Py.remove action queue; remove_each rest queue
  end.

(** [remove_monster_actions_from_queue(monster)]: the actions to remove
    are collected in a [set] and each member is removed once with
    [list.remove]. *)
Definition remove_monster_actions_from_queue (monster : ref)
    (s : CombatState) : result CombatState :=
  let to_remove : gset EnqueuedAction :=
    foldl (fun acc action =>
             if refers_to monster action then acc ∪ {[action]} else acc)
          ∅ (_action_queue s) in
  queue ← remove_each (elements to_remove) (_action_queue s);
  Ok (set_action_queue queue s).

(** *** Performing an action *)

(** The message key of the type effectiveness in [perform_action]. *)
Definition element_damage_key (s : CombatState) (technique : ref)
    (result_tech : TechEffectResult) : option string :=
  if decide (Technique.range (techniques s technique) <> "special")
  then dict_get MULT_MAP (Float (element_multiplier result_tech))
  else None.

(** The status check [user.status[0].use(user)] of the call sites. *)
Definition use_first_status (phase : string) (monster : ref)
    (s : CombatState) : option CondEffectResult * CombatState :=
  match Monster.status (monsters s monster) with
  | c :: _ =>
      let s := update_condition c (Condition.set_phase phase) s in
      let '(r, s) := condition_use c monster s in
      (Some r, s)
  | [] => (None, s)
  end.

(** [perform_action(user, technique, target)], on the combat state; the
    messages, sounds and sprites it schedules are left out. *)
Definition perform_action (user : option user_ref)
    (technique : option payload_ref) (target : ref) (s : CombatState)
    : CombatState :=
  let s :=
    match technique, user with
    | Some (PTechnique t), Some (UMonster u) =>
        let s := update_technique t technique_advance_round s in
        let '(result_tech, s) := technique_use t u target s in
        let s :=
          match _captured_mon s with
          | Some c =>
              if negb (_captured s) && bool_decide (c = u)
              then set_captured_mon None s else s
          | None => s
          end in
        let '(result_status, s) :=
          use_first_status "perform_action_tech" u s in
        let s :=
          match result_status with
          | Some r =>
              match cond_condition r with
              | Some c => apply_status u c s
              | None => s
              end
          | None => s
          end in
        if should_tackle result_tech then
          set_damage_map
            (fun d => <[target := default ∅ (d !! target) ∪ {[u]}]> d) s
        else s
    | _, _ => s
    end in
  let s :=
    match technique, user with
    | Some (PItem i), Some (UNPC p) => item_use i p target s
    | _, _ => s
    end in
  match technique with
  | Some (PCondition c) =>
      let s := update_condition c
                 (Condition.set_phase "perform_action_status") s in
      let s := update_condition c condition_advance_round s in
      (condition_use c target s).2
  | _ => s
  end.

(** [handle_action_queue()]: the follow-up tasks it schedules run
    later. *)
Definition handle_action_queue (s : CombatState) : result CombatState :=
  match _action_queue s with
  | [] => Ok s
  | _ =>
      '(action, queue) ← pop (_action_queue s);
      Ok (perform_action (user action) (technique action) (target action)
                         (set_action_queue queue s))
  end.

(** *** Fainting *)

(** [a // b] on integers. *)
Definition floordiv (a b : Z) : result Z :=
  if decide (b = 0) then Raise ZeroDivisionError else Ok (a / b).

(** The body of the loop over the contributors in [faint_monster]. *)
Definition award (awarded_exp awarded_mon : Z) (s : CombatState)
    (winners : ref) : CombatState :=
  let s := set_level_before (Monster.level (monsters s winners)) s in
  let s := update_monster winners
             (fun w => give_experience w awarded_exp) s in
  let s := set_level_after (Monster.level (monsters s winners)) s in
  let s := if is_trainer_battle s
           then set_prize (_prize s + awarded_mon) s else s in
  if bool_decide (_level_before s <> _level_after s) then
    let diff := _level_after s - _level_before s in
    if bool_decide (winners ∈ NPC.monsters (npcs s (players s).1))
    then update_monster winners (fun w => check_moves w diff) s
    else s
  else s.

(** The first statements of [faint_monster(monster)]: a fresh [faint]
    condition is loaded, the health is zeroed, the turn counter of the
    first status is reset and the status list is replaced. *)
Definition mark_fainted (monster : ref) (s : CombatState) : CombatState :=
  let faint := next_condition s in
  let s := set_conditions (fun h => <[faint := condition_db "faint"]> h)
                          Pos.succ s in
  let s := update_monster monster (Monster.set_current_hp 0) s in
  let s :=
    match Monster.status (monsters s monster) with
    | c :: _ => update_condition c (Condition.set_nr_turn 0) s
    | [] => s
    end in
  update_monster monster (Monster.set_status [faint]) s.

(** [faint_monster(monster)]. *)
Definition faint_monster (monster : ref) (s : CombatState)
    : result CombatState :=
  let s := mark_fainted monster s in
  match _damage_map s !! monster with
  | Some contributors =>
      let mon := monsters s monster in
      q ← floordiv (Monster.total_experience mon)
                   (Monster.level mon * Z.of_nat (size contributors));
      let awarded_exp := q * Monster.experience_modifier mon in
      let awarded_mon := Monster.level mon * Monster.money_modifier mon in
      let s := foldl (award awarded_exp awarded_mon) s
                     (elements contributors) in
      Ok (set_damage_map (delete monster) s)
  | None => Ok s
  end.

(** The body of [check_party_hp] for one monster in play. *)
Definition check_monster_hp (s : CombatState) (monster : ref)
    : result CombatState :=
  let s := (use_first_status "check_party_hp" monster s).2 in
  if bool_decide (Monster.current_hp (monsters s monster) <= 0)
     && negb (has_status s monster "faint")
  then
    s ← remove_monster_actions_from_queue monster s;
    faint_monster monster s
  else Ok s.

Fixpoint check_monsters_hp (party : list ref) (s : CombatState)
    : result CombatState :=
  match party with
  | [] => Ok s
  | monster :: party' =>
      s ← check_monster_hp s monster; check_monsters_hp party' s
  end.

(** [check_party_hp()]. *)
Definition check_party_hp (s : CombatState) : result CombatState :=
  check_monsters_hp (active_monsters s) s.

End State.
End Combat.

(** ** [tuxemon/ai.py] *)

Module AI.

(** The fields [__init__] sets beside [combat]: the combat state itself is
    shared with the caller and threaded through the methods. *)
Record t := {
  human : ref;
  user : ref;
  monster : ref;
  opponents : list ref;
}.

Section Decision.
Context `{Collaborators}.

(** [max(l)]. *)
Definition py_max (l : list Z) : result Z :=
  match l with
  | [] => Raise ValueError
  | x :: l' => Ok (foldl Z.max x l')
  end.

(** [check_strongest()]: the comprehension evaluates [max] once per
    member of the roster, and [strongest[0]] fails on an empty list. *)
Definition check_strongest (self : t) (s : CombatState) : result bool :=
  let roster := NPC.monsters (npcs s (user self)) in
  let level m := Monster.level (monsters s m) in
  strongest ←
    mapM (fun m => top ← py_max (level <$> roster);
                   Ok (m, bool_decide (level m = top))) roster;
  match filter (fun x => x.2 = true) strongest with
  | [] => Raise IndexError
  | (strong, _) :: _ => Ok (bool_decide (level strong = level (monster self)))
  end.

(** [need_potion()]. *)
Definition need_potion (self : t) (s : CombatState) : result bool :=
  let m := monsters s (monster self) in
  if bool_decide (Monster.current_hp m > 1) then
    x ← mul_int_float (Monster.hp m) f_0_15;
    r ← round x;
    Ok (bool_decide (Monster.current_hp m <= r))
  else Ok false.

(** [action_item(item)]. *)
Definition action_item (self : t) (item : ref) (s : CombatState)
    : CombatState :=
  Combat.enqueue_action (Some (UNPC (user self))) (Some (PItem item))
                        (monster self) s.

(** [action_tech(technique, target)]. *)
Definition action_tech (self : t) (technique target : ref)
    (s : CombatState) : CombatState :=
  let s := update_npc (human self)
             (NPC.set_game_variable "action_tech"
                (GStr (Technique.slug (techniques s technique)))) s in
  let technique := pre_checking s (monster self) technique target in
  Combat.enqueue_action (Some (UMonster (monster self)))
                        (Some (PTechnique technique)) target s.

(** The candidates [actions] of [track_next_use()]. *)
Definition candidate_actions (self : t) (s : CombatState)
    : list (ref * ref) :=
  let m := monsters s (monster self) in
  mov ← slice_from_neg (Monster.max_moves m) (Monster.moves m);
  if bool_decide (Technique.next_use (techniques s mov) <= 0) then
    opponent ← opponents self;
    if validate s mov opponent then [(mov, opponent)] else []
  else [].

(** [track_next_use()]: the pair chosen, and the state, which holds the
    skip technique when one was created. *)
Definition track_next_use (self : t) (s : CombatState)
    : result (ref * ref * CombatState) :=
  let actions := candidate_actions self s in
  match actions with
  | [] =>
      let skip := next_technique s in
      let s := set_techniques (fun h => <[skip := technique_db "skip"]> h)
                              Pos.succ s in
      target ← choice randbelow (opponents self);
      Ok (skip, target, s)
  | _ =>
      '(technique, target) ← choice randbelow actions;
      Ok (technique, target, s)
  end.

(** The loop over [self.user.items] in [make_decision_trainer()]. *)
Fixpoint use_potions (self : t) (todo : list ref) (s : CombatState)
    : result CombatState :=
  match todo with
  | [] => Ok s
  | itm :: todo' =>
      if decide (Item.category (items s itm) = potion) then
        needed ← need_potion self s;
        use_potions self todo'
          (if needed : bool then action_item self itm s else s)
      else use_potions self todo' s
  end.

(** [make_decision_trainer()]. *)
Definition make_decision_trainer (self : t) (s : CombatState)
    : result CombatState :=
  strongest ← check_strongest self s;
  s ← (if strongest : bool then
         if bool_decide (0 < length (NPC.items (npcs s (user self))))%nat
         then use_potions self (NPC.items (npcs s (user self))) s
         else Ok s
       else Ok s);
  '(technique, target, s) ← track_next_use self s;
  Ok (action_tech self technique target s).

(** [make_decision_wild()]. *)
Definition make_decision_wild (self : t) (s : CombatState)
    : result CombatState :=
  '(technique, target, s) ← track_next_use self s;
  Ok (action_tech self technique target s).

(** [AI(combat, monster)]. *)
Definition init (monster : ref) (combat : CombatState)
    : result CombatState :=
  let self := {| human := (players combat).1;
                 user := (players combat).2;
                 monster := monster;
                 opponents := in_play combat (players combat).1 |} in
  if is_trainer_battle combat then make_decision_trainer self combat
  else make_decision_wild self combat.

End Decision.
End AI.

(** ** Scenarios

    Concrete collaborators and combat states on which the properties are
    exercised. *)

Module Scenario.

Definition a_technique (slug sort : string) : Technique.t :=
  {| Technique.slug := slug; Technique.sort := sort;
     Technique.range := "melee"; Technique.accuracy := f_1_0;
     Technique.next_use := 0; Technique.hit := false |}.

Definition a_condition (slug : string) : Condition.t :=
  {| Condition.slug := slug; Condition.sort := "meta";
     Condition.nr_turn := 0; Condition.phase := None |}.

Definition a_monster (level current_hp hp : Z) : Monster.t :=
  {| Monster.level := level; Monster.current_hp := current_hp;
     Monster.hp := hp; Monster.total_experience := 1000;
     Monster.experience_modifier := 1; Monster.money_modifier := 1;
     Monster.moves := [1%positive]; Monster.max_moves := 4;
     Monster.status := [] |}.

Definition a_trainer (roster bag : list ref) (human : bool) : NPC.t :=
  {| NPC.monsters := roster; NPC.items := bag; NPC.max_position := 1;
     NPC.isplayer := human; NPC.game_variables := ∅ |}.

Definition no_effect : TechEffectResult :=
  {| damage := 0; element_multiplier := f_1_0; should_tackle := false;
     success := false; extra := None |}.

(** Collaborators that do as little as their contracts allow: every move
    is valid, the generator draws 0, the speed of a user is its reference
    number, and experience is added to the total. *)
Definition simple : Collaborators.
Proof.
  refine {|
    validate := fun _ _ _ => true;
    pre_checking := fun _ _ technique _ => technique;
    technique_db := fun n => a_technique n "meta";
    condition_db := fun n => a_condition n;
    randbelow := fun _ => 0%nat;
    speed_test := fun _ u _ =>
      match u with UMonster m => Z.pos m | UNPC p => Z.pos p end;
    give_experience := fun m amount =>
      {| Monster.level := Monster.level m;
         Monster.current_hp := Monster.current_hp m;
         Monster.hp := Monster.hp m;
         Monster.total_experience := Monster.total_experience m + amount;
         Monster.experience_modifier := Monster.experience_modifier m;
         Monster.money_modifier := Monster.money_modifier m;
         Monster.moves := Monster.moves m;
         Monster.max_moves := Monster.max_moves m;
         Monster.status := Monster.status m |};
    check_moves := fun m _ => m;
    technique_advance_round := fun x => x;
    technique_use := fun _ _ _ s => (no_effect, s);
    item_use := fun _ _ _ s => s;
    condition_advance_round := fun x => x;
    condition_use := fun _ _ s =>
      ({| cond_success := true; cond_extra := None;
          cond_condition := None |}, s);
    apply_status := fun _ _ s => s;
    simple_damage_calculate := fun _ _ _ => (10, f_2);
    damage_full_hp := fun m d => Monster.hp m / d;
    advance_counter_success := fun x => x;
  |}.
  - reflexivity.
  - reflexivity.
  - intros n Hn. exact Hn.
Defined.

(** A battle of two trainers: the human (player 1) fields monster 1, the
    opponent (player 2) fields monster 2; technique 1 is a damaging move
    and item 1 a potion. *)
Definition battle (human_mon ai_mon : Monster.t) (trainer : bool)
    (queue : list EnqueuedAction) : CombatState :=
  {| techniques := fun _ => a_technique "ram" "damage";
     next_technique := 100%positive;
     items := fun _ => {| Item.slug := "potion"; Item.sort := "potion";
                          Item.category := potion |};
     conditions := fun _ => a_condition "poison";
     next_condition := 100%positive;
     monsters := fun m => if decide (m = 1%positive) then human_mon
                          else ai_mon;
     npcs := fun p => if decide (p = 1%positive)
                      then a_trainer [1%positive] [] true
                      else a_trainer [2%positive] [1%positive] false;
     players := (1%positive, 2%positive);
     monsters_in_play := {[ 1%positive := [1%positive];
                            2%positive := [2%positive] ]};
     is_trainer_battle := trainer;
     _damage_map := ∅;
     _action_queue := queue;
     _log_action := [];
     _turn := 1;
     _prize := 0;
     _captured := false;
     _captured_mon := None;
     _run := false;
     _level_before := 0;
     _level_after := 0 |}.

Definition tackle (user target : ref) : EnqueuedAction :=
  {| user := Some (UMonster user);
     technique := Some (PTechnique 1%positive);
     target := target |}.

(** The target of the ledger example: level 10, total experience 1000,
    modifier 1, hit by the monsters 1 and 3. *)
Definition ledger_battle : CombatState :=
  set_damage_map (fun _ => {[ 2%positive := {[ 1%positive; 3%positive ]} ]})
    (battle (a_monster 5 20 20) (a_monster 10 0 20) false []).


(** Monster 1 queued the same move twice against monster 2, which is at
    zero health. *)
Definition doubled_battle : CombatState :=
  battle (a_monster 5 20 20) (a_monster 5 0 20) false
         [tackle 1 2; tackle 1 2].

(** The decision maker of the opponent's monster 2 facing monster 1. *)
Definition opponent_ai : AI.t :=
  {| AI.human := 1; AI.user := 2; AI.monster := 2; AI.opponents := [1%positive] |}.

(** The round's draw is 0.5 and the move of monster 1 has accuracy 1. *)
Definition drawn_battle : CombatState :=
  update_npc 1 (NPC.set_game_variable "random_tech_hit" (GFloat f_0_5))
    (battle (a_monster 5 20 20) (a_monster 5 20 20) false []).

End Scenario.

(** ** Auxiliary definitions of the statements *)

(** What [rewrite_action_queue_target] does to one action. *)
Definition retarget (original new : ref) (a : EnqueuedAction)
    : EnqueuedAction :=
  if decide (target a = original)
  then {| user := user a; technique := technique a; target := new |}
  else a.

(** The order of two sort keys, as [rank_action] computes them: by
    category index first, by speed key within a category. *)
Definition key_le (a b : Z * Z) : Prop :=
  a.1 < b.1 \/ (a.1 = b.1 /\ a.2 <= b.2).

(** [a] may execute before [b]: its rank is not above the rank of [b]. *)
Definition executes_no_later `{Collaborators} (s : CombatState)
    (a b : EnqueuedAction) : Prop :=
  forall ka kb, Combat.rank_action s a = Ok ka ->
                Combat.rank_action s b = Ok kb -> key_le ka kb.

(** The experience [faint_monster] computes for a fainted target with the
    given number of contributors. *)
Definition awarded_experience (target : Monster.t) (contributors : nat) : Z :=
  Monster.total_experience target
  / (Monster.level target * Z.of_nat contributors)
  * Monster.experience_modifier target.

(** A contributor's record after it was given [amount]: the experience
    is granted, and a member of the human party that changed level is
    passed to the move-learning lookup. *)
Definition rewarded `{Collaborators} (s : CombatState) (amount : Z)
    (w : ref) (before : Monster.t) : Monster.t :=
  let after := give_experience before amount in
  if bool_decide (Monster.level before <> Monster.level after)
     && bool_decide (w ∈ NPC.monsters (npcs s (players s).1))
  then check_moves after (Monster.level after - Monster.level before)
  else after.

(** The item action of the decision maker for one item of the bag. *)
Definition item_action (self : AI.t) (itm : ref) : EnqueuedAction :=
  {| user := Some (UNPC (AI.user self)); technique := Some (PItem itm);
     target := AI.monster self |}.

(** The potion-category items of the trainer's bag, in bag order. *)
Definition potions (self : AI.t) (s : CombatState) : list ref :=
  filter (fun itm => Item.category (items s itm) = potion)
         (NPC.items (npcs s (AI.user self))).

(** The float [x] is the integer [z]. *)
Definition float_is_int (x : float) (z : Z) : bool :=
  match x with
  | S754_zero _ => z =? 0
  | S754_finite s m e =>
      (e <=? 0) && ((if s then Z.neg m else Z.pos m) =? z * 2 ^ (- e))
  | _ => false
  end.

(** [s'] differs from [s] at most in battle positions: every field but
    the trainers is the same, and a trainer is unchanged or has its
    [max_position] set to 1. *)
Definition only_positions_written (s s' : CombatState) : Prop :=
  s' = set_npcs (fun _ => npcs s') s
  /\ forall p, npcs s' p = npcs s p
               \/ npcs s' p = NPC.set_max_position 1 (npcs s p).

(** ** The rest of the battle core

    The methods of [tuxemon/states/combat/combat.py] and [tuxemon/ai.py]
    beside the ones above: the players of the round, the battlefield
    positions, the branches of [transition_phase] that act on the battle
    core, [update_phase], and the cache of technique animations. *)

Definition set_monsters_in_play
    (f : gmap ref (list ref) -> gmap ref (list ref))
    (s : CombatState) : CombatState :=
  {| techniques := techniques s; next_technique := next_technique s;
     items := items s; conditions := conditions s;
     next_condition := next_condition s; monsters := monsters s;
     npcs := npcs s; players := players s;
     monsters_in_play := f (monsters_in_play s);
     is_trainer_battle := is_trainer_battle s;
     _damage_map := _damage_map s; _action_queue := _action_queue s;
     _log_action := _log_action s; _turn := _turn s; _prize := _prize s;
     _captured := _captured s; _captured_mon := _captured_mon s;
     _run := _run s; _level_before := _level_before s;
     _level_after := _level_after s |}.

Definition set_run (v : bool) (s : CombatState) : CombatState :=
  {| techniques := techniques s; next_technique := next_technique s;
     items := items s; conditions := conditions s;
     next_condition := next_condition s; monsters := monsters s;
     npcs := npcs s; players := players s;
     monsters_in_play := monsters_in_play s;
     is_trainer_battle := is_trainer_battle s;
     _damage_map := _damage_map s; _action_queue := _action_queue s;
     _log_action := _log_action s; _turn := _turn s; _prize := _prize s;
     _captured := _captured s; _captured_mon := _captured_mon s;
     _run := v; _level_before := _level_before s;
     _level_after := _level_after s |}.

(** The functions of the repository these methods call that live outside
    the four source files. *)
Class Services := {
  (** [tuxemon.combat.has_status_bond(monster)] *)
  has_status_bond : CombatState -> ref -> bool;
  (** [tuxemon.combat.get_awake_monsters(player, monsters, turn)] makes a
      generator: an object of its own, whose [next()] reads the heap as
      it is at that time and gives a monster or stops *)
  awake : Type;
  get_awake_monsters : ref -> Z -> awake;
  awake_next : awake -> CombatState -> option (ref * awake);
  (** [str(monster.instance_id.hex)] *)
  instance_id_hex : ref -> string;
  (** [Technique.recharge()] *)
  recharge : Technique.t -> Technique.t;
  (** [Condition.validate(target)], for a condition and its bearer *)
  condition_validate : CombatState -> ref -> ref -> bool;
  (** [Monster.set_stats()]: the monster as the call leaves it; the call
      writes no other object *)
  set_stats : CombatState -> ref -> Monster.t;
}.

(** *** [class AI], the check that no decision uses *)

Module Party.
Section Checks.

(** [min(l)]. *)
Definition py_min (l : list Z) : result Z :=
  match l with
  | [] => Raise ValueError
  | x :: l' => Ok (foldl Z.min x l')
  end.

(** [check_weakest()]: the comprehension evaluates [min] once per member
    of the roster, and [weakest[0]] fails on an empty list. *)
Definition check_weakest (self : AI.t) (s : CombatState) : result bool :=
  let roster := NPC.monsters (npcs s (AI.user self)) in
  let level m := Monster.level (monsters s m) in
  weakest ←
    mapM (fun m => low ← py_min (level <$> roster);
                   Ok (m, bool_decide (level m = low))) roster;
  match filter (fun x => x.2 = true) weakest with
  | [] => Raise IndexError
  | (weak, _) :: _ => Ok (bool_decide (level weak = level (AI.monster self)))
  end.

End Checks.
End Party.

(** *** [class TechniqueAnimationCache] *)

Module TechniqueAnimationCache.

(** The keys of [_sprites]: technique and condition objects, hashed by
    identity. *)
Inductive key :=
| KTechnique (r : ref)
| KCondition (r : ref).

Global Instance key_eq_dec : EqDecision key.
Proof. solve_decision. Defined.
Global Instance key_countable : Countable key.
Proof.
  refine (inj_countable'
    (fun k => match k with KTechnique r => inl r | KCondition r => inr r end)
    (fun s => match s with inl r => KTechnique r | inr r => KCondition r end)
    _).
  by intros [].
Defined.

(** The frame time [0.09] of [load_technique_animation]. *)
Definition frame_time : float := S754_finite false 6485183463413514 (-56).

Section Cache.
(** A loaded and scaled image, [graphics.load_and_scale], and the fields
    [images] and [flip_axes] of a technique or a condition. *)
Context {image : Type}.
Variable load_and_scale : string -> image.
Variable images : key -> list string.
Variable flip_axes : key -> string.

(** [Sprite(animation=SurfaceAnimation(images, False))], with the axes
    its animation was flipped on. *)
Record Sprite := {
  frames : list (image * float);
  loop : bool;
  flipped : list string;
}.

(** [load_technique_animation(technique, is_flipped)]. *)
Definition load_technique_animation (technique : key) (is_flipped : bool)
    : option Sprite :=
  match images technique with
  | [] => None
  | fns =>
      let images := (fun fn => (load_and_scale fn, frame_time)) <$> fns in
      Some {| frames := images; loop := false;
              flipped := if is_flipped then [flip_axes technique] else [] |}
  end.

(** [get(technique, is_flipped)]: the sprite, and the cache as the call
    leaves it. *)
Definition get (technique : key) (is_flipped : bool)
    (_sprites : gmap key (option Sprite))
    : option Sprite * gmap key (option Sprite) :=
  match _sprites !! technique with
  | Some sprite => (sprite, _sprites)
  | None =>
      let sprite := load_technique_animation technique is_flipped in
      (sprite, <[technique := sprite]> _sprites)
  end.

End Cache.
End TechniqueAnimationCache.

(** *** [class CombatState], the players and the round *)

Module Round.
Section Round.
Context `{Collaborators} `{Services}.

(** [active_players], read to its end. *)
Definition active_players (s : CombatState) : list ref :=
  filter (fun p => Combat.defeated s p = false) (Combat.players_list s).

(** [human_players], read to its end. *)
Definition human_players (s : CombatState) : list ref :=
  filter (fun p => NPC.isplayer (npcs s p) = true) (Combat.players_list s).

(** [ai_players]: the members of a set difference, in the order of the
    set. *)
Definition ai_players (s : CombatState) : list ref :=
  elements (list_to_set (active_players s) ∖ list_to_set (human_players s)
            : gset ref).

(** [for tech in monster.moves: tech.recharge()]. *)
Definition recharge_moves (monster : ref) (s : CombatState) : CombatState :=
  foldl (fun s tech => update_technique tech recharge s) s
        (Monster.moves (monsters s monster)).

(** [add_monster_into_play(player, monster, removed)]; the release
    animation, the HUD and the messages are left out. *)
Definition add_monster_into_play (player monster : ref)
    (removed : option ref) (s : CombatState) : CombatState :=
  let s := set_monsters_in_play
             (fun d => <[player := in_play s player ++ [monster]]> d) s in
  let s := foldl (fun s mon =>
                    if has_status_bond s mon
                    then update_monster mon (Monster.set_status []) s
                    else s)
                 s (Combat.active_monsters s) in
  let s := match removed with
           | Some r =>
               (Combat.use_first_status "add_monster_into_play" r s).2
           | None => s
           end in
  if decide (player = (players s).1) then
    update_npc (players s).1
      (NPC.set_game_variable "iid_fighting_monster"
         (GStr (instance_id_hex monster))) s
  else s.

(** The loop [for _ in range(positions_available)] of
    [fill_battlefield_positions]; [None] is the [StopIteration] of
    [next(available)].  Asking the player opens a dialog and adds nothing
    by itself. *)
Fixpoint send_out (n : nat) (player : ref) (asks : bool)
    (available : awake) (s : CombatState) : option CombatState :=
  match n with
  | O => Some s
  | S n' =>
      if asks then send_out n' player asks available s
      else
        match awake_next available s with
        | Some (monster, available) =>
            send_out n' player asks available
                     (add_monster_into_play player monster None s)
        | None => None
        end
  end.

(** The loop of [fill_battlefield_positions] over [self.active_players],
    a generator that tests [defeated] when it reaches each player. *)
Fixpoint fill_positions (ask : bool) (humans : list ref) (todo : list ref)
    (s : CombatState) : option CombatState :=
  match todo with
  | [] => Some s
  | player :: todo' =>
      if Combat.defeated s player then fill_positions ask humans todo' s
      else
        let s :=
          if bool_decide (length (Combat.alive_party s player) = 1%nat)
          then update_npc player (NPC.set_max_position 1) s
          else s in
        let positions_available :=
          NPC.max_position (npcs s player)
          - Z.of_nat (length (in_play s player)) in
        if bool_decide (positions_available <> 0) then
          let available := get_awake_monsters player (_turn s) in
          s ← send_out (Z.to_nat positions_available) player
                       (bool_decide (player ∈ humans) && ask) available s;
          fill_positions ask humans todo' s
        else fill_positions ask humans todo' s
  end.

(** [fill_battlefield_positions(ask)]; [None] is [StopIteration]. *)
Definition fill_battlefield_positions (ask : bool) (s : CombatState)
    : option CombatState :=
  fill_positions ask (human_players s) (Combat.players_list s) s.

(** The loop over [self.monsters_in_play[trainer]] in the branch
    "decision phase" of [transition_phase]. *)
Fixpoint decide_monsters (party : list ref) (s : CombatState)
    : result CombatState :=
  match party with
  | [] => Ok s
  | monster :: party' =>
      s ← AI.init monster s;
      decide_monsters party' (recharge_moves monster s)
  end.

Fixpoint decide_trainers (trainers : list ref) (s : CombatState)
    : result CombatState :=
  match trainers with
  | [] => Ok s
  | trainer :: trainers' =>
      s ← decide_monsters (in_play s trainer) s;
      decide_trainers trainers' s
  end.

(** The branch "decision phase" of [transition_phase(phase)]: [value] is
    the draw of [random.random()]; the decision queue is passed in and
    out; the status icons are left out. *)
Definition transition_decision_phase (value : float)
    (_decision_queue : list ref) (s : CombatState)
    : result (list ref * CombatState) :=
  let s := update_npc (players s).1
             (NPC.set_game_variable "random_tech_hit" (GFloat value)) s in
  match _decision_queue with
  | [] =>
      let queue := foldl (fun q player => q ++ in_play s player)
                         _decision_queue (human_players s) in
      s ← decide_trainers (ai_players s) s;
      Ok (queue, s)
  | _ => Ok (_decision_queue, s)
  end.



(** [update_phase()], with [self.phase] and the decision queue; the
    action menu it shows is left out. *)
Definition update_phase (phase : option CombatPhase)
    (_decision_queue : list ref) (s : CombatState)
    : result (list ref * CombatState) :=
  match phase with
  | Some decision_phase =>
      match _decision_queue with
      | [] => Ok (_decision_queue, s)
      | _ =>
          '(monster, queue) ← pop _decision_queue;
          Ok (queue, recharge_moves monster s)
      end
  | Some action_phase | Some post_action_phase =>
      s ← Combat.handle_action_queue s; Ok (_decision_queue, s)
  | _ => Ok (_decision_queue, s)
  end.

End Round.
End Round.

(** ** Auxiliary definitions of the further statements *)

(** The phases [determine_phase] names from a phase. *)
Definition successors (phase : option CombatPhase) : list CombatPhase :=
  match phase with
  | Some ready => [housekeeping_phase]
  | Some housekeeping_phase => [decision_phase]
  | Some decision_phase => [ran_away; pre_action_phase]
  | Some pre_action_phase => [action_phase]
  | Some action_phase => [post_action_phase]
  | Some post_action_phase => [resolve_match]
  | Some resolve_match =>
      [draw_match; ran_away; has_winner; housekeeping_phase]
  | Some ran_away | Some draw_match | Some has_winner => [end_combat]
  | None | Some begin | Some end_combat => []
  end.

(** The action the decision maker enqueues for the move and the target
    it chose, on the state [s1] that the selection left: the move passes
    [pre_checking] after the move's slug was noted. *)
Definition technique_action `{Collaborators} (self : AI.t)
    (technique target : ref) (s1 : CombatState) : EnqueuedAction :=
  {| user := Some (UMonster (AI.monster self));
     technique :=
       Some (PTechnique
               (pre_checking
                  (update_npc (AI.human self)
                     (NPC.set_game_variable "action_tech"
                        (GStr (Technique.slug (techniques s1 technique))))
                     s1)
                  (AI.monster self) technique target));
     target := target |}.



(** The battlefield positions of a player: one when a single member of
    the party has health left, [max_position] otherwise. *)
Definition positions (s : CombatState) (player : ref) : Z :=
  if bool_decide (length (Combat.alive_party s player) = 1%nat) then 1
  else NPC.max_position (npcs s player).

(** [s'] has the players, the rosters and the health of [s]. *)
Definition same_parties (s s' : CombatState) : Prop :=
  players s' = players s
  /\ (forall m, Monster.current_hp (monsters s' m)
                = Monster.current_hp (monsters s m))
  /\ forall p, NPC.monsters (npcs s' p) = NPC.monsters (npcs s p).

(** What the decisions of the opponents keep: the players, the kind of
    the battle, the monsters, the battlefield, the ledger, the turn and
    the round's draw. *)
Definition decisions_keep (s s' : CombatState) : Prop :=
  players s' = players s
  /\ is_trainer_battle s' = is_trainer_battle s
  /\ monsters s' = monsters s
  /\ monsters_in_play s' = monsters_in_play s
  /\ _damage_map s' = _damage_map s
  /\ _turn s' = _turn s
  /\ forall p, NPC.game_variables (npcs s' p) !! "random_tech_hit"
               = NPC.game_variables (npcs s p) !! "random_tech_hit".

(** The number of copies of an action in a queue. *)
Definition copies (a : EnqueuedAction) (q : list EnqueuedAction) : nat :=
  length (filter (fun b => b = a) q).

(** Evaluates the lookup in [cmp_dict] of a test with a given key. *)
Ltac run_test :=
  unfold CurrentHp.test; cbv zeta;
  match goal with
  | |- context [CurrentHp.cmp_dict ?k] =>
      first
        [ change (CurrentHp.cmp_dict k)
            with (@Ok (num -> num -> bool) operator.lt)
        | change (CurrentHp.cmp_dict k)
            with (@Ok (num -> num -> bool) operator.le)
        | change (CurrentHp.cmp_dict k)
            with (@Ok (num -> num -> bool) operator.gt)
        | change (CurrentHp.cmp_dict k)
            with (@Ok (num -> num -> bool) operator.ge)
        | change (CurrentHp.cmp_dict k)
            with (@Ok (num -> num -> bool) operator.eq) ]
  end;
  cbn [mbind result_bind bind CurrentHp.value].

(** ** Further scenarios *)

Module Field.
Import Scenario.

(** Services that do as little as their contracts allow: no monster is
    bonded, every condition is valid, recharging and the stats change
    nothing, and the generator gives, at each [next()], the first member
    of the roster that has health left and is not in play. *)
Definition plain : Services :=
  {| has_status_bond := fun _ _ => false;
     awake := ref;
     get_awake_monsters := fun player _ => player;
     awake_next := fun player s =>
       match filter (fun m => 0 < Monster.current_hp (monsters s m)
                              /\ m ∉ in_play s player)
                    (NPC.monsters (npcs s player)) with
       | m :: _ => Some (m, player)
       | [] => None
       end;
     instance_id_hex := fun _ => "00";
     recharge := fun t => t;
     condition_validate := fun _ _ _ => true;
     set_stats := fun s m => monsters s m |}.

(** Both monsters have queued a move against each other. *)
Definition exchange : CombatState :=
  battle (a_monster 5 20 20) (a_monster 5 20 20) false
         [tackle 1 2; tackle 2 1].


(** The opponent has not yet sent out its monster. *)
Definition unfilled : CombatState :=
  set_monsters_in_play (delete 2%positive)
    (battle (a_monster 5 20 20) (a_monster 5 20 20) false []).

(** A trainer's monster 2 of level 10, hit by the monsters 1 and 3, is
    at zero health. *)
Definition trainer_ledger_battle : CombatState :=
  set_damage_map (fun _ => {[ 2%positive := {[ 1%positive; 3%positive ]} ]})
    (battle (a_monster 5 20 20) (a_monster 10 0 20) true []).

End Field.
(** ** Binary64 arithmetic: conversion, product and rounding *)

Section FloatFacts.

Lemma digits2_pos_size p : digits2_pos p = Pos.size p.
Proof. induction p; simpl; congruence. Qed.

Lemma digits2_pos_bounds p :
  2 ^ (Z.pos (digits2_pos p) - 1) <= Z.pos p < 2 ^ Z.pos (digits2_pos p).
Proof.
  rewrite digits2_pos_size. split.
  - pose proof (Pos.size_le p) as Hle.
    assert (Z.pos (2 ^ Pos.size p) <= Z.pos p~0) as Hz by exact Hle.
    rewrite Pos2Z.inj_pow in Hz.
    replace (Z.pos (Pos.size p)) with (Z.pos (Pos.size p) - 1 + 1) in Hz by lia.
    rewrite Z.pow_add_r in Hz by lia. lia.
  - pose proof (Pos.size_gt p) as Hgt.
    assert (Z.pos p < Z.pos (2 ^ Pos.size p)) as Hz by exact Hgt.
    by rewrite Pos2Z.inj_pow in Hz.
Qed.

Lemma digits2_pos_unique p d :
  2 ^ (d - 1) <= Z.pos p < 2 ^ d -> Z.pos (digits2_pos p) = d.
Proof.
  intros [Hlo Hhi]. pose proof (digits2_pos_bounds p) as [Hlo' Hhi'].
  assert (0 < d).
  { destruct (Z.lt_trichotomy d 0) as [?|[->|?]]; [|simpl in *; lia|done].
    rewrite Z.pow_neg_r in Hhi by lia. lia. }
  destruct (Z.lt_trichotomy (Z.pos (digits2_pos p)) d) as [Hlt|[?|Hgt]];
    [exfalso|done|exfalso].
  - assert (2 ^ Z.pos (digits2_pos p) <= 2 ^ (d - 1))
      by (apply Z.pow_le_mono_r; lia). lia.
  - assert (2 ^ d <= 2 ^ (Z.pos (digits2_pos p) - 1))
      by (apply Z.pow_le_mono_r; lia). lia.
Qed.

Lemma iter_pos_nat {A} (f : A -> A) p x :
  SpecFloat.iter_pos f p x = Nat.iter (Pos.to_nat p) f x.
Proof.
  revert x. induction p as [p IH|p IH|]; intros x.
  - change (SpecFloat.iter_pos f p~1 x)
      with (SpecFloat.iter_pos f p (SpecFloat.iter_pos f p (f x))).
    rewrite !IH, Pos2Nat.inj_xI, <- Nat.iter_add, <- Nat.iter_succ_r.
    f_equal. lia.
  - change (SpecFloat.iter_pos f p~0 x)
      with (SpecFloat.iter_pos f p (SpecFloat.iter_pos f p x)).
    rewrite !IH, Pos2Nat.inj_xO, <- Nat.iter_add. f_equal. lia.
  - done.
Qed.

Lemma shr_1_spec m r s :
  0 <= m ->
  shr_1 {| shr_m := m; shr_r := r; shr_s := s |}
  = {| shr_m := m / 2; shr_r := Z.odd m; shr_s := r || s |}.
Proof.
  intros Hm. rewrite <- Z.div2_div.
  destruct m as [|[p|p|]|]; simpl; done.
Qed.

Lemma shr_iter_spec M n :
  0 <= M ->
  Nat.iter (S n) shr_1 {| shr_m := M; shr_r := false; shr_s := false |}
  = {| shr_m := M / 2 ^ (Z.of_nat n + 1);
       shr_r := Z.odd (M / 2 ^ Z.of_nat n);
       shr_s := negb (M mod 2 ^ Z.of_nat n =? 0) |}.
Proof.
  intros HM. induction n as [|n IH].
  - change (shr_1 {| shr_m := M; shr_r := false; shr_s := false |}
            = {| shr_m := M / 2 ^ 1; shr_r := Z.odd (M / 2 ^ 0);
                 shr_s := negb (M mod 2 ^ 0 =? 0) |}).
    rewrite shr_1_spec by done.
    change (2 ^ 1) with 2. change (2 ^ 0) with 1.
    by rewrite Z.div_1_r, Z.mod_1_r.
  - rewrite Nat.iter_succ, IH.
    assert (Hp : 0 < 2 ^ Z.of_nat n) by (apply Z.pow_pos_nonneg; lia).
    rewrite shr_1_spec by (apply Z.div_pos; [done|apply Z.pow_pos_nonneg; lia]).
    replace (Z.of_nat (S n)) with (Z.of_nat n + 1) by lia.
    f_equal.
    + rewrite Z.div_div by lia. f_equal.
      rewrite (Z.pow_add_r 2 (Z.of_nat n + 1) 1) by lia. lia.
    + rewrite (Z.pow_add_r 2 (Z.of_nat n) 1) by lia.
      change (2 ^ 1) with 2.
      rewrite Z.rem_mul_r by lia.
      destruct (Z.odd (M / 2 ^ Z.of_nat n)) eqn:Hodd.
      * simpl. symmetry. apply negb_true_iff, Z.eqb_neq.
        rewrite Zmod_odd, Hodd.
        pose proof (Z.mod_pos_bound M (2 ^ Z.of_nat n) Hp). lia.
      * simpl. rewrite Zmod_odd, Hodd. f_equal. f_equal. lia.
Qed.


Lemma round_shr_spec M n :
  0 <= M ->
  let mrs := Nat.iter (S n) shr_1
               {| shr_m := M; shr_r := false; shr_s := false |} in
  round_nearest_even (shr_m mrs) (loc_of_shr_record mrs)
  = round_half_even M (2 ^ (Z.of_nat n + 1)).
Proof.
  intros HM mrs. subst mrs. rewrite shr_iter_spec by done.
  unfold round_half_even. cbn [shr_m].
  assert (Hp : 0 < 2 ^ Z.of_nat n) by (apply Z.pow_pos_nonneg; lia).
  rewrite (Z.pow_add_r 2 (Z.of_nat n) 1) by lia. change (2 ^ 1) with 2.
  rewrite Z.rem_mul_r by lia. rewrite Zmod_odd.
  pose proof (Z.mod_pos_bound M (2 ^ Z.of_nat n) Hp) as Hlow.
  destruct (Z.odd (M / 2 ^ Z.of_nat n)) eqn:Hodd;
    destruct (M mod 2 ^ Z.of_nat n =? 0) eqn:Hz; simpl;
    [apply Z.eqb_eq in Hz|apply Z.eqb_neq in Hz
    |apply Z.eqb_eq in Hz|apply Z.eqb_neq in Hz].
  - replace (2 * (M mod 2 ^ Z.of_nat n + 2 ^ Z.of_nat n * 1)
             ?= 2 ^ Z.of_nat n * 2) with Eq; [done|].
    symmetry. apply Z.compare_eq_iff. lia.
  - replace (2 * (M mod 2 ^ Z.of_nat n + 2 ^ Z.of_nat n * 1)
             ?= 2 ^ Z.of_nat n * 2) with Gt; [done|].
    symmetry. apply Z.compare_gt_iff. lia.
  - replace (2 * (M mod 2 ^ Z.of_nat n + 2 ^ Z.of_nat n * 0)
             ?= 2 ^ Z.of_nat n * 2) with Lt; [done|].
    symmetry. apply Z.compare_lt_iff. lia.
  - replace (2 * (M mod 2 ^ Z.of_nat n + 2 ^ Z.of_nat n * 0)
             ?= 2 ^ Z.of_nat n * 2) with Lt; [done|].
    symmetry. apply Z.compare_lt_iff. lia.
Qed.


Lemma round_half_even_spec n d :
  0 < d ->
  d * (2 * round_half_even n d - 1) <= 2 * n
  <= d * (2 * round_half_even n d + 1).
Proof.
  intros Hd. unfold round_half_even.
  pose proof (Z.div_mod n d ltac:(lia)) as Hdm.
  pose proof (Z.mod_pos_bound n d Hd) as Hb.
  destruct (2 * (n mod d) ?= d) eqn:E.
  - apply Z.compare_eq_iff in E. destruct (Z.even (n / d)); nia.
  - rewrite Z.compare_lt_iff in E. nia.
  - rewrite Z.compare_gt_iff in E. nia.
Qed.

Lemma round_half_even_nearest n d r :
  0 < d -> d * (2 * r - 1) < 2 * n < d * (2 * r + 1) ->
  round_half_even n d = r.
Proof.
  intros Hd [Hlo Hhi]. pose proof (round_half_even_spec n d Hd) as [Hlo' Hhi'].
  set (q := round_half_even n d) in *.
  destruct (Z.lt_trichotomy q r) as [?|[?|?]]; [nia|done|nia].
Qed.

Lemma round_half_even_tie n d q :
  0 < d -> 2 * n = d * (2 * q + 1) ->
  round_half_even n d = if Z.even q then q else q + 1.
Proof.
  intros Hd Hn. unfold round_half_even.
  pose proof (Z.div_mod n d ltac:(lia)) as Hdm.
  pose proof (Z.mod_pos_bound n d Hd) as Hb.
  assert (n / d = q) as Hq by nia.
  assert (2 * (n mod d) = d) as Hr by nia.
  rewrite Hq. by apply Z.compare_eq_iff in Hr as ->.
Qed.

Lemma binary_round_aux_normal sx (P n : positive) (E : Z) :
  Z.pos (digits2_pos P) = 53 + Z.pos n ->
  - 1074 <= E + Z.pos n -> E + Z.pos n + 1 <= 971 ->
  let m := round_half_even (Z.pos P) (2 ^ Z.pos n) in
  2 ^ 52 <= m <= 2 ^ 53
  /\ binary_round_aux prec emax sx (Z.pos P) E loc_Exact
     = if m <? 2 ^ 53 then S754_finite sx (Z.to_pos m) (E + Z.pos n)
       else S754_finite sx (Z.to_pos (2 ^ 52)) (E + Z.pos n + 1).
Proof.
  intros Hdig Hlo Hhi m.
  assert (Hk : 0 < 2 ^ Z.pos n) by (apply Z.pow_pos_nonneg; lia).
  assert (Hm : 2 ^ 52 <= m <= 2 ^ 53).
  { pose proof (digits2_pos_bounds P) as [Hl Hh]. rewrite Hdig in Hl, Hh.
    replace (53 + Z.pos n - 1) with (52 + Z.pos n) in Hl by lia.
    rewrite Z.pow_add_r in Hl, Hh by lia.
    pose proof (round_half_even_spec (Z.pos P) (2 ^ Z.pos n) Hk) as [Hr1 Hr2].
    fold m in Hr1, Hr2. change (2 ^ 52) with 4503599627370496 in *.
    change (2 ^ 53) with 9007199254740992 in *. nia. }
  split; [done|].
  unfold binary_round_aux, shr_fexp.
  change (Zdigits2 (Z.pos P)) with (Z.pos (digits2_pos P)).
  assert (Hf1 : fexp prec emax (Z.pos (digits2_pos P) + E) - E = Z.pos n).
  { unfold fexp, emin, prec, emax. lia. }
  rewrite Hf1. unfold shr at 1. cbn [shr_record_of_loc].
  rewrite iter_pos_nat.
  destruct (Pos.to_nat n) as [|k] eqn:Hn; [lia|].
  pose proof (round_shr_spec (Z.pos P) k ltac:(lia)) as Hround.
  cbv zeta in Hround.
  replace (Z.of_nat k + 1) with (Z.pos n) in Hround by lia.
  fold m in Hround.
  destruct (Nat.iter (S k) shr_1 _) as [m1 r1 s1] eqn:Hiter.
  cbn [shr_m] in Hround. cbn [shr_m]. rewrite Hround.
  destruct m as [|pm|pm] eqn:Hmeq; [lia| |lia].
  cbn [shr_record_of_loc Zdigits2].
  destruct (Z.pos pm <? 2 ^ 53) eqn:Hlt.
  - apply Z.ltb_lt in Hlt.
    assert (Hd : Z.pos (digits2_pos pm) = 53)
      by (apply digits2_pos_unique; change (53 - 1) with 52; lia).
    rewrite Hd.
    assert (Hf2 : fexp prec emax (53 + (E + Z.pos n)) - (E + Z.pos n) = 0)
      by (unfold fexp, emin, prec, emax; lia).
    rewrite Hf2. cbn [shr shr_m].
    assert (Hle : (E + Z.pos n <=? emax - prec) = true)
      by (apply Z.leb_le; unfold emax, prec; lia).
    by rewrite Hle.
  - apply Z.ltb_ge in Hlt. assert (Z.pos pm = 2 ^ 53) as Hpm by lia.
    change (2 ^ 53) with (Z.pos 9007199254740992) in Hpm.
    injection Hpm as ->.
    change (digits2_pos 9007199254740992) with 54%positive.
    assert (Hf2 : fexp prec emax (54 + (E + Z.pos n)) - (E + Z.pos n) = 1)
      by (unfold fexp, emin, prec, emax; lia).
    rewrite Hf2. cbn.
    assert (Hle : (E + Z.pos n + 1 <=? emax - prec) = true)
      by (apply Z.leb_le; unfold emax, prec; lia).
    by rewrite Hle.
Qed.

(** The double rounding of [hp * 0.15]: first to 53 bits, in units of
    [K], then to an integer, in units of [2 * D2].  The constant is the
    mantissa of [0.15], twenty times which is [3 * 2 ^ 55 - 4]. *)
Lemma threshold_double_rounding hp T K D2 :
  1 <= hp -> 4 <= T -> hp * T < 2 ^ 53 ->
  2 ^ 52 <= K <= 2 ^ 53 -> 0 < D2 -> K * (2 * D2) = T * 2 ^ 55 ->
  round_half_even
    (round_half_even (hp * T * 5404319552844595) K) (2 * D2)
  = round_half_even (3 * hp) 20.
Proof.
  intros Hhp HT HhT HK HD HKD.
  change (2 ^ 53) with 9007199254740992 in *.
  change (2 ^ 52) with 4503599627370496 in *.
  change (2 ^ 55) with 36028797018963968 in *.
  set (M := hp * T * 5404319552844595).
  pose proof (round_half_even_spec M K ltac:(lia)) as [Hm1 Hm2].
  set (m := round_half_even M K) in *.
  pose proof (round_half_even_spec (3 * hp) 20 ltac:(lia)) as [Hr1 Hr2].
  set (r0 := round_half_even (3 * hp) 20) in *.
  assert (HP : 0 < hp * T) by (apply Z.mul_pos_pos; lia).
  destruct (decide (3 * hp - 20 * r0 = 10 \/ 3 * hp - 20 * r0 = - 10))
    as [Htie|Hnotie].
  - (* a tie of 3 * hp / 20 is a tie of the second rounding *)
    assert (exists r1, 3 * hp = 20 * r1 + 10) as [r1 Hr].
    { destruct Htie; [exists r0|exists (r0 - 1)]; lia. }
    assert (Hm : m = r1 * (2 * D2) + D2).
    { subst m. apply round_half_even_nearest; [lia|].
      assert (HA : 3 * hp * (T * 36028797018963968)
                   = (20 * r1 + 10) * (K * (2 * D2)))
        by (rewrite Hr, HKD; reflexivity).
      subst M. lia. }
    rewrite Hm.
    rewrite (round_half_even_tie _ (2 * D2) r1) by lia.
    subst r0. rewrite (round_half_even_tie (3 * hp) 20 r1) by lia. done.
  - assert (- 9 <= 3 * hp - 20 * r0 <= 9) as Hn by lia.
    assert (HA : 0 < K * (2 * D2)) by (apply Z.mul_pos_pos; lia).
    assert (HM : 20 * M = 3 * hp * (K * (2 * D2)) - 4 * (hp * T))
      by (rewrite HKD; subst M; lia).
    apply round_half_even_nearest; [lia|]. split.
    + apply Z.nle_gt. intros Hc.
      assert (K * (2 * m) <= K * (2 * D2 * (2 * r0 - 1)))
        by (apply Z.mul_le_mono_nonneg_l; lia).
      assert (K * (2 * D2) * (20 * r0 - 9) <= K * (2 * D2) * (3 * hp))
        by (apply Z.mul_le_mono_nonneg_l; lia).
      lia.
    + apply Z.nle_gt. intros Hc.
      assert (K * (2 * D2 * (2 * r0 + 1)) <= K * (2 * m))
        by (apply Z.mul_le_mono_nonneg_l; lia).
      assert (K * (2 * D2) * (3 * hp) <= K * (2 * D2) * (20 * r0 + 9))
        by (apply Z.mul_le_mono_nonneg_l; lia).
      lia.
Qed.

Lemma pos_iter_xO p k : Z.pos (Pos.iter xO p k) = Z.pos p * 2 ^ Z.pos k.
Proof.
  induction k as [|k IH] using Pos.peano_ind.
  - simpl. lia.
  - rewrite Pos.iter_succ, Pos2Z.inj_succ, Z.pow_succ_r by lia.
    rewrite Pos2Z.inj_xO, IH. lia.
Qed.

Lemma binary_round_aux_exact sx (P : positive) (E : Z) :
  Z.pos (digits2_pos P) = 53 -> - 1074 <= E <= 971 ->
  binary_round_aux prec emax sx (Z.pos P) E loc_Exact = S754_finite sx P E.
Proof.
  intros Hdig HE. unfold binary_round_aux, shr_fexp.
  change (Zdigits2 (Z.pos P)) with (Z.pos (digits2_pos P)).
  assert (Hf : fexp prec emax (Z.pos (digits2_pos P) + E) - E = 0)
    by (unfold fexp, emin, prec, emax; lia).
  rewrite Hf. cbn [shr shr_record_of_loc shr_m loc_of_shr_record
                   round_nearest_even Zdigits2].
  rewrite Hf. cbn [shr shr_m].
  assert (Hle : (E <=? emax - prec) = true)
    by (apply Z.leb_le; unfold emax, prec; lia).
  by rewrite Hle.
Qed.

(** [float(i)] is exact below [2 ^ 53]: the mantissa is [i] shifted to
    53 bits. *)
Lemma float_of_int_exact (p : positive) :
  let d := Z.pos (digits2_pos p) in
  d <= 53 ->
  float_of_int (Z.pos p)
  = Ok (S754_finite false (Z.to_pos (Z.pos p * 2 ^ (53 - d))) (d - 53))
  /\ Z.pos (digits2_pos (Z.to_pos (Z.pos p * 2 ^ (53 - d)))) = 53.
Proof.
  intros d Hd. unfold float_of_int, binary_normalize, binary_round.
  assert (Hfexp : fexp prec emax (Z.pos (digits2_pos p) + 0) = d - 53)
    by (unfold fexp, emin, prec, emax; lia).
  rewrite Hfexp. unfold shl_align.
  pose proof (digits2_pos_bounds p) as [Hlo Hhi]. fold d in Hlo, Hhi.
  destruct (d - 53 - 0) as [|k|k] eqn:Hk; [|lia|].
  - assert (d = 53) as Hd53 by lia. rewrite Hd53. change (53 - 53) with 0.
    change (2 ^ 0) with 1. rewrite Z.mul_1_r. simpl Z.to_pos.
    split; [|done].
    rewrite binary_round_aux_exact by (done || lia). done.
  - assert (Hshift : Z.pos (Pos.iter xO p k) = Z.pos p * 2 ^ (53 - d))
      by (rewrite pos_iter_xO; f_equal; f_equal; lia).
    rewrite <- Hshift. simpl Z.to_pos.
    assert (Hdig : Z.pos (digits2_pos (Pos.iter xO p k)) = 53).
    { apply digits2_pos_unique. rewrite Hshift.
      assert (0 < 2 ^ (53 - d)) by (apply Z.pow_pos_nonneg; lia).
      assert (H52 : 2 ^ (53 - 1) = 2 ^ (d - 1) * 2 ^ (53 - d))
        by (rewrite <- Z.pow_add_r by lia; f_equal; lia).
      assert (H53 : 2 ^ 53 = 2 ^ d * 2 ^ (53 - d))
        by (rewrite <- Z.pow_add_r by lia; f_equal; lia).
      rewrite H52, H53. split.
      - apply Z.mul_le_mono_nonneg_r; lia.
      - apply Z.mul_lt_mono_pos_r; lia. }
    split; [|done].
    rewrite binary_round_aux_exact by (done || lia). done.
Qed.

Lemma round_half_even_double a b :
  0 < b -> round_half_even (2 * a) (2 * b) = round_half_even a b.
Proof.
  intros Hb. unfold round_half_even.
  rewrite Z.div_mul_cancel_l, Z.mul_mod_distr_l by lia.
  set (r := a `mod` b).
  assert (Hc : (2 * (2 * r) ?= 2 * b) = (2 * r ?= b)).
  { destruct (2 * r ?= b) eqn:E.
    - apply Z.compare_eq in E. apply Z.compare_eq_iff. lia.
    - rewrite Z.compare_lt_iff in *. lia.
    - rewrite Z.compare_gt_iff in *. lia. }
  by rewrite Hc.
Qed.

Lemma round_half_even_exact a d :
  0 < d -> round_half_even (a * d) d = a.
Proof. intros Hd. apply round_half_even_nearest; [done|]. nia. Qed.

(** [i * x] for [0 < i < 2 ^ 53] and a normal [x]: the product of the
    mantissas is rounded once, to 53 bits. *)
Lemma mul_int_float_normal (p c : positive) (ec : Z) :
  let d := Z.pos (digits2_pos p) in
  let P := Z.pos p * 2 ^ (53 - d) * Z.pos c in
  let n := if P <? 2 ^ 105 then 52 else 53 in
  let m := round_half_even P (2 ^ n) in
  let e := d - 53 + ec + n in
  d <= 53 -> Z.pos (digits2_pos c) = 53 -> - 1000 <= ec <= 800 ->
  2 ^ 52 <= m <= 2 ^ 53
  /\ mul_int_float (Z.pos p) (S754_finite false c ec)
     = Ok (if m <? 2 ^ 53 then S754_finite false (Z.to_pos m) e
           else S754_finite false (Z.to_pos (2 ^ 52)) (e + 1)).
Proof.
  intros d P n m e Hd Hc Hec.
  destruct (float_of_int_exact p Hd) as [Hfloat Hdig]. fold d in Hfloat, Hdig.
  pose proof (digits2_pos_bounds p) as [_ Hd1]. fold d in Hd1.
  assert (0 < d) by (subst d; lia).
  assert (HT : 0 < 2 ^ (53 - d)) by (apply Z.pow_pos_nonneg; lia).
  set (mx := Z.to_pos (Z.pos p * 2 ^ (53 - d))) in *.
  assert (Hmx : Z.pos mx = Z.pos p * 2 ^ (53 - d))
    by (subst mx; rewrite Z2Pos.id; lia).
  pose proof (digits2_pos_bounds mx) as Hbx. rewrite Hdig in Hbx.
  pose proof (digits2_pos_bounds c) as Hbc. rewrite Hc in Hbc.
  change (2 ^ (53 - 1)) with 4503599627370496 in Hbx, Hbc.
  change (2 ^ 53) with 9007199254740992 in Hbx, Hbc.
  assert (HP : P = Z.pos (mx * c)) by (subst P; rewrite Pos2Z.inj_mul; lia).
  assert (HPlo : 2 ^ 104 <= P).
  { change (2 ^ 104) with (4503599627370496 * 4503599627370496).
    rewrite HP, Pos2Z.inj_mul. apply Z.mul_le_mono_nonneg; lia. }
  assert (HPhi : P < 2 ^ 106).
  { change (2 ^ 106) with (9007199254740992 * 9007199254740992).
    rewrite HP, Pos2Z.inj_mul. apply Z.mul_lt_mono_nonneg; lia. }
  unfold mul_int_float. rewrite Hfloat. cbn [bind].
  unfold fmul, SFmul. cbn [xorb].
  subst m e n. rewrite <- HP. destruct (P <? 2 ^ 105) eqn:Hlt.
  - apply Z.ltb_lt in Hlt.
    destruct (binary_round_aux_normal false (mx * c) 52 (d - 53 + ec))
      as [Hm Haux].
    + apply digits2_pos_unique. rewrite <- HP. done.
    + lia.
    + lia.
    + rewrite <- HP in Hm, Haux. split; [exact Hm|]. rewrite Haux. reflexivity.
  - apply Z.ltb_ge in Hlt.
    destruct (binary_round_aux_normal false (mx * c) 53 (d - 53 + ec))
      as [Hm Haux].
    + apply digits2_pos_unique. rewrite <- HP. done.
    + lia.
    + lia.
    + rewrite <- HP in Hm, Haux. split; [exact Hm|]. rewrite Haux. reflexivity.
Qed.

(** The threshold of the potion gate: [round(hp * 0.15)] is the nearest
    integer to [3 * hp / 20], ties to even. *)
Lemma potion_threshold hp :
  0 <= hp < 2 ^ 51 ->
  (x ← mul_int_float hp f_0_15; Py.round x)
  = Ok (round_half_even (3 * hp) 20).
Proof.
  intros Hhp. destruct hp as [|p|p]; [done| |lia].
  pose proof (digits2_pos_bounds p) as [Hd0 _].
  assert (Hd : Z.pos (digits2_pos p) <= 51).
  { destruct (Z.le_gt_cases (Z.pos (digits2_pos p)) 51) as [|Hgt]; [done|].
    assert (2 ^ 51 <= 2 ^ (Z.pos (digits2_pos p) - 1))
      by (apply Z.pow_le_mono_r; lia). lia. }
  destruct (mul_int_float_normal p 5404319552844595 (-55))
    as [Hm Hmul]; [lia|done|lia|].
  cbv zeta in Hm, Hmul. unfold f_0_15. rewrite Hmul. clear Hmul.
  set (d := Z.pos (digits2_pos p)) in *.
  set (T := 2 ^ (53 - d)) in *.
  set (P := Z.pos p * T * 5404319552844595) in *.
  set (n := if P <? 2 ^ 105 then 52 else 53) in *.
  assert (Hn : n = 52 \/ n = 53) by (subst n; destruct (_ <? _); auto).
  set (m := round_half_even P (2 ^ n)) in *.
  assert (HD2 : 0 < 2 ^ (107 - d - n)) by (apply Z.pow_pos_nonneg; lia).
  assert (HD : 2 ^ (108 - d - n) = 2 * 2 ^ (107 - d - n)).
  { rewrite <- Z.pow_succ_r by lia. f_equal. lia. }
  assert (Hround : (if m <? 2 ^ 53
                    then round_half_even m (2 ^ (108 - d - n))
                    else round_half_even (2 ^ 52) (2 ^ (107 - d - n)))
                   = round_half_even (3 * Z.pos p) 20).
  { assert (Hgoal : round_half_even m (2 * 2 ^ (107 - d - n))
                    = round_half_even (3 * Z.pos p) 20).
    { subst m P. apply threshold_double_rounding.
      - lia.
      - subst T. change 4 with (2 ^ 2). apply Z.pow_le_mono_r; lia.
      - pose proof (digits2_pos_bounds p) as [_ Hhi]. fold d in Hhi.
        subst T. replace 53 with (d + (53 - d)) at 2 by lia.
        rewrite Z.pow_add_r by lia.
        apply Z.mul_lt_mono_pos_r; [apply Z.pow_pos_nonneg|]; lia.
      - destruct Hn as [-> | ->]; done.
      - done.
      - rewrite <- HD. subst T. rewrite <- !Z.pow_add_r by lia.
        f_equal. lia. }
    destruct (m <? 2 ^ 53) eqn:Hlt.
    - by rewrite HD.
    - apply Z.ltb_ge in Hlt. assert (m = 2 * 2 ^ 52) as Hm53 by lia.
      rewrite <- Hgoal, Hm53. symmetry. by apply round_half_even_double. }
  rewrite <- Hround.
  destruct (m <? 2 ^ 53) eqn:Hlt; cbn [mbind result_bind bind Py.round].
  - assert (He : (0 <=? d - 53 + -55 + n) = false) by (apply Z.leb_gt; lia).
    rewrite He. rewrite Z2Pos.id by lia. do 3 f_equal. lia.
  - assert (He : (0 <=? d - 53 + -55 + n + 1) = false)
      by (apply Z.leb_gt; lia).
    rewrite He. do 3 f_equal. lia.
Qed.

(** [hp * 1.0] is the integer [hp]. *)
Lemma scale_by_one hp :
  0 <= hp < 2 ^ 53 ->
  exists x, mul_int_float hp f_1_0 = Ok x /\ float_is_int x hp = true.
Proof.
  intros Hhp. destruct hp as [|p|p]; [by eexists| |lia].
  pose proof (digits2_pos_bounds p) as [Hd0 Hd1].
  assert (Hd : Z.pos (digits2_pos p) <= 53).
  { destruct (Z.le_gt_cases (Z.pos (digits2_pos p)) 53) as [|Hgt]; [done|].
    assert (2 ^ 53 <= 2 ^ (Z.pos (digits2_pos p) - 1))
      by (apply Z.pow_le_mono_r; lia). lia. }
  destruct (mul_int_float_normal p 4503599627370496 (-52))
    as [Hm Hmul]; [lia|done|lia|].
  cbv zeta in Hm, Hmul. unfold f_1_0. rewrite Hmul. clear Hmul.
  set (d := Z.pos (digits2_pos p)) in *.
  assert (HT : 0 < 2 ^ (53 - d)) by (apply Z.pow_pos_nonneg; lia).
  assert (HhT : Z.pos p * 2 ^ (53 - d) < 2 ^ 53).
  { replace 53 with (d + (53 - d)) at 2 by lia.
    rewrite Z.pow_add_r by lia. apply Z.mul_lt_mono_pos_r; lia. }
  set (P := Z.pos p * 2 ^ (53 - d) * 4503599627370496) in *.
  assert (Hn : (P <? 2 ^ 105) = true).
  { apply Z.ltb_lt. subst P. change (2 ^ 105) with (2 ^ 53 * 2 ^ 52).
    change 4503599627370496 with (2 ^ 52).
    apply Z.mul_lt_mono_pos_r; [done|lia]. }
  rewrite Hn in *.
  assert (Hexact : round_half_even P (2 ^ 52) = Z.pos p * 2 ^ (53 - d))
    by (subst P; change 4503599627370496 with (2 ^ 52);
        by apply round_half_even_exact).
  rewrite Hexact in *.
  assert (Hlt : (Z.pos p * 2 ^ (53 - d) <? 2 ^ 53) = true)
    by (by apply Z.ltb_lt).
  rewrite Hlt. eexists. split; [done|].
  unfold float_is_int. apply andb_true_iff. split.
  - apply Z.leb_le. lia.
  - apply Z.eqb_eq. rewrite Z2Pos.id by lia. do 2 f_equal. lia.
Qed.

End FloatFacts.

(** * Properties *)

(** ** The queue: retargeting *)

Section QueueFacts.
Context `{Collaborators}.

Lemma rewrite_loop_map original new (done todo : list EnqueuedAction) :
  foldl (Combat.rewrite_step original new) (done ++ todo)
        (seq (length done) (length todo))
  = done ++ (retarget original new <$> todo).
Proof.
  revert done. induction todo as [|a todo IH]; intros done; simpl.
  - done.
  - unfold Combat.rewrite_step at 2.
    rewrite list_lookup_middle by done.
    assert (Hstep :
      (if decide (target a = original)
       then <[length done := {| user := user a; technique := technique a;
                                target := new |}]> (done ++ a :: todo)
       else done ++ a :: todo)
      = (done ++ [retarget original new a]) ++ todo).
    { unfold retarget. destruct (decide (target a = original)).
      - rewrite <- app_assoc. simpl.
        replace (length done) with (length done + 0)%nat at 1 by lia.
        by rewrite insert_app_r.
      - by rewrite <- app_assoc. }
    rewrite Hstep.
    replace (S (length done)) with (length (done ++ [retarget original new a]))
      by (rewrite length_app; simpl; lia).
    rewrite IH. by rewrite <- app_assoc.
Qed.

Lemma rewrite_queue_map original new s :
  _action_queue (Combat.rewrite_action_queue_target original new s)
  = retarget original new <$> _action_queue s.
Proof.
  unfold Combat.rewrite_action_queue_target. simpl.
  apply (rewrite_loop_map original new []).
Qed.

Lemma pop_snoc {A} (l : list A) (x : A) : pop (l ++ [x]) = Ok (x, l).
Proof.
  unfold pop. rewrite reverse_app. simpl. by rewrite reverse_involutive.
Qed.

(** C9.  For every queue and every pair of monsters (original, new),
    [rewrite_action_queue_target] touches nothing but the queue, keeps
    its length and order, and at every index keeps the user and the
    payload of the action and replaces the target by [new] exactly when it
    was [original]; the action that is popped next is performed with the
    target the rewritten queue holds, which is not [original] when the
    two monsters differ. *)
Theorem rewrite_action_queue_target_retargets (original new : ref)
    (s : CombatState) :
  let s' := Combat.rewrite_action_queue_target original new s in
  s' = set_action_queue (_action_queue s') s
  /\ length (_action_queue s') = length (_action_queue s)
  /\ (forall i a, _action_queue s !! i = Some a ->
        exists a', _action_queue s' !! i = Some a'
          /\ user a' = user a
          /\ technique a' = technique a
          /\ target a' = (if decide (target a = original) then new
                          else target a))
  /\ (forall front a, _action_queue s' = front ++ [a] ->
        Combat.handle_action_queue s'
        = Ok (Combat.perform_action (user a) (technique a) (target a)
                (set_action_queue front s))
        /\ (new <> original -> target a <> original))
  /\ (new <> original ->
        Forall (fun a' => target a' <> original) (_action_queue s')).
Proof.
  intros s'.
  assert (Hq : _action_queue s' = retarget original new <$> _action_queue s)
    by apply rewrite_queue_map.
  assert (Hne : new <> original ->
            Forall (fun a' => target a' <> original) (_action_queue s')).
  { intros Hneq. rewrite Hq. apply Forall_fmap, Forall_forall.
    intros a _. simpl. unfold retarget.
    destruct (decide (target a = original)); simpl; done. }
  split_and!.
  - done.
  - by rewrite Hq, length_fmap.
  - intros i a Hi. exists (retarget original new a). split.
    + by rewrite Hq, list_lookup_fmap, Hi.
    + unfold retarget. by destruct (decide (target a = original)).
  - intros front a Hfront. split.
    + unfold Combat.handle_action_queue. rewrite Hfront.
      destruct (front ++ [a]) eqn:E; [by destruct front|].
      rewrite <- E, pop_snoc. simpl. do 2 f_equal.
    + intros Hneq. specialize (Hne Hneq). rewrite Hfront in Hne.
      apply Forall_app in Hne as [_ Hne]. by inversion Hne.
  - done.
Qed.
End QueueFacts.

(** ** The queue: purging a fainted monster *)

Section Purge.
Context `{Collaborators}.

Lemma filter_all_True {A} (P : A -> Prop) `{!forall x, Decision (P x)}
    (l : list A) :
  Forall P l -> filter P l = l.
Proof.
  induction 1 as [|x l Hx _ IH]; [done|].
  by rewrite filter_cons_True, IH.
Qed.

Lemma filter_iff_in {A} (P Q : A -> Prop) `{!forall x, Decision (P x)}
    `{!forall x, Decision (Q x)} (l : list A) :
  (forall x, x ∈ l -> P x <-> Q x) -> filter P l = filter Q l.
Proof.
  induction l as [|a l IH]; intros Hiff; [done|].
  rewrite !filter_cons, IH.
  - apply decide_ext, Hiff. left.
  - intros x Hx. apply Hiff. by right.
Qed.

Lemma remove_NoDup {A} `{EqDecision A} (a : A) (q : list A) :
  NoDup q -> a ∈ q -> Py.remove a q = Ok (filter (fun b => b <> a) q).
Proof.
  induction q as [|b q IH]; intros Hnd Hin.
  - by apply elem_of_nil in Hin.
  - apply NoDup_cons in Hnd as [Hb Hnd]. simpl.
    destruct (decide (a = b)) as [->|Hne].
    + rewrite filter_cons_False by naive_solver.
      f_equal. symmetry. apply filter_all_True, Forall_forall.
      intros x Hx ->. done.
    + apply elem_of_cons in Hin as [?|Hin]; [done|].
      rewrite IH by done. simpl.
      by rewrite filter_cons_True by naive_solver.
Qed.

Lemma remove_each_NoDup (l q : list EnqueuedAction) :
  NoDup q -> NoDup l -> (forall a, a ∈ l -> a ∈ q) ->
  Combat.remove_each l q = Ok (filter (fun b => b ∉ l) q).
Proof.
  revert q. induction l as [|a l IH]; intros q Hq Hl Hsub; simpl.
  - f_equal. symmetry. apply filter_all_True, Forall_forall.
    intros x _. apply not_elem_of_nil.
  - apply NoDup_cons in Hl as [Ha Hl].
    rewrite remove_NoDup by (try done; apply Hsub; left).
    simpl. rewrite IH.
    + f_equal. rewrite list_filter_filter. apply list_filter_iff.
      intros x. rewrite not_elem_of_cons. naive_solver.
    + by apply NoDup_filter.
    + done.
    + intros b Hb. apply list_elem_of_filter. split.
      * intros ->. done.
      * apply Hsub. by right.
Qed.

Lemma elem_of_to_remove monster (q : list EnqueuedAction)
    (acc : gset EnqueuedAction) a :
  a ∈ foldl (fun acc action =>
               if Combat.refers_to monster action then acc ∪ {[action]}
               else acc) acc q
  <-> a ∈ acc \/ (a ∈ q /\ Combat.refers_to monster a = true).
Proof.
  revert acc. induction q as [|b q IH]; intros acc; simpl.
  - rewrite elem_of_nil. naive_solver.
  - rewrite IH, elem_of_cons.
    destruct (Combat.refers_to monster b) eqn:E.
    + rewrite elem_of_union, elem_of_singleton. split.
      * intros [[?| ->]|[? ?]]; auto.
      * intros [?|[[ ->|?] ?]]; auto.
    + split.
      * intros [?|[? ?]]; auto.
      * intros [?|[[ ->|?] ?]]; auto. congruence.
Qed.

Lemma purge_NoDup monster s :
  NoDup (_action_queue s) ->
  Combat.remove_monster_actions_from_queue monster s
  = Ok (set_action_queue
          (filter (fun a => Combat.refers_to monster a = false)
                  (_action_queue s)) s).
Proof.
  intros Hnd. unfold Combat.remove_monster_actions_from_queue.
  rewrite remove_each_NoDup.
  - simpl. do 2 f_equal. apply filter_iff_in. intros a Ha.
    rewrite elem_of_elements, elem_of_to_remove, elem_of_empty.
    destruct (Combat.refers_to monster a); naive_solver.
  - done.
  - apply NoDup_elements.
  - intros a. rewrite elem_of_elements, elem_of_to_remove, elem_of_empty.
    naive_solver.
Qed.

Lemma award_frame awarded_exp awarded_mon s winners :
  let s' := Combat.award awarded_exp awarded_mon s winners in
  _action_queue s' = _action_queue s
  /\ _damage_map s' = _damage_map s
  /\ npcs s' = npcs s
  /\ players s' = players s
  /\ conditions s' = conditions s
  /\ forall w, w <> winners -> monsters s' w = monsters s w.
Proof.
  unfold Combat.award. simpl.
  repeat case_bool_decide; destruct (is_trainer_battle s); simpl;
    split_and!; try done;
    intros w Hw; rewrite ?fn_lookup_insert_ne by done; done.
Qed.

Lemma award_fold_frame awarded_exp awarded_mon l s :
  let s' := foldl (Combat.award awarded_exp awarded_mon) s l in
  _action_queue s' = _action_queue s
  /\ _damage_map s' = _damage_map s
  /\ npcs s' = npcs s
  /\ players s' = players s
  /\ conditions s' = conditions s
  /\ forall w, w ∉ l -> monsters s' w = monsters s w.
Proof.
  revert s. induction l as [|x l IH]; intros s; simpl; [done|].
  destruct (IH (Combat.award awarded_exp awarded_mon s x))
    as (-> & -> & -> & -> & -> & Hm).
  destruct (award_frame awarded_exp awarded_mon s x)
    as (-> & -> & -> & -> & -> & Hm').
  split_and!; try done.
  intros w [Hw1 Hw2]%not_elem_of_cons. rewrite Hm, Hm'; done.
Qed.

Lemma mark_fainted_frame monster s :
  let s' := Combat.mark_fainted monster s in
  _action_queue s' = _action_queue s
  /\ _damage_map s' = _damage_map s
  /\ npcs s' = npcs s
  /\ players s' = players s
  /\ forall w, w <> monster -> monsters s' w = monsters s w.
Proof.
  unfold Combat.mark_fainted. simpl.
  rewrite fn_lookup_insert.
  destruct (Monster.status _); simpl; split_and!; try done;
    intros w Hw; rewrite !fn_lookup_insert_ne by done; done.
Qed.

Lemma faint_monster_queue monster s s' :
  Combat.faint_monster monster s = Ok s' ->
  _action_queue s' = _action_queue s.
Proof.
  unfold Combat.faint_monster. cbv zeta.
  destruct (mark_fainted_frame monster s) as (Hq & _).
  destruct (_damage_map _ !! monster) as [contributors|];
    [|intros [= <-]; done].
  destruct (Combat.floordiv _ _) as [q|e]; simpl; [|done].
  intros [= <-]. simpl.
  match goal with
  | |- _action_queue (foldl (Combat.award ?e ?m) ?s0 ?l) = _ =>
      destruct (award_fold_frame e m l s0) as (-> & _)
  end.
  done.
Qed.

(** X1.  On a queue that holds no action twice,
    [remove_monster_actions_from_queue] succeeds and keeps exactly the
    actions that refer to the monster neither as user nor as target, in
    their order; the faint that follows leaves the queue as the purge
    left it. *)
Theorem purge_complete_without_duplicates monster s :
  NoDup (_action_queue s) ->
  exists s1,
    Combat.remove_monster_actions_from_queue monster s = Ok s1
    /\ _action_queue s1
       = filter (fun a => Combat.refers_to monster a = false)
                (_action_queue s)
    /\ forall s2, Combat.faint_monster monster s1 = Ok s2 ->
         Forall (fun a => user a <> Some (UMonster monster)
                          /\ target a <> monster) (_action_queue s2).
Proof.
  intros Hnd. eexists. split; [by apply purge_NoDup|]. split; [done|].
  intros s2 ->%faint_monster_queue. simpl.
  apply Forall_forall. intros a [Ha _]%list_elem_of_filter.
  unfold Combat.refers_to in Ha.
  apply orb_false_iff in Ha as [Hu Ht].
  by apply bool_decide_eq_false in Hu, Ht.
Qed.
End Purge.

(** ** The queue: ordering *)

Section Sorting.
Context {A : Type} (key : A -> Z * Z).

Local Notation ltb := (fun x y => Combat.key_lt (key x) (key y)).

Lemma key_lt_false a b : Combat.key_lt b a = false <-> key_le a b.
Proof.
  unfold Combat.key_lt, key_le. destruct a as [a1 a2], b as [b1 b2]. simpl.
  rewrite orb_false_iff, andb_false_iff, !Z.ltb_ge, Z.eqb_neq. lia.
Qed.

Lemma key_lt_true a b : Combat.key_lt a b = true -> key_le a b /\ a <> b.
Proof.
  unfold Combat.key_lt, key_le. destruct a as [a1 a2], b as [b1 b2]. simpl.
  rewrite orb_true_iff, andb_true_iff, !Z.ltb_lt, Z.eqb_eq.
  intros Hlt. split; [lia|]. intros [= -> ->]. lia.
Qed.

Lemma key_le_trans a b c : key_le a b -> key_le b c -> key_le a c.
Proof. unfold key_le. lia. Qed.

Lemma insert_sorted_perm x l : insert_sorted ltb x l ≡ₚ x :: l.
Proof.
  induction l as [|y l IH]; simpl; [done|].
  destruct (Combat.key_lt (key y) (key x)); [|done].
  rewrite IH. apply Permutation_swap.
Qed.

Lemma stable_sort_perm l : stable_sort ltb l ≡ₚ l.
Proof.
  induction l as [|x l IH]; simpl; [done|].
  by rewrite insert_sorted_perm, IH.
Qed.

Lemma insert_sorted_sorted x l :
  StronglySorted (fun a b => key_le (key a) (key b)) l ->
  StronglySorted (fun a b => key_le (key a) (key b)) (insert_sorted ltb x l).
Proof.
  induction 1 as [|y l Hl IH Hy]; simpl.
  - by repeat constructor.
  - destruct (Combat.key_lt (key y) (key x)) eqn:E.
    + constructor; [done|].
      rewrite insert_sorted_perm. constructor; [|done].
      by apply key_lt_true in E as [? _].
    + apply key_lt_false in E. constructor; [by constructor|].
      constructor; [done|].
      eapply Forall_impl; [exact Hy|]. intros z Hz. simpl in Hz.
      by eapply key_le_trans.
Qed.

Lemma stable_sort_sorted l :
  StronglySorted (fun a b => key_le (key a) (key b)) (stable_sort ltb l).
Proof.
  induction l as [|x l IH]; simpl; [constructor|].
  by apply insert_sorted_sorted.
Qed.

Lemma insert_sorted_stable k x l :
  filter (fun y => key y = k) (insert_sorted ltb x l)
  = filter (fun y => key y = k) (x :: l).
Proof.
  induction l as [|y l IH]; simpl; [done|].
  destruct (Combat.key_lt (key y) (key x)) eqn:E; [|done].
  apply key_lt_true in E as [_ Hne].
  rewrite (filter_cons _ y), IH, !filter_cons.
  repeat case_decide; try done. congruence.
Qed.

Lemma stable_sort_stable k l :
  filter (fun y => key y = k) (stable_sort ltb l)
  = filter (fun y => key y = k) l.
Proof.
  induction l as [|x l IH]; simpl; [done|].
  by rewrite insert_sorted_stable, !filter_cons, IH.
Qed.

Lemma sort_reverse_perm l : sort_reverse ltb l ≡ₚ l.
Proof.
  unfold sort_reverse.
  by rewrite reverse_Permutation, stable_sort_perm, reverse_Permutation.
Qed.

Lemma sort_reverse_sorted l :
  StronglySorted (fun a b => key_le (key a) (key b))
                 (reverse (sort_reverse ltb l)).
Proof.
  unfold sort_reverse. rewrite reverse_involutive. apply stable_sort_sorted.
Qed.

Lemma sort_reverse_stable k l :
  filter (fun y => key y = k) (sort_reverse ltb l)
  = filter (fun y => key y = k) l.
Proof.
  unfold sort_reverse.
  by rewrite filter_reverse, stable_sort_stable, filter_reverse,
             reverse_involutive.
Qed.

End Sorting.

Section SortQueue.
Context `{Collaborators}.

Lemma StronglySorted_impl_in {A} (R1 R2 : relation A) (P : A -> Prop) l :
  Forall P l -> (forall x y, P x -> P y -> R1 x y -> R2 x y) ->
  StronglySorted R1 l -> StronglySorted R2 l.
Proof.
  intros HP Himpl. induction 1 as [|x l Hl IH Hx]; [constructor|].
  apply Forall_cons in HP as [Px HP]. constructor; [by apply IH|].
  rewrite Forall_forall in *. eauto.
Qed.

Lemma rank_keys_ok s q :
  Forall (fun a => is_ok (Combat.rank_action s a) = true) q ->
  exists keyed,
    mapM (fun action => k ← Combat.rank_action s action; Ok (k, action)) q
    = Ok keyed
    /\ keyed.*2 = q
    /\ Forall (fun x => Combat.rank_action s x.2 = Ok x.1) keyed.
Proof.
  induction 1 as [|a q Ha _ (keyed & Hm & Hq & Hk)].
  - by exists [].
  - destruct (Combat.rank_action s a) as [k|] eqn:E; [|done].
    exists ((k, a) :: keyed). split_and!.
    + cbn. rewrite E. cbn. by rewrite Hm.
    + cbn. by rewrite Hq.
    + by constructor.
Qed.

Lemma filter_rank_keyed s k (keyed : list (Z * Z * EnqueuedAction)) :
  Forall (fun x => Combat.rank_action s x.2 = Ok x.1) keyed ->
  filter (fun a => Combat.rank_action s a = Ok k) keyed.*2
  = (filter (fun x => x.1 = k) keyed).*2.
Proof.
  induction 1 as [|x l Hx _ IH]; [done|].
  rewrite fmap_cons, !filter_cons, IH, Hx.
  repeat case_decide; simplify_eq; done.
Qed.

(** [rank_action] on an action with a payload. *)
Lemma rank_action_payload s a p k :
  technique a = Some p -> Combat.rank_action s a = Ok k ->
  index (Combat.payload_sort s p) Combat.sort_order = Ok k.1
  /\ ((Combat.payload_sort s p = "meta" \/ Combat.payload_sort s p = "potion")
      -> k.2 = 0)
  /\ (Combat.payload_sort s p <> "meta" ->
      Combat.payload_sort s p <> "potion" ->
      exists u, user a = Some u /\ k.2 = speed_test s u a).
Proof.
  unfold Combat.rank_action. intros ->.
  destruct (index _ _) as [i|]; [|done]. cbn.
  repeat case_decide.
  - intros [= <-]. naive_solver.
  - intros [= <-]. naive_solver.
  - destruct (user a) as [u|]; [|done]. intros [= <-]. naive_solver.
Qed.

(** C4 (amended).  When every queued action has a rank,
    [sort_action_queue] succeeds, changes nothing but the queue, and
    permutes it; the executor pops from the end of the sorted queue, and
    in the order of execution every action has a rank that is not above
    the rank of any action executed after it: an earlier category of
    [meta, item, utility, potion, food, heal, damage] first and, within a
    category, the LOWER speed key first; actions of equal rank keep their
    relative enqueue order in the sorted queue. *)
Theorem sort_action_queue_order (s : CombatState) :
  Forall (fun a => is_ok (Combat.rank_action s a) = true) (_action_queue s) ->
  exists s',
    Combat.sort_action_queue s = Ok s'
    /\ s' = set_action_queue (_action_queue s') s
    /\ _action_queue s' ≡ₚ _action_queue s
    /\ StronglySorted (executes_no_later s) (reverse (_action_queue s'))
    /\ (forall k,
          filter (fun a => Combat.rank_action s a = Ok k) (_action_queue s')
          = filter (fun a => Combat.rank_action s a = Ok k) (_action_queue s))
    /\ (forall front a, _action_queue s' = front ++ [a] ->
          Combat.handle_action_queue s'
          = Ok (Combat.perform_action (user a) (technique a) (target a)
                  (set_action_queue front s))).
Proof.
  intros Hok. destruct (rank_keys_ok s _ Hok) as (keyed & Hm & Hq & Hk).
  unfold Combat.sort_action_queue. rewrite Hm.
  set (sorted := sort_reverse (fun x y => Combat.key_lt x.1 y.1) keyed).
  exists (set_action_queue sorted.*2 s).
  assert (Hq' : _action_queue (set_action_queue sorted.*2 s) = sorted.*2)
    by done.
  split; [done|]. rewrite Hq'. clear Hq'.
  assert (Hperm : sorted ≡ₚ keyed) by apply (sort_reverse_perm fst).
  assert (Hk' : Forall (fun x => Combat.rank_action s x.2 = Ok x.1) sorted)
    by (by rewrite Hperm).
  split_and!.
  - done.
  - by rewrite Hperm, Hq.
  - rewrite <- fmap_reverse.
    apply (StronglySorted_fmap _ (fun x y : Z * Z * EnqueuedAction =>
                                    executes_no_later s x.2 y.2));
      [done|].
    eapply (StronglySorted_impl_in _ _ _ _ (proj2 (Forall_reverse _ _) Hk'));
      [|apply (sort_reverse_sorted fst)].
    intros x y Hx Hy Hle ka kb. rewrite Hx, Hy. by intros [= <-] [= <-].
  - intros k. rewrite <- Hq, !filter_rank_keyed by done.
    f_equal. apply (sort_reverse_stable fst).
  - intros front a Hfront. unfold Combat.handle_action_queue.
    change (_action_queue (set_action_queue sorted.*2 s)) with sorted.*2.
    rewrite Hfront. destruct (front ++ [a]) eqn:E; [by destruct front|].
    rewrite <- E, pop_snoc. done.
Qed.
End SortQueue.
Section QueueExamples.
Import Scenario.

(** C4, counterexample.  Two damaging moves, queued by the monsters 5
    and 10, whose speed keys are 5 and 10: the sorted queue ends with the
    move of monster 5, which is popped and performed first, before the
    move of the faster monster 10. *)
Lemma slower_user_executes_first :
  let s := battle (a_monster 5 20 20) (a_monster 5 20 20) false
                  [tackle 5 1; tackle 10 1] in
  let s' := set_action_queue [tackle 10 1; tackle 5 1] s in
  Combat.rank_action (H := simple) s (tackle 5 1) = Ok (6, 5)
  /\ Combat.rank_action (H := simple) s (tackle 10 1) = Ok (6, 10)
  /\ Combat.sort_action_queue (H := simple) s = Ok s'
  /\ Combat.handle_action_queue (H := simple) s'
     = Ok (Combat.perform_action (H := simple)
             (Some (UMonster 5)) (Some (PTechnique 1)) 1
             (set_action_queue [tackle 10 1] s')).
Proof. intros s s'. split_and!; reflexivity. Qed.

(** C4, witness. *)
Lemma sort_action_queue_order_example :
  let s := battle (a_monster 5 20 20) (a_monster 5 20 20) false
                  [tackle 5 1; tackle 10 1] in
  exists s',
    Combat.sort_action_queue (H := simple) s = Ok s'
    /\ _action_queue s' ≡ₚ [tackle 5 1; tackle 10 1]
    /\ StronglySorted (executes_no_later (H := simple) s)
                      (reverse (_action_queue s')).
Proof.
  intros s.
  destruct (sort_action_queue_order (H := simple) s)
    as (s' & Hs & _ & Hp & Hsorted & _).
  - repeat constructor.
  - exists s'. split_and!; [exact Hs|exact Hp|exact Hsorted].
Defined.

(** C9, witness: monster 2 is swapped for monster 3, and the move that
    targeted 2 is performed on 3. *)
Lemma rewrite_action_queue_target_example :
  let s := battle (a_monster 5 20 20) (a_monster 5 20 20) false
                  [tackle 2 1; tackle 1 2] in
  let s' := Combat.rewrite_action_queue_target 2 3 s in
  _action_queue s' = [tackle 2 1; tackle 1 3]
  /\ Combat.handle_action_queue (H := simple) s'
     = Ok (Combat.perform_action (H := simple)
             (Some (UMonster 1)) (Some (PTechnique 1)) 3
             (set_action_queue [tackle 2 1] s)).
Proof.
  intros s s'.
  destruct (rewrite_action_queue_target_retargets (H := simple) 2 3 s)
    as (_ & _ & _ & Hrun & _).
  split; [reflexivity|].
  apply (Hrun [tackle 2 1] (tackle 1 3)). reflexivity.
Defined.

(** C6, the failing input.  Monster 1 queued the same move twice
    against monster 2, which is at zero health.  The [set] of actions to
    remove has one member and [list.remove] takes away its first
    occurrence only: after the faint of monster 2 is processed, the queue
    still holds an action that targets it. *)
Example purge_leaves_duplicate :
  Monster.current_hp (monsters doubled_battle 2) <= 0
  /\ _action_queue doubled_battle = [tackle 1 2; tackle 1 2]
  /\ (exists s', Combat.remove_monster_actions_from_queue 2 doubled_battle
                 = Ok s'
                 /\ _action_queue s' = [tackle 1 2])
  /\ exists s', Combat.check_monster_hp (H := simple) doubled_battle 2 = Ok s'
                /\ Combat.has_status s' 2 "faint" = true
                /\ _action_queue s' = [tackle 1 2]
                /\ target (tackle 1 2) = 2%positive.
Proof. vm_compute. split_and!; try done; by eexists. Qed.

(** X1, witness. *)
Lemma purge_complete_without_duplicates_example :
  let s := battle (a_monster 5 20 20) (a_monster 5 0 20) false
                  [tackle 1 2; tackle 2 1; tackle 3 1] in
  exists s1,
    Combat.remove_monster_actions_from_queue 2 s = Ok s1
    /\ _action_queue s1 = [tackle 3 1].
Proof.
  intros s.
  destruct (purge_complete_without_duplicates (H := simple) 2 s)
    as (s1 & Hs1 & Hq & _).
  - vm_compute. repeat constructor; set_solver.
  - exists s1. split; [exact Hs1|]. rewrite Hq. reflexivity.
Defined.
End QueueExamples.

(** ** Fainting: experience and the damage ledger *)

Section Experience.
Context `{Collaborators}.

Lemma mark_fainted_monster monster s :
  monsters (Combat.mark_fainted monster s) monster
  = Monster.set_status [next_condition s]
      (Monster.set_current_hp 0 (monsters s monster)).
Proof.
  unfold Combat.mark_fainted. simpl. rewrite !fn_lookup_insert.
  destruct (Monster.status _); simpl; by rewrite fn_lookup_insert.
Qed.

Lemma award_winner awarded_exp awarded_mon s winners :
  monsters (Combat.award awarded_exp awarded_mon s winners) winners
  = rewarded s awarded_exp winners (monsters s winners).
Proof.
  unfold Combat.award, rewarded. simpl. rewrite !fn_lookup_insert.
  destruct (is_trainer_battle s); simpl;
    repeat case_bool_decide; simpl; rewrite ?fn_lookup_insert; done.
Qed.

Lemma award_fold_winner awarded_exp awarded_mon l s w :
  NoDup l -> w ∈ l ->
  monsters (foldl (Combat.award awarded_exp awarded_mon) s l) w
  = rewarded s awarded_exp w (monsters s w).
Proof.
  revert s. induction l as [|x l IH]; intros s Hnd Hw.
  - by apply elem_of_nil in Hw.
  - apply NoDup_cons in Hnd as [Hx Hnd]. simpl.
    destruct (decide (w = x)) as [->|Hne].
    + destruct (award_fold_frame awarded_exp awarded_mon l
                  (Combat.award awarded_exp awarded_mon s x))
        as (_ & _ & _ & _ & _ & ->); [|done].
      apply award_winner.
    + apply elem_of_cons in Hw as [?|Hw]; [done|].
      rewrite IH by done.
      destruct (award_frame awarded_exp awarded_mon s x)
        as (_ & _ & Hn & Hp & _ & Hm).
      unfold rewarded. by rewrite Hn, Hp, Hm.
Qed.

(** C5.  When a monster with an entry in the damage ledger faints (its
    level and the number of contributors not zero), [faint_monster]
    succeeds; every contributor of the entry is given exactly
    [floor(total_experience / (level * contributors)) *
    experience_modifier], the same amount for each; the other monsters
    are as the fainting left them; and the entry of the target is deleted
    from the ledger. *)
Theorem faint_monster_awards_experience (monster : ref)
    (contributors : gset ref) (s : CombatState) :
  _damage_map s !! monster = Some contributors ->
  Monster.level (monsters s monster) * Z.of_nat (size contributors) <> 0 ->
  let amount := awarded_experience (monsters s monster) (size contributors) in
  let s0 := Combat.mark_fainted monster s in
  exists s',
    Combat.faint_monster monster s = Ok s'
    /\ (forall w, w ∈ contributors ->
          monsters s' w = rewarded s amount w (monsters s0 w))
    /\ (forall w, w ∉ contributors -> monsters s' w = monsters s0 w)
    /\ _damage_map s' !! monster = None
    /\ _damage_map s' = delete monster (_damage_map s).
Proof.
  intros Hentry Hnz amount s0.
  destruct (mark_fainted_frame monster s) as (_ & Hd & Hn & Hp & _).
  fold s0 in Hd, Hn, Hp.
  assert (Hmon : monsters s0 monster
                 = Monster.set_status [next_condition s]
                     (Monster.set_current_hp 0 (monsters s monster)))
    by apply mark_fainted_monster.
  unfold Combat.faint_monster. cbv zeta. fold s0.
  rewrite Hd, Hentry, Hmon. simpl.
  unfold Combat.floordiv. rewrite decide_False by done. cbn.
  eexists. split; [done|].
  match goal with
  | |- context [foldl (Combat.award ?e ?m) s0 ?l] =>
      destruct (award_fold_frame e m l s0) as (_ & Hd' & _ & _ & _ & Hm');
      pose proof (fun w => award_fold_winner e m l s0 w
                             (NoDup_elements contributors)) as Hw'
  end.
  split_and!.
  - intros w Hw. simpl. rewrite Hw' by (by apply elem_of_elements).
    unfold rewarded. by rewrite Hn, Hp.
  - intros w Hw. simpl. apply Hm'. by rewrite elem_of_elements.
  - simpl. apply lookup_delete_eq.
  - simpl. by rewrite Hd', Hd.
Qed.
End Experience.

Section ExperienceExample.
Import Scenario.

(** C5, witness: total experience 1000, level 10, modifier 1 and two
    contributors give 50 to each, and the entry is gone. *)
Lemma faint_monster_awards_experience_example :
  exists s',
    @Combat.faint_monster simple 2 ledger_battle = Ok s'
    /\ Monster.total_experience (monsters s' 1)
       = Monster.total_experience (monsters ledger_battle 1) + 50
    /\ Monster.total_experience (monsters s' 3)
       = Monster.total_experience (monsters ledger_battle 3) + 50
    /\ _damage_map s' !! 2%positive = None.
Proof.
  destruct (@faint_monster_awards_experience simple 2 {[ 1%positive; 3%positive ]}
              ledger_battle) as (s' & Hs & Hw & _ & Hd & _).
  - reflexivity.
  - vm_compute. discriminate.
  - exists s'. split; [exact Hs|].
    rewrite !Hw by set_solver. split_and!; [reflexivity|reflexivity|exact Hd].
Defined.

End ExperienceExample.

(** ** The phase machine *)

Section Phase.

Lemma only_positions_written_refl s : only_positions_written s s.
Proof. split; [by destruct s|]. intros p. by left. Qed.

Lemma wait_for_positions_frame todo s :
  only_positions_written s (Combat.wait_for_positions todo s).2.
Proof.
  assert (Hgen : forall s0, only_positions_written s s0 ->
            only_positions_written s (Combat.wait_for_positions todo s0).2).
  { induction todo as [|player todo IH]; intros s0 Hs0; simpl; [done|].
    destruct (Combat.defeated s0 player); [by apply IH|].
    set (s1 := if bool_decide _ then _ else s0).
    assert (Hs1 : only_positions_written s s1).
    { subst s1. case_bool_decide; [|done].
      destruct Hs0 as [Heq Hn]. split.
      - rewrite Heq at 1. done.
      - intros p. simpl. destruct (decide (player = p)) as [->|Hne].
        + rewrite fn_lookup_insert. right.
          destruct (Hn p) as [->| ->]; done.
        + rewrite fn_lookup_insert_ne by done. apply Hn. }
    case_bool_decide; [done|by apply IH]. }
  apply Hgen, only_positions_written_refl.
Qed.

(** X2.  [determine_phase] leaves the combat state as it found it in
    every phase but the housekeeping phase, where it writes at most
    [max_position := 1] on trainers. *)
Theorem determine_phase_frame (phase : option CombatPhase) (s : CombatState) :
  match phase with
  | Some housekeeping_phase =>
      only_positions_written s (Combat.determine_phase phase s).2
  | _ => (Combat.determine_phase phase s).2 = s
  end.
Proof.
  destruct phase as [[]|]; try apply wait_for_positions_frame; simpl;
    try done;
    try (repeat case_bool_decide; done);
    try (by destruct (_action_queue s));
    try (repeat case_bool_decide; by destruct (_run s)).
Qed.
End Phase.

Section PhaseExample.
Import Scenario.


End PhaseExample.

(** ** Damage techniques *)

Section Damage.
Context `{Collaborators}.

Lemma compare_int_float_eq_unique i j x :
  compare_int_float i x = Some Eq -> compare_int_float j x = Some Eq -> i = j.
Proof.
  destruct x as [sg|sg| |sg m e]; simpl; try done.
  - intros [= ->%Z.compare_eq] [= ->%Z.compare_eq]. done.
  - by destruct sg.
  - destruct (0 <=? e) eqn:E.
    + intros [= ->%Z.compare_eq] [= ->%Z.compare_eq]. done.
    + intros [= Hi%Z.compare_eq] [= Hj%Z.compare_eq].
      assert (0 < 2 ^ (- e)) by (apply Z.pow_pos_nonneg; lia).
      nia.
Qed.

Lemma SFcompare_finite_eq a e (m : float) :
  SFcompare (S754_finite false a e) m = Some Eq -> m = S754_finite false a e.
Proof.
  destruct m as [sg|sg| |sg b e']; simpl; try done.
  - by destruct sg.
  - destruct sg; [done|].
    destruct (e ?= e') eqn:Ee; try done. apply Z.compare_eq in Ee as <-.
    rewrite Pos.compare_cont_spec. simpl.
    destruct (a ?= b)%positive eqn:Em; try done.
    by apply Pos.compare_eq in Em as <-.
Qed.

Lemma eq_int_float_true i m :
  operator.eq (Int i) (Float m) = true -> compare_int_float i m = Some Eq.
Proof.
  unfold operator.eq, compare. by destruct (compare_int_float i m) as [[]|].
Qed.

Lemma eq_float_float_true a e m :
  operator.eq (Float (S754_finite false a e)) (Float m) = true ->
  m = S754_finite false a e.
Proof.
  unfold operator.eq, compare. intros Hc. apply SFcompare_finite_eq.
  by destruct (SFcompare _ m) as [[]|].
Qed.

Lemma dict_get_MULT_MAP (m : float) (key : string) :
  Combat.dict_get Combat.MULT_MAP (Float m) = Some key
  <-> (operator.eq (Int 4) (Float m) = true /\ key = "attack_very_effective")
      \/ (operator.eq (Int 2) (Float m) = true /\ key = "attack_effective")
      \/ (operator.eq (Float f_0_5) (Float m) = true /\ key = "attack_resisted")
      \/ (operator.eq (Float f_0_25) (Float m) = true /\ key = "attack_weak").
Proof.
  unfold Combat.dict_get, Combat.MULT_MAP. simpl.
  destruct (operator.eq (Int 4) (Float m)) eqn:E4;
    [|destruct (operator.eq (Int 2) (Float m)) eqn:E2;
      [|destruct (operator.eq (Float f_0_5) (Float m)) eqn:E5;
        [|destruct (operator.eq (Float f_0_25) (Float m)) eqn:E25]]];
    simpl; (split; [intros [= <-]; auto 6|]);
    intros [[E ->]|[[E ->]|[[E ->]|[E ->]]]]; try done; exfalso;
    repeat match goal with
    | E : operator.eq (Float _) (Float m) = true |- _ =>
        apply eq_float_float_true in E; subst m
    end;
    try (vm_compute in E4; done); try (vm_compute in E2; done);
    try (vm_compute in E5; done); try (vm_compute in E; done).
  all: apply eq_int_float_true in E4, E.
  all: by pose proof (compare_int_float_eq_unique _ _ _ E4 E).
Qed.

(** C7.  For every application of the damage effect with the round's
    draw in [random_tech_hit]: the technique hits if and only if its
    accuracy is >= the draw; on a hit the damage of the formula is
    subtracted from the target's health and [should_tackle] tells whether
    the damage is not zero; on a miss the damage is 0, [should_tackle] and
    [success] are false, no monster changes and no message bucket is
    looked up successfully.  [MULT_MAP] maps a multiplier to a bucket
    exactly at 4 (very effective), 2 (effective), 0.5 (resisted) and
    0.25 (weak), and to none at 1. *)
Theorem local_damage_hit_and_buckets (player tech user target : ref)
    (s : CombatState) (value : float) :
  NPC.game_variables (npcs s player) !! "random_tech_hit"
  = Some (GFloat value) ->
  (exists r s',
     LocalDamage.apply player tech user target s = Ok (r, s')
     /\ if operator.ge (Float (Technique.accuracy (techniques s tech)))
                 (Float value)
        then
          let tech' := advance_counter_success
                         (Technique.set_hit true (techniques s tech)) in
          techniques s' tech = tech'
          /\ damage r
             = (if decide (Technique.slug tech' = "panjandrum")
                then damage_full_hp (monsters s target) 4
                else (simple_damage_calculate tech' (monsters s user)
                        (monsters s target)).1)
          /\ element_multiplier r
             = (simple_damage_calculate tech' (monsters s user)
                  (monsters s target)).2
          /\ Monster.current_hp (monsters s' target)
             = Monster.current_hp (monsters s target) - damage r
          /\ should_tackle r = bool_decide (damage r <> 0)
        else
          Technique.hit (techniques s' tech) = false
          /\ damage r = 0
          /\ should_tackle r = false
          /\ success r = false
          /\ monsters s' = monsters s
          /\ Combat.element_damage_key s' tech r = None)
  /\ (forall m key,
        Combat.dict_get Combat.MULT_MAP (Float m) = Some key
        <-> (operator.eq (Int 4) (Float m) = true
             /\ key = "attack_very_effective")
            \/ (operator.eq (Int 2) (Float m) = true /\ key = "attack_effective")
            \/ (operator.eq (Float f_0_5) (Float m) = true
                /\ key = "attack_resisted")
            \/ (operator.eq (Float f_0_25) (Float m) = true
                /\ key = "attack_weak"))
  /\ Combat.dict_get Combat.MULT_MAP (Float f_4)
     = Some "attack_very_effective"
  /\ Combat.dict_get Combat.MULT_MAP (Float f_2) = Some "attack_effective"
  /\ Combat.dict_get Combat.MULT_MAP (Float f_0_5) = Some "attack_resisted"
  /\ Combat.dict_get Combat.MULT_MAP (Float f_0_25) = Some "attack_weak"
  /\ Combat.dict_get Combat.MULT_MAP (Float f_1_0) = None.
Proof.
  intros Hvar. split; [|split; [apply dict_get_MULT_MAP|by vm_compute]].
  unfold LocalDamage.apply. rewrite Hvar. cbn.
  destruct (operator.ge _ _).
  - destruct (simple_damage_calculate _ _ _) as [dmg mult] eqn:Hcalc.
    do 2 eexists. split; [done|]. cbn.
    rewrite !fn_lookup_insert in *. rewrite Hcalc. cbn.
    split_and!; try done.
  - do 2 eexists. split; [done|]. cbn.
    rewrite !fn_lookup_insert. split_and!; try done.
    unfold Combat.element_damage_key. cbn. by case_decide.
Qed.
End Damage.

Section DamageExample.
Import Scenario.

(** C7, witness: accuracy 1 against the draw 0.5 is a hit of 10 with
    multiplier 2. *)
Lemma local_damage_hit_and_buckets_example :
  exists r s',
    LocalDamage.apply (H := simple) 1 1 1 2 drawn_battle = Ok (r, s')
    /\ damage r = 10
    /\ Monster.current_hp (monsters s' 2) = 10
    /\ should_tackle r = true
    /\ Combat.element_damage_key s' 1 r = Some "attack_effective".
Proof.
  destruct (local_damage_hit_and_buckets (H := simple) 1 1 1 2 drawn_battle
              f_0_5 eq_refl) as [(r & s' & Happly & Hhit) _].
  exists r, s'. split; [exact Happly|].
  vm_compute in Happly. injection Happly as <- <-.
  vm_compute. done.
Defined.
End DamageExample.


(** ** The decision maker: selecting a technique *)

Section Selection.
Context `{Collaborators}.

Lemma choice_ok {A} (l : list A) :
  l <> [] ->
  exists x, Py.choice randbelow l = Ok x
            /\ l !! randbelow (length l) = Some x /\ x ∈ l.
Proof.
  intros Hl. unfold Py.choice.
  destruct (l !! randbelow (length l)) as [x|] eqn:E.
  - exists x. split_and!; try done. by eapply list_elem_of_lookup_2.
  - apply lookup_ge_None in E.
    pose proof (randbelow_lt (length l)). destruct l; [done|]. simpl in *. lia.
Qed.

Lemma elem_of_candidate_actions self s mov opponent :
  (mov, opponent) ∈ AI.candidate_actions self s
  <-> mov ∈ slice_from_neg
              (Monster.max_moves (monsters s (AI.monster self)))
              (Monster.moves (monsters s (AI.monster self)))
      /\ Technique.next_use (techniques s mov) <= 0
      /\ opponent ∈ AI.opponents self
      /\ validate s mov opponent = true.
Proof.
  unfold AI.candidate_actions. rewrite list_elem_of_bind. split.
  - intros (mov' & Hin & Hmov'). case_bool_decide; [|by apply elem_of_nil in Hin].
    apply list_elem_of_bind in Hin as (opp' & Hin & Hopp').
    destruct (validate s mov' opp') eqn:E; [|by apply elem_of_nil in Hin].
    apply list_elem_of_singleton in Hin as [= -> ->]. done.
  - intros (Hmov & Hnext & Hopp & Hval). exists mov. split; [|done].
    rewrite bool_decide_eq_true_2 by done.
    apply list_elem_of_bind. exists opponent. split; [|done].
    rewrite Hval. by apply list_elem_of_singleton.
Qed.

Lemma candidate_actions_nil self s :
  AI.candidate_actions self s = []
  <-> forall mov,
        mov ∈ slice_from_neg
                (Monster.max_moves (monsters s (AI.monster self)))
                (Monster.moves (monsters s (AI.monster self))) ->
        0 < Technique.next_use (techniques s mov)
        \/ forall opponent, opponent ∈ AI.opponents self ->
                            validate s mov opponent = false.
Proof.
  split.
  - intros Hnil mov Hmov.
    destruct (decide (0 < Technique.next_use (techniques s mov))); [by left|].
    right. intros opponent Hopp.
    destruct (validate s mov opponent) eqn:E; [|done].
    assert ((mov, opponent) ∈ AI.candidate_actions self s) as Hin
      by (apply elem_of_candidate_actions; split_and!; try done; lia).
    rewrite Hnil in Hin. by apply elem_of_nil in Hin.
  - intros Hall. apply elem_of_nil_inv. intros [mov opponent] Hin.
    apply elem_of_candidate_actions in Hin as (Hmov & Hnext & Hopp & Hval).
    destruct (Hall mov Hmov) as [?|Hno]; [lia|].
    rewrite Hno in Hval; done.
Qed.

(** C8 (amended).  The candidate set is empty exactly when every move of
    the slice [moves[-max_moves:]] has remaining recharge or validates
    against no opponent.  Then, provided at least one opposing monster is
    in play, the selection returns a freshly loaded skip technique and
    the opponent at the generator's draw, without an error and without
    another change to the state.  When the candidate set is not empty,
    the selection returns the candidate at the generator's draw and
    leaves the state as it was. *)
Theorem track_next_use_selection (self : AI.t) (s : CombatState) :
  (AI.candidate_actions self s = []
   <-> forall mov,
         mov ∈ slice_from_neg
                 (Monster.max_moves (monsters s (AI.monster self)))
                 (Monster.moves (monsters s (AI.monster self))) ->
         0 < Technique.next_use (techniques s mov)
         \/ forall opponent, opponent ∈ AI.opponents self ->
                             validate s mov opponent = false)
  /\ (AI.candidate_actions self s = [] -> AI.opponents self <> [] ->
      exists skip target s',
        AI.track_next_use self s = Ok (skip, target, s')
        /\ Technique.slug (techniques s' skip) = "skip"
        /\ AI.opponents self !! randbelow (length (AI.opponents self))
           = Some target
        /\ target ∈ AI.opponents self
        /\ s' = set_techniques (fun _ => techniques s') Pos.succ s
        /\ forall t, t <> skip -> techniques s' t = techniques s t)
  /\ (AI.candidate_actions self s <> [] ->
      exists technique target,
        AI.track_next_use self s = Ok (technique, target, s)
        /\ AI.candidate_actions self s
             !! randbelow (length (AI.candidate_actions self s))
           = Some (technique, target)
        /\ (technique, target) ∈ AI.candidate_actions self s).
Proof.
  split; [apply candidate_actions_nil|]. split.
  - intros Hnil Hopp. unfold AI.track_next_use. rewrite Hnil.
    destruct (choice_ok (AI.opponents self) Hopp) as (target & -> & Hl & Hin).
    do 3 eexists. split; [done|]. cbn.
    rewrite fn_lookup_insert, technique_db_slug. split_and!; try done.
    intros t Ht. by rewrite fn_lookup_insert_ne.
  - intros Hne. unfold AI.track_next_use.
    destruct (choice_ok _ Hne) as ([technique target] & Hc & Hl & Hin).
    exists technique, target.
    destruct (AI.candidate_actions self s) eqn:E; [done|].
    rewrite Hc. done.
Qed.
End Selection.

Section SelectionExample.
Import Scenario.

(** C8, counterexample.  With no opposing monster in play every move
    validates against no opponent, the candidate set is empty, and the
    selection raises [IndexError]. *)
Lemma track_next_use_without_opponents :
  let self := {| AI.human := 1; AI.user := 2; AI.monster := 2;
                 AI.opponents := [] |} in
  let s := battle (a_monster 5 20 20) (a_monster 5 20 20) true [] in
  AI.candidate_actions (H := simple) self s = []
  /\ AI.track_next_use (H := simple) self s = Raise IndexError.
Proof. split; reflexivity. Qed.
End SelectionExample.


(** ** The decision maker: the potion gate *)

Section Gate.
Context `{Collaborators}.

Lemma need_potion_unfold self s :
  AI.need_potion self s
  = let m := monsters s (AI.monster self) in
    if bool_decide (Monster.current_hp m > 1) then
      r ← (x ← mul_int_float (Monster.hp m) f_0_15; Py.round x);
      Ok (bool_decide (Monster.current_hp m <= r))
    else Ok false.
Proof.
  unfold AI.need_potion. cbv zeta. case_bool_decide; [|done].
  by destruct (mul_int_float _ _).
Qed.

Lemma round_half_even_bounds n :
  20 * round_half_even n 20 - 10 <= n <= 20 * round_half_even n 20 + 10.
Proof.
  unfold round_half_even.
  pose proof (Z.div_mod n 20 ltac:(lia)).
  pose proof (Z.mod_pos_bound n 20 ltac:(lia)).
  destruct (2 * (n `mod` 20) ?= 20) eqn:E; [destruct (Z.even _)| |].
  - apply Z.compare_eq in E. lia.
  - apply Z.compare_eq in E. lia.
  - rewrite Z.compare_lt_iff in E. lia.
  - rewrite Z.compare_gt_iff in E. lia.
Qed.

(** C3 (amended).  For a maximum health below [2 ^ 51], the potion
    gate holds exactly for a current health [h] with
    [1 < h <= round(max_hp * 0.15)], the nearest integer to
    [3 * max_hp / 20] with ties to even.  So it is shut at health 0 and
    at health 1; it is open at exactly 15% of the maximum health; and at
    16% it is shut from a maximum health of 75 on. *)
Theorem need_potion_gate (self : AI.t) (s : CombatState) :
  let m := monsters s (AI.monster self) in
  0 <= Monster.hp m < 2 ^ 51 ->
  AI.need_potion self s
  = Ok (bool_decide (1 < Monster.current_hp m
                     <= round_half_even (3 * Monster.hp m) 20))
  /\ (Monster.current_hp m <= 1 -> AI.need_potion self s = Ok false)
  /\ (0 < Monster.current_hp m ->
      20 * Monster.current_hp m = 3 * Monster.hp m ->
      AI.need_potion self s = Ok true)
  /\ (75 <= Monster.hp m ->
      100 * Monster.current_hp m = 16 * Monster.hp m ->
      AI.need_potion self s = Ok false).
Proof.
  intros m Hhp.
  assert (Hgate : AI.need_potion self s
            = Ok (bool_decide (1 < Monster.current_hp m
                               <= round_half_even (3 * Monster.hp m) 20))).
  { rewrite need_potion_unfold. cbv zeta. fold m.
    rewrite potion_threshold by done. cbn.
    repeat case_bool_decide; try done; lia. }
  pose proof (round_half_even_bounds (3 * Monster.hp m)) as Hr.
  split_and!; [done|..]; rewrite Hgate; intros; f_equal.
  - apply bool_decide_eq_false_2. lia.
  - apply bool_decide_eq_true_2.
    assert (round_half_even (3 * Monster.hp m) 20 = Monster.current_hp m)
      as ->; [|lia].
    replace (3 * Monster.hp m) with (Monster.current_hp m * 20) by lia.
    unfold round_half_even. rewrite Z.div_mul, Z.mod_mul by lia. done.
  - apply bool_decide_eq_false_2. lia.
Qed.
End Gate.

(** ** The decision maker: trainer battles *)

Section Trainer.
Context `{Collaborators}.

Lemma foldl_max_spec (l : list Z) (x : Z) :
  (foldl Z.max x l = x \/ foldl Z.max x l ∈ l)
  /\ x <= foldl Z.max x l
  /\ forall y, y ∈ l -> y <= foldl Z.max x l.
Proof.
  revert x. induction l as [|a l IH]; intros x; simpl.
  - split_and!; [by left|lia|]. intros y Hy. by apply elem_of_nil in Hy.
  - destruct (IH (Z.max x a)) as (Hin & Hle & Hall). split_and!.
    + destruct Hin as [Heq|Hin]; [|right; by right].
      rewrite Heq. destruct (Z.max_spec x a) as [[_ ->]|[_ ->]];
        [right; left|left]; done.
    + lia.
    + intros y [->|Hy]%elem_of_cons; [lia|by apply Hall].
Qed.

Lemma py_max_spec (l : list Z) :
  l <> [] ->
  exists top, AI.py_max l = Ok top /\ top ∈ l /\ forall y, y ∈ l -> y <= top.
Proof.
  destruct l as [|x l]; [done|]. intros _. simpl.
  destruct (foldl_max_spec l x) as (Hin & Hle & Hall).
  eexists. split_and!; [done| |].
  - destruct Hin as [->|Hin]; [left|by right].
  - intros y [->|Hy]%elem_of_cons; [done|by apply Hall].
Qed.

Lemma mapM_ok {A B} (f : A -> result B) (g : A -> B) (l : list A) :
  (forall x, x ∈ l -> f x = Ok (g x)) -> mapM f l = Ok (g <$> l).
Proof.
  induction l as [|a l IH]; intros Hf; [done|].
  cbn. rewrite Hf by left. cbn. rewrite IH; [done|].
  intros x Hx. apply Hf. by right.
Qed.

Lemma check_strongest_true self s :
  AI.monster self ∈ NPC.monsters (npcs s (AI.user self)) ->
  (forall m, m ∈ NPC.monsters (npcs s (AI.user self)) ->
             Monster.level (monsters s m)
             <= Monster.level (monsters s (AI.monster self))) ->
  AI.check_strongest self s = Ok true.
Proof.
  intros Hin Htop. unfold AI.check_strongest. cbv zeta.
  set (roster := NPC.monsters (npcs s (AI.user self))) in *.
  set (level := fun m => Monster.level (monsters s m)).
  destruct (py_max_spec (level <$> roster)) as (top & Hmax & Htopin & Hall).
  { intros Hnil%fmap_nil_inv. rewrite Hnil in Hin. by apply elem_of_nil in Hin. }
  assert (Heq : top = level (AI.monster self)).
  { apply list_elem_of_fmap in Htopin as (m & -> & Hm).
    apply Z.le_antisymm; [by apply Htop|].
    apply Hall, list_elem_of_fmap. by exists (AI.monster self). }
  rewrite (mapM_ok _ (fun m => (m, bool_decide (level m = top))))
    by (intros; by rewrite Hmax).
  cbn.
  destruct (filter _ _) as [|[strong b] rest] eqn:E.
  - exfalso. eapply (filter_nil_not_elem_of _ _ (AI.monster self, true) E);
      [done|].
    apply list_elem_of_fmap. exists (AI.monster self). split; [|done].
    by rewrite bool_decide_eq_true_2.
  - assert (Hs : (strong, b) ∈ filter (fun x : ref * bool => x.2 = true)
                    ((fun m => (m, bool_decide (level m = top))) <$> roster))
      by (rewrite E; left).
    apply list_elem_of_filter in Hs as [Hb Hs]. simpl in Hb. subst b.
    apply list_elem_of_fmap in Hs as (m & [= -> Hm] & _).
    symmetry in Hm. apply bool_decide_eq_true in Hm.
    f_equal. apply bool_decide_eq_true_2. unfold level in *. congruence.
Qed.

Lemma use_potions_needed self s todo :
  AI.need_potion self s = Ok true ->
  exists s',
    AI.use_potions self todo s = Ok s'
    /\ _action_queue s'
       = _action_queue s
         ++ (item_action self
               <$> filter (fun itm => Item.category (items s itm) = potion)
                          todo)
    /\ monsters s' = monsters s /\ techniques s' = techniques s
    /\ next_technique s' = next_technique s
    /\ npcs s' = npcs s /\ items s' = items s.
Proof.
  revert s. induction todo as [|itm todo IH]; intros s Hneed.
  - exists s. simpl. by rewrite app_nil_r.
  - simpl. rewrite filter_cons. case_decide as Hcat.
    + rewrite Hneed. cbn.
      destruct (IH (AI.action_item self itm s)) as (s' & -> & Hq & Hrest).
      { exact Hneed. }
      exists s'. split; [done|]. rewrite Hq. simpl.
      rewrite <- app_assoc. done.
    + by apply IH.
Qed.


End Trainer.

Section TrainerExample.
Import Scenario.


(** At health 10 of 100 the potion is queued, and a technique after it. *)
Lemma trainer_at_health_ten :
  let s := battle (a_monster 5 20 20) (a_monster 5 10 100) true [] in
  exists s', AI.init (H := simple) 2 s = Ok s'
             /\ _action_queue s' = [item_action opponent_ai 1; tackle 2 1].
Proof. vm_compute. by eexists. Qed.

End TrainerExample.

(** ** The current_hp condition *)

Section Condition.

Lemma compare_int_float_is_int i x z :
  float_is_int x z = true -> compare_int_float i x = Some (i ?= z).
Proof.
  destruct x as [sg|sg| |sg m e]; simpl; try done.
  - by intros ->%Z.eqb_eq.
  - intros [He Hv]%andb_true_iff. apply Z.leb_le in He. apply Z.eqb_eq in Hv.
    rewrite Hv. f_equal. destruct (0 <=? e) eqn:E.
    + apply Z.leb_le in E. assert (e = 0) as -> by lia.
      change (2 ^ (- 0)) with 1. change (2 ^ 0) with 1.
      by rewrite !Z.mul_1_r.
    + assert (0 < 2 ^ (- e)) by (apply Z.pow_pos_nonneg; lia).
      destruct (i ?= z) eqn:C.
      * apply Z.compare_eq in C as ->. apply Z.compare_refl.
      * rewrite Z.compare_lt_iff in *. nia.
      * rewrite Z.compare_gt_iff in *. nia.
Qed.

Lemma lt_int_int a b : operator.lt (Int a) (Int b) = bool_decide (a < b).
Proof.
  unfold operator.lt, compare. destruct (a ?= b) eqn:E.
  - apply Z.compare_eq in E. by rewrite bool_decide_eq_false_2 by lia.
  - rewrite Z.compare_lt_iff in E. by rewrite bool_decide_eq_true_2.
  - rewrite Z.compare_gt_iff in E. by rewrite bool_decide_eq_false_2 by lia.
Qed.

Lemma test_refines self target :
  CurrentHp.test self target
  = c ← CurrentHp.cmp_dict (CurrentHp.comparison self);
    CurrentHp.test_spec c self target.
Proof.
  unfold CurrentHp.test, CurrentHp.test_spec.
  destruct (CurrentHp.cmp_dict _) as [c|]; [|done]. cbn.
  destruct (CurrentHp.value self) as [v|v]; [done|].
  by destruct (mul_int_float _ _).
Qed.

(** C10.  For every monster and every current_hp condition, [test]
    applies the comparison that [cmp_dict] gives for the condition's
    operator ([>=] when it is absent) to the current health and to the
    value: the maximum health times the value when the value is a float,
    the value itself when it is an int.  So [<, 1.0] holds exactly when
    the monster is below full health (for a maximum health below
    [2 ^ 53]) and [<, 1] exactly when its health is below 1. *)
Theorem current_hp_test_compares (self : CurrentHp.CurrentHitPointsCondition)
    (target : Monster.t) :
  CurrentHp.cmp_dict None = Ok operator.ge
  /\ CurrentHp.cmp_dict (Some "<") = Ok operator.lt
  /\ CurrentHp.cmp_dict (Some "<=") = Ok operator.le
  /\ CurrentHp.cmp_dict (Some ">") = Ok operator.gt
  /\ CurrentHp.cmp_dict (Some ">=") = Ok operator.ge
  /\ CurrentHp.cmp_dict (Some "==") = Ok operator.eq
  /\ CurrentHp.cmp_dict (Some "=") = Ok operator.eq
  /\ CurrentHp.test self target
     = (c ← CurrentHp.cmp_dict (CurrentHp.comparison self);
        CurrentHp.test_spec c self target)
  /\ (forall c v,
        CurrentHp.cmp_dict (CurrentHp.comparison self) = Ok c ->
        CurrentHp.value self = Float v ->
        CurrentHp.test self target
        = (x ← mul_int_float (Monster.hp target) v;
           Ok (c (Int (Monster.current_hp target)) (Float x))))
  /\ (forall c v,
        CurrentHp.cmp_dict (CurrentHp.comparison self) = Ok c ->
        CurrentHp.value self = Int v ->
        CurrentHp.test self target
        = Ok (c (Int (Monster.current_hp target)) (Int v)))
  /\ (0 <= Monster.hp target < 2 ^ 53 ->
      CurrentHp.test {| CurrentHp.comparison := Some "<";
                        CurrentHp.value := Float f_1_0 |} target
      = Ok (bool_decide (Monster.current_hp target < Monster.hp target)))
  /\ CurrentHp.test {| CurrentHp.comparison := Some "<";
                       CurrentHp.value := Int 1 |} target
     = Ok (bool_decide (Monster.current_hp target < 1)).
Proof.
  split_and!; try done.
  - apply test_refines.
  - intros c v Hc Hv. rewrite test_refines, Hc. cbn.
    unfold CurrentHp.test_spec. by rewrite Hv.
  - intros c v Hc Hv. rewrite test_refines, Hc. cbn.
    unfold CurrentHp.test_spec. by rewrite Hv.
  - intros Hhp.
    destruct (scale_by_one _ Hhp) as (x & Hmul & Hex).
    rewrite test_refines.
    change (CurrentHp.cmp_dict _) with (@Ok (num -> num -> bool) operator.lt).
    unfold CurrentHp.test_spec.
    change (CurrentHp.value _) with (Float f_1_0).
    unfold mbind, result_bind, Py.bind. rewrite Hmul.
    change (Ok (operator.lt (Int (Monster.current_hp target)) (Float x))
            = Ok (bool_decide (Monster.current_hp target
                               < Monster.hp target))).
    unfold operator.lt, compare.
    rewrite (compare_int_float_is_int _ _ _ Hex).
    by rewrite <- lt_int_int.
  - by rewrite <- lt_int_int.
Qed.
End Condition.
Section GateExamples.
Import Scenario.

(** C3, counterexample.  Health 1 of 100 lies within [0 < h <= 15%] and
    the gate stays shut; health 4 of 25 is 16% and the gate opens. *)
Lemma need_potion_at_one_and_at_sixteen_percent :
  let low := battle (a_monster 5 20 20) (a_monster 5 1 100) true [] in
  let sixteen := battle (a_monster 5 20 20) (a_monster 5 4 25) true [] in
  (0 < Monster.current_hp (monsters low 2)
   /\ 100 * Monster.current_hp (monsters low 2)
      <= 15 * Monster.hp (monsters low 2)
   /\ AI.need_potion opponent_ai low = Ok false)
  /\ (100 * Monster.current_hp (monsters sixteen 2)
      = 16 * Monster.hp (monsters sixteen 2)
      /\ AI.need_potion opponent_ai sixteen = Ok true).
Proof. vm_compute. split_and!; done. Qed.

(** C3, witness: health 15 of 100. *)
Lemma need_potion_gate_example :
  let s := battle (a_monster 5 20 20) (a_monster 5 15 100) true [] in
  AI.need_potion opponent_ai s = Ok true.
Proof.
  intros s.
  destruct (need_potion_gate opponent_ai s) as (_ & _ & Hfifteen & _).
  - vm_compute. split; [discriminate|reflexivity].
  - apply Hfifteen; reflexivity.
Defined.

(** C8, witness. *)
Lemma track_next_use_selection_example :
  let s := battle (a_monster 5 20 20) (a_monster 5 20 20) true [] in
  AI.track_next_use (H := simple) opponent_ai s = Ok (1%positive, 1%positive, s).
Proof.
  intros s.
  destruct (track_next_use_selection (H := simple) opponent_ai s)
    as (_ & _ & Hpick).
  destruct Hpick as (technique & target & Hs & Hdraw & _).
  - discriminate.
  - vm_compute in Hdraw. injection Hdraw as <- <-. exact Hs.
Defined.

(** C10, witness. *)
Lemma current_hp_test_compares_example :
  CurrentHp.test {| CurrentHp.comparison := Some "<";
                    CurrentHp.value := Float f_1_0 |}
                 (a_monster 5 19 20) = Ok true
  /\ CurrentHp.test {| CurrentHp.comparison := Some "<";
                       CurrentHp.value := Int 1 |}
                    (a_monster 5 19 20) = Ok false.
Proof.
  destruct (current_hp_test_compares
              {| CurrentHp.comparison := Some "<";
                 CurrentHp.value := Float f_1_0 |} (a_monster 5 19 20))
    as (_ & _ & _ & _ & _ & _ & _ & _ & _ & _ & Hfull & Hone).
  split.
  - rewrite Hfull; [reflexivity|]. vm_compute. split; [discriminate|reflexivity].
  - rewrite Hone. reflexivity.
Defined.
End GateExamples.

(** ** The decision maker: strongest and weakest of the roster *)

Section PartyChecks.

Lemma foldl_min_spec (l : list Z) (x : Z) :
  (foldl Z.min x l = x \/ foldl Z.min x l ∈ l)
  /\ foldl Z.min x l <= x
  /\ forall y, y ∈ l -> foldl Z.min x l <= y.
Proof.
  revert x. induction l as [|a l IH]; intros x; simpl.
  - split_and!; [by left|lia|]. intros y Hy. by apply elem_of_nil in Hy.
  - destruct (IH (Z.min x a)) as (Hin & Hle & Hall). split_and!.
    + destruct Hin as [Heq|Hin]; [|right; by right].
      rewrite Heq. destruct (Z.min_spec x a) as [[_ ->]|[_ ->]];
        [left|right; left]; done.
    + lia.
    + intros y [->|Hy]%elem_of_cons; [lia|by apply Hall].
Qed.

Lemma py_min_spec (l : list Z) :
  l <> [] ->
  exists low, Party.py_min l = Ok low /\ low ∈ l
              /\ forall y, y ∈ l -> low <= y.
Proof.
  destruct l as [|x l]; [done|]. intros _. simpl.
  destruct (foldl_min_spec l x) as (Hin & Hle & Hall).
  eexists. split_and!; [done| |].
  - destruct Hin as [->|Hin]; [left|by right].
  - intros y [->|Hy]%elem_of_cons; [done|by apply Hall].
Qed.

(** The comprehension [[m for m in roster if level(m) == bound]] and its
    first member. *)
Lemma first_at_level (level : ref -> Z) (bound : Z) (roster : list ref)
    (mine : Z) :
  bound ∈ level <$> roster ->
  match filter (fun x : ref * bool => x.2 = true)
               ((fun m => (m, bool_decide (level m = bound))) <$> roster) with
  | [] => Raise IndexError
  | (first, _) :: _ => Ok (bool_decide (level first = mine))
  end = Ok (bool_decide (bound = mine)).
Proof.
  intros Hin.
  destruct (filter _ _) as [|[first b] rest] eqn:E.
  - exfalso. apply list_elem_of_fmap in Hin as (m & -> & Hm).
    eapply (filter_nil_not_elem_of _ _ (m, true) E); [done|].
    apply list_elem_of_fmap. exists m. split; [|done].
    by rewrite bool_decide_eq_true_2.
  - assert (Hs : (first, b) ∈ filter (fun x : ref * bool => x.2 = true)
                   ((fun m => (m, bool_decide (level m = bound))) <$> roster))
      by (rewrite E; left).
    apply list_elem_of_filter in Hs as [Hb Hs]. simpl in Hb. subst b.
    apply list_elem_of_fmap in Hs as (m & [= -> Hm] & _).
    symmetry in Hm. apply bool_decide_eq_true in Hm. by rewrite Hm.
Qed.

Lemma check_strongest_spec self s :
  NPC.monsters (npcs s (AI.user self)) <> [] ->
  exists top,
    top ∈ (fun m => Monster.level (monsters s m))
            <$> NPC.monsters (npcs s (AI.user self))
    /\ (forall m, m ∈ NPC.monsters (npcs s (AI.user self)) ->
                  Monster.level (monsters s m) <= top)
    /\ AI.check_strongest self s
       = Ok (bool_decide (top = Monster.level (monsters s (AI.monster self)))).
Proof.
  intros Hne. unfold AI.check_strongest. cbv zeta.
  set (roster := NPC.monsters (npcs s (AI.user self))) in *.
  set (level := fun m => Monster.level (monsters s m)).
  destruct (py_max_spec (level <$> roster)) as (top & Hmax & Htopin & Hall).
  { by intros Hnil%fmap_nil_inv. }
  exists top. split_and!; [done| |].
  - intros m Hm. apply Hall, list_elem_of_fmap. by exists m.
  - rewrite (mapM_ok _ (fun m => (m, bool_decide (level m = top))))
      by (intros; by rewrite Hmax).
    cbn. by apply first_at_level.
Qed.

Lemma check_weakest_spec self s :
  NPC.monsters (npcs s (AI.user self)) <> [] ->
  exists low,
    low ∈ (fun m => Monster.level (monsters s m))
            <$> NPC.monsters (npcs s (AI.user self))
    /\ (forall m, m ∈ NPC.monsters (npcs s (AI.user self)) ->
                  low <= Monster.level (monsters s m))
    /\ Party.check_weakest self s
       = Ok (bool_decide (low = Monster.level (monsters s (AI.monster self)))).
Proof.
  intros Hne. unfold Party.check_weakest. cbv zeta.
  set (roster := NPC.monsters (npcs s (AI.user self))) in *.
  set (level := fun m => Monster.level (monsters s m)).
  destruct (py_min_spec (level <$> roster)) as (low & Hmin & Hlowin & Hall).
  { by intros Hnil%fmap_nil_inv. }
  exists low. split_and!; [done| |].
  - intros m Hm. apply Hall, list_elem_of_fmap. by exists m.
  - rewrite (mapM_ok _ (fun m => (m, bool_decide (level m = low))))
      by (intros; by rewrite Hmin).
    cbn. by apply first_at_level.
Qed.

(** X3.  On an empty roster [check_strongest] and [check_weakest] raise
    [IndexError].  On a roster with a member, [check_strongest] tells
    whether the level of the combatant is the highest level of the
    roster and [check_weakest] whether it is the lowest, whether or not
    the combatant is a member and whoever else has that level; both
    hold exactly when every member has the level of the combatant. *)
Theorem strongest_and_weakest_by_level (self : AI.t) (s : CombatState) :
  let roster := NPC.monsters (npcs s (AI.user self)) in
  let level m := Monster.level (monsters s m) in
  let mine := level (AI.monster self) in
  (roster = [] ->
   AI.check_strongest self s = Raise IndexError
   /\ Party.check_weakest self s = Raise IndexError)
  /\ (roster <> [] ->
      AI.check_strongest self s
      = Ok (bool_decide (Exists (fun m => level m = mine) roster
                         /\ Forall (fun m => level m <= mine) roster))
      /\ Party.check_weakest self s
         = Ok (bool_decide (Exists (fun m => level m = mine) roster
                            /\ Forall (fun m => mine <= level m) roster))
      /\ (AI.check_strongest self s = Ok true
          /\ Party.check_weakest self s = Ok true
          <-> Forall (fun m => level m = mine) roster)).
Proof.
  intros roster level mine. split.
  - intros Hnil. unfold AI.check_strongest, Party.check_weakest.
    fold roster. by rewrite Hnil.
  - intros Hne.
    destruct (check_strongest_spec self s Hne) as (top & Htin & Htop & Hs).
    destruct (check_weakest_spec self s Hne) as (low & Hlin & Hlow & Hw).
    fold roster in Htin, Htop, Hlin, Hlow. fold mine in Hs, Hw.
    apply list_elem_of_fmap in Htin as (mt & Hmt & Hmtin).
    apply list_elem_of_fmap in Hlin as (ml & Hml & Hmlin).
    assert (Hstrong : top = mine
                      <-> Exists (fun m => level m = mine) roster
                          /\ Forall (fun m => level m <= mine) roster).
    { rewrite Exists_exists, Forall_forall. split.
      - intros <-. split; [by exists mt|done].
      - intros [(m & Hm & Heq) Hall]. apply Z.le_antisymm.
        + rewrite Hmt. by apply Hall.
        + rewrite <- Heq. by apply Htop. }
    assert (Hweak : low = mine
                    <-> Exists (fun m => level m = mine) roster
                        /\ Forall (fun m => mine <= level m) roster).
    { rewrite Exists_exists, Forall_forall. split.
      - intros <-. split; [by exists ml|done].
      - intros [(m & Hm & Heq) Hall]. apply Z.le_antisymm.
        + rewrite <- Heq. by apply Hlow.
        + rewrite Hml. by apply Hall. }
    split_and!.
    + rewrite Hs. f_equal. apply bool_decide_ext, Hstrong.
    + rewrite Hw. f_equal. apply bool_decide_ext, Hweak.
    + rewrite Hs, Hw, Forall_forall. split.
      * intros [[= Ht%bool_decide_eq_true] [= Hl%bool_decide_eq_true]] m Hm.
        specialize (Htop m Hm). specialize (Hlow m Hm).
        unfold mine, level in *. lia.
      * intros Hall. split; f_equal; apply bool_decide_eq_true_2.
        -- rewrite Hmt. by apply Hall.
        -- rewrite Hml. by apply Hall.
Qed.

End PartyChecks.

(** ** Sorting the queue: the errors *)

Section SortErrors.
Context `{Collaborators}.

Lemma index_raise {A} `{EqDecision A} (x : A) (l : list A) e :
  Py.index x l = Raise e <-> e = ValueError /\ x ∉ l.
Proof.
  revert e. induction l as [|y l IH]; intros e; simpl.
  - split; [|by intros [-> _]].
    intros [= <-]. split; [done|apply not_elem_of_nil].
  - destruct (decide (x = y)) as [->|Hne].
    + split; [done|]. intros [_ Hnot]. exfalso. apply Hnot. left.
    + rewrite not_elem_of_cons.
      destruct (Py.index x l) as [i|e'] eqn:E; simpl.
      * split; [done|]. intros [-> [_ Hl]]. exfalso.
        assert (Ok i = @Raise Z ValueError) by (by apply IH). done.
      * destruct (proj1 (IH e') eq_refl) as [-> Hl]. split.
        -- by intros [= <-].
        -- by intros [-> _].
Qed.

Lemma rank_action_raise s a e :
  Combat.rank_action s a = Raise e
  <-> exists p,
        technique a = Some p
        /\ ((e = ValueError /\ Combat.payload_sort s p ∉ Combat.sort_order)
            \/ (e = AssertionError
                /\ Combat.payload_sort s p ∈ Combat.sort_order
                /\ Combat.payload_sort s p <> "meta"
                /\ Combat.payload_sort s p <> "potion"
                /\ user a = None)).
Proof.
  unfold Combat.rank_action. destruct (technique a) as [p|]; cycle 1.
  { split; [done|]. by intros (p & [=] & _). }
  cbv zeta.
  destruct (Py.index (Combat.payload_sort s p) Combat.sort_order)
    as [i|e'] eqn:E; cbn.
  - assert (Hin : Combat.payload_sort s p ∈ Combat.sort_order).
    { destruct (decide (Combat.payload_sort s p ∈ Combat.sort_order));
        [done|].
      by rewrite (proj2 (index_raise _ _ ValueError)) in E. }
    repeat case_decide.
    + split; [done|]. intros (q & [= <-] & [[_ ?]|(_ & _ & ? & _)]); done.
    + split; [done|]. intros (q & [= <-] & [[_ ?]|(_ & _ & _ & ? & _)]); done.
    + destruct (user a) as [u|].
      * split; [done|]. intros (q & [= <-] & [[_ ?]|(_ & _ & _ & _ & ?)]); done.
      * split.
        -- intros [= <-]. exists p. split; [done|]. by right.
        -- intros (q & [= <-] & [[_ ?]|(-> & _)]); done.
  - apply index_raise in E as [-> Hnot]. split.
    + intros [= <-]. exists p. split; [done|]. by left.
    + intros (q & [= <-] & [[-> _]|(_ & ? & _)]); done.
Qed.

Lemma mapM_raise {A B} (f : A -> result B) (l : list A) e :
  mapM f l = Raise e
  <-> exists front a back,
        l = front ++ a :: back
        /\ Forall (fun x => is_ok (f x) = true) front
        /\ f a = Raise e.
Proof.
  revert e. induction l as [|x l IH]; intros e; cbn.
  - split; [done|]. intros (front & a & back & Hl & _). by destruct front.
  - destruct (f x) as [y|e'] eqn:E; cbn.
    + destruct (mapM f l) as [k|e''] eqn:Em; cbn.
      * split; [done|]. intros ([|x' front] & a & back & Hl & Hok & Ha);
          injection Hl as -> ->; [congruence|].
        apply Forall_cons in Hok as [_ Hok].
        assert (Ok k = @Raise (list B) e) as [=].
        apply IH. by exists front, a, back.
      * split.
        -- intros [= <-]. destruct (proj1 (IH e'') eq_refl)
             as (front & a & back & -> & Hok & Ha).
           exists (x :: front), a, back. split_and!; [done| |done].
           apply Forall_cons. split; [by rewrite E|done].
        -- intros ([|x' front] & a & back & Hl & Hok & Ha);
             injection Hl as -> ->; [congruence|].
           apply Forall_cons in Hok as [_ Hok].
           apply IH. by exists front, a, back.
    + split.
      * intros [= <-]. exists [], x, l. by split_and!.
      * intros ([|x' front] & a & back & Hl & Hok & Ha);
          injection Hl as -> ->; [congruence|].
        apply Forall_cons in Hok as [Hx _]. by rewrite E in Hx.
Qed.

(** X4.  [sort_action_queue] raises exactly when a queued action has no
    rank, with the exception of the first such action in queue order:
    [ValueError] for a payload whose sort is not one of [meta, item,
    utility, potion, food, heal, damage], [AssertionError] for a payload
    of a sort other than [meta] and [potion] that comes without a user.
    An action without a payload always has a rank. *)
Theorem sort_action_queue_raises (s : CombatState) (e : exn) :
  (Combat.sort_action_queue s = Raise e
   <-> exists front a back,
         _action_queue s = front ++ a :: back
         /\ Forall (fun x => is_ok (Combat.rank_action s x) = true) front
         /\ Combat.rank_action s a = Raise e)
  /\ (forall a,
        Combat.rank_action s a = Raise e
        <-> exists p,
              technique a = Some p
              /\ ((e = ValueError
                   /\ Combat.payload_sort s p ∉ Combat.sort_order)
                  \/ (e = AssertionError
                      /\ Combat.payload_sort s p ∈ Combat.sort_order
                      /\ Combat.payload_sort s p <> "meta"
                      /\ Combat.payload_sort s p <> "potion"
                      /\ user a = None)))
  /\ (forall a, technique a = None -> Combat.rank_action s a = Ok (0, 0)).
Proof.
  split_and!.
  - unfold Combat.sort_action_queue.
    set (f := fun action => k ← Combat.rank_action s action; Ok (k, action)).
    assert (Hr : forall x, f x = Raise e <-> Combat.rank_action s x = Raise e).
    { intros x. unfold f. destruct (Combat.rank_action s x); cbn; split;
        congruence. }
    destruct (mapM f (_action_queue s)) as [keyed|e'] eqn:E; cbn.
    + split; [done|]. intros (front & a & back & Hq & Hok & Ha).
      assert (mapM f (_action_queue s) = Raise e) as Hm; [|congruence].
      apply mapM_raise. exists front, a, back. split_and!; [done| |by apply Hr].
      eapply Forall_impl; [exact Hok|]. intros x Hx. unfold f in *. by destruct (Combat.rank_action s x).
    + apply mapM_raise in E as (front & a & back & Hq & Hok & Ha). split.
      * intros [= <-]. exists front, a, back. split_and!; [done| |by apply Hr].
        eapply Forall_impl; [exact Hok|]. intros x Hx. unfold f in *. by destruct (Combat.rank_action s x).
      * intros (front' & a' & back' & Hq' & Hok' & Ha'). f_equal.
        assert (mapM f (_action_queue s) = Raise e) as Hm.
        { apply mapM_raise. exists front', a', back'.
          split_and!; [done| |by apply Hr].
          eapply Forall_impl; [exact Hok'|]. intros x Hx. unfold f in *. by destruct (Combat.rank_action s x). }
        assert (mapM f (_action_queue s) = Raise e') as Hm'.
        { apply mapM_raise. by exists front, a, back. }
        congruence.
  - intros a. apply rank_action_raise.
  - intros a Ha. unfold Combat.rank_action. by rewrite Ha.
Qed.

End SortErrors.

Section SortErrorsExample.
Import Scenario.

(** X4, two queues.  A move of the sort [special] has no place in the
    sort order; a condition of the sort [damage] queued without a user,
    as the post action phase queues conditions, fails the assertion. *)
Lemma sort_action_queue_raises_example :
  let unknown := {| user := Some (UMonster 1);
                    technique := Some (PTechnique 1); target := 2 |} in
  let unowned := {| user := None; technique := Some (PCondition 1);
                    target := 2 |} in
  let s := battle (a_monster 5 20 20) (a_monster 5 20 20) false in
  Combat.sort_action_queue (H := simple)
    (set_techniques (fun _ _ => a_technique "ram" "special") id
       (s [tackle 1 2; unknown]))
  = Raise ValueError
  /\ Combat.sort_action_queue (H := simple)
       (set_conditions
          (fun _ _ => {| Condition.slug := "poison";
                         Condition.sort := "damage";
                         Condition.nr_turn := 0;
                         Condition.phase := None |}) id
          (s [tackle 1 2; unowned]))
     = Raise AssertionError.
Proof. split; reflexivity. Qed.

End SortErrorsExample.

(** ** The phase machine: the graph of [determine_phase] *)

Section PhaseGraph.
Import Scenario.

Lemma wait_for_positions_answer todo s :
  (Combat.wait_for_positions todo s).1 = None
  \/ (Combat.wait_for_positions todo s).1 = Some decision_phase.
Proof.
  revert s. induction todo as [|player todo IH]; intros s; simpl.
  - by right.
  - destruct (Combat.defeated s player); [apply IH|].
    case_bool_decide; [by left|apply IH].
Qed.

(** X5.  [determine_phase] moves along the edges of one graph, and every
    edge is taken in some combat state: ready to housekeeping;
    housekeeping to decision; decision to ran away or to pre action; pre
    action to action; action to post action; post action to resolve
    match; resolve match to draw match, ran away, has winner or back to
    housekeeping; the three outcomes to end combat.  Before the start,
    in [begin] and in [end combat] it never names a phase, and no phase
    leads to [begin] or to [ready]. *)
Theorem determine_phase_graph (phase : option CombatPhase)
    (next : CombatPhase) :
  (exists s, (Combat.determine_phase phase s).1 = Some next)
  <-> next ∈ successors phase.
Proof.
  split.
  - intros [s Hs].
    destruct phase as [[]|]; cbn [Combat.determine_phase successors] in *;
      try discriminate;
      try (injection Hs as <-; repeat constructor).
    + destruct (wait_for_positions_answer (Combat.players_list s) s)
        as [Hw|Hw]; rewrite Hw in Hs; [done|].
      injection Hs as <-. repeat constructor.
    + repeat case_bool_decide; simpl in Hs; try discriminate;
        injection Hs as <-; repeat constructor.
    + destruct (_action_queue s); simpl in Hs; [|done].
      injection Hs as <-. repeat constructor.
    + destruct (_action_queue s); simpl in Hs; [|done].
      injection Hs as <-. repeat constructor.
    + repeat case_bool_decide; try destruct (_run s); simpl in Hs;
        injection Hs as <-; repeat constructor.
  - pose (alive := a_monster 5 20 20). pose (dead := a_monster 5 0 20).
    destruct phase as [[]|]; cbn [successors]; intros Hin;
      repeat (apply elem_of_cons in Hin as [->|Hin]);
      try (by apply elem_of_nil in Hin).
    + exists (battle alive alive false []). vm_compute. reflexivity.
    + exists (battle alive alive false []). vm_compute. reflexivity.
    + exists (battle alive dead false []). vm_compute. reflexivity.
    + exists (battle alive alive false [tackle 1 2; tackle 2 1]). vm_compute. reflexivity.
    + exists (battle alive alive false []). vm_compute. reflexivity.
    + exists (battle alive alive false []). vm_compute. reflexivity.
    + exists (battle alive alive false []). vm_compute. reflexivity.
    + exists (battle dead dead false []). vm_compute. reflexivity.
    + exists (set_run true (battle alive dead false [])). vm_compute. reflexivity.
    + exists (battle alive dead false []). vm_compute. reflexivity.
    + exists (battle alive alive false []). vm_compute. reflexivity.
    + exists (battle alive alive false []). vm_compute. reflexivity.
    + exists (battle alive alive false []). vm_compute. reflexivity.
    + exists (battle alive alive false []). vm_compute. reflexivity.
Qed.

End PhaseGraph.

(** ** Fainting: once *)

Section FaintOnce.
Context `{Collaborators}.

Lemma mark_fainted_condition monster s :
  Condition.slug (conditions (Combat.mark_fainted monster s)
                             (next_condition s)) = "faint".
Proof.
  unfold Combat.mark_fainted. cbv zeta.
  match goal with
  | |- context [match ?l with _ :: _ => _ | [] => _ end] => destruct l as [|c ?]
  end; simpl.
  - rewrite fn_lookup_insert. apply condition_db_slug.
  - destruct (decide (c = next_condition s)) as [->|Hne].
    + rewrite !fn_lookup_insert. simpl. apply condition_db_slug.
    + rewrite fn_lookup_insert_ne by done. rewrite fn_lookup_insert.
      apply condition_db_slug.
Qed.

(** X6.  After [faint_monster] (the monster not being a contributor of
    its own entry) the monster has health 0 and carries a condition of
    the slug [faint], so the test [current_hp <= 0 and not
    has_status(faint)] of [check_party_hp] fails for it; its entry of
    the damage ledger is gone, so fainting it again succeeds, awards
    nothing and changes no other monster. *)
Theorem faint_monster_once (monster : ref) (s s' : CombatState) :
  Combat.faint_monster monster s = Ok s' ->
  (forall contributors,
     _damage_map s !! monster = Some contributors ->
     monster ∉ contributors) ->
  Monster.current_hp (monsters s' monster) = 0
  /\ Combat.has_status s' monster "faint" = true
  /\ bool_decide (Monster.current_hp (monsters s' monster) <= 0)
     && negb (Combat.has_status s' monster "faint") = false
  /\ _damage_map s' !! monster = None
  /\ Combat.faint_monster monster s' = Ok (Combat.mark_fainted monster s')
  /\ forall w, w <> monster ->
       monsters (Combat.mark_fainted monster s') w = monsters s' w.
Proof.
  intros Hs Hself.
  destruct (mark_fainted_frame monster s) as (_ & Hd & _).
  pose proof (mark_fainted_monster monster s) as Hmon.
  pose proof (mark_fainted_condition monster s) as Hcond.
  set (s0 := Combat.mark_fainted monster s) in *.
  assert (Hs' : monsters s' monster = monsters s0 monster
                /\ conditions s' = conditions s0
                /\ _damage_map s' !! monster = None).
  { unfold Combat.faint_monster in Hs. cbv zeta in Hs. fold s0 in Hs.
    rewrite Hd in Hs.
    destruct (_damage_map s !! monster) as [contributors|] eqn:Hentry.
    - destruct (Combat.floordiv _ _) as [q|]; [|done]. cbn in Hs.
      injection Hs as <-.
      match goal with
      | |- context [foldl (Combat.award ?e ?m) s0 ?l] =>
          destruct (award_fold_frame e m l s0)
            as (_ & Hd' & _ & _ & Hc' & Hm')
      end.
      simpl. split_and!; [|done|apply lookup_delete_eq].
      apply Hm'. rewrite elem_of_elements. by apply Hself.
    - injection Hs as <-. by rewrite Hd. }
  destruct Hs' as (Hm & Hc & Hnone).
  assert (Hhp : Monster.current_hp (monsters s' monster) = 0)
    by (by rewrite Hm, Hmon).
  assert (Hst : Combat.has_status s' monster "faint" = true).
  { unfold Combat.has_status. apply bool_decide_eq_true_2.
    rewrite Hm, Hmon, Hc. simpl. by apply Exists_cons_hd. }
  split_and!; [done|done| |done| |].
  - by rewrite Hst, andb_false_r.
  - unfold Combat.faint_monster. cbv zeta.
    destruct (mark_fainted_frame monster s') as (_ & -> & _).
    by rewrite Hnone.
  - intros w Hw. by apply mark_fainted_frame.
Qed.

End FaintOnce.

Section FaintOnceExample.
Import Scenario.

(** X6, witness: monster 2, hit by the monsters 1 and 3, faints. *)
Lemma faint_monster_once_example :
  exists s',
    Combat.faint_monster (H := simple) 2 ledger_battle = Ok s'
    /\ Combat.has_status s' 2 "faint" = true
    /\ Combat.faint_monster (H := simple) 2 s'
       = Ok (Combat.mark_fainted (H := simple) 2 s').
Proof.
  destruct (Combat.faint_monster (H := simple) 2 ledger_battle)
    as [s'|] eqn:E; [|vm_compute in E; discriminate].
  exists s'. split; [reflexivity|].
  destruct (faint_monster_once (H := simple) 2 ledger_battle s' E)
    as (_ & Hst & _ & _ & Hagain & _).
  - intros contributors Hc. vm_compute in Hc. injection Hc as <-.
    vm_compute. intros Hin. discriminate Hin.
  - split; [exact Hst|exact Hagain].
Defined.

End FaintOnceExample.

(** ** Fainting: the prize *)

Section Prize.
Context `{Collaborators}.

Lemma award_prize awarded_exp awarded_mon s winners :
  let s' := Combat.award awarded_exp awarded_mon s winners in
  is_trainer_battle s' = is_trainer_battle s
  /\ _prize s' = _prize s + if is_trainer_battle s then awarded_mon else 0.
Proof.
  unfold Combat.award. cbv zeta. simpl.
  destruct (is_trainer_battle s) eqn:Htrainer; simpl;
    repeat case_bool_decide; simpl; rewrite ?Htrainer; split; lia || done.
Qed.

Lemma award_fold_prize awarded_exp awarded_mon (l : list ref) s :
  let s' := foldl (Combat.award awarded_exp awarded_mon) s l in
  is_trainer_battle s' = is_trainer_battle s
  /\ _prize s'
     = _prize s + if is_trainer_battle s
                  then Z.of_nat (length l) * awarded_mon else 0.
Proof.
  revert s. induction l as [|w l IH]; intros s; cbv zeta.
  - simpl. split; [done|]. destruct (is_trainer_battle s); lia.
  - simpl foldl.
    destruct (award_prize awarded_exp awarded_mon s w) as [Ht1 Hp1].
    destruct (IH (Combat.award awarded_exp awarded_mon s w)) as [Ht Hp].
    cbv zeta in Ht1, Hp1, Ht, Hp. split; [congruence|].
    rewrite Hp, Hp1, Ht1. destruct (is_trainer_battle s); simpl length; lia.
Qed.

Lemma mark_fainted_prize monster s :
  let s' := Combat.mark_fainted monster s in
  is_trainer_battle s' = is_trainer_battle s /\ _prize s' = _prize s.
Proof.
  unfold Combat.mark_fainted. cbv zeta.
  by match goal with
  | |- context [match ?l with _ :: _ => _ | [] => _ end] => destruct l
  end.
Qed.

(** X18.  When [faint_monster] returns, the prize of a trainer battle
    has grown by [level * money_modifier] of the fainted monster for
    every contributor of its ledger entry, so by that product times the
    number of contributors; without an entry, and in a wild battle, the
    prize is as before. *)
Theorem faint_monster_prize (monster : ref) (s s' : CombatState) :
  Combat.faint_monster monster s = Ok s' ->
  is_trainer_battle s' = is_trainer_battle s
  /\ _prize s'
     = _prize s
       + match _damage_map s !! monster with
         | Some contributors =>
             if is_trainer_battle s
             then Z.of_nat (size contributors)
                  * (Monster.level (monsters s monster)
                     * Monster.money_modifier (monsters s monster))
             else 0
         | None => 0
         end.
Proof.
  intros Hs.
  destruct (mark_fainted_frame monster s) as (_ & Hd & _).
  destruct (mark_fainted_prize monster s) as [Ht0 Hp0].
  pose proof (mark_fainted_monster monster s) as Hmon.
  cbv zeta in Ht0, Hp0.
  unfold Combat.faint_monster in Hs. cbv zeta in Hs.
  set (s0 := Combat.mark_fainted monster s) in *.
  rewrite Hd, Hmon in Hs.
  destruct (_damage_map s !! monster) as [contributors|].
  - destruct (Combat.floordiv _ _) as [q|]; [|done].
    cbn [mbind result_bind bind] in Hs. injection Hs as <-.
    match goal with
    | |- context [foldl (Combat.award ?e ?m) s0 ?l] =>
        destruct (award_fold_prize e m l s0) as [Ht Hp]
    end.
    cbv zeta in Ht, Hp. unfold set_damage_map; cbn [is_trainer_battle _prize].
    rewrite Ht, Hp, Ht0, Hp0.
    split; [done|]. by destruct (is_trainer_battle s).
  - injection Hs as <-. split; [done|lia].
Qed.

End Prize.

Section PrizeExample.
Import Scenario Field.

(** X18, witness: level 10, money modifier 1 and two contributors add
    20 to the prize. *)
Lemma faint_monster_prize_example :
  exists s',
    Combat.faint_monster (H := simple) 2 trainer_ledger_battle = Ok s'
    /\ _prize s' = 20.
Proof.
  destruct (Combat.faint_monster (H := simple) 2 trainer_ledger_battle)
    as [s'|] eqn:E; [|vm_compute in E; discriminate].
  exists s'. split; [reflexivity|].
  destruct (faint_monster_prize (H := simple) 2 trainer_ledger_battle s' E)
    as [_ ->].
  reflexivity.
Defined.

End PrizeExample.

(** ** The decision maker: one action for a monster *)

Section OneAction.
Context `{Collaborators}.

Lemma track_next_use_frame self s :
  AI.opponents self <> [] ->
  exists technique target s1,
    AI.track_next_use self s = Ok (technique, target, s1)
    /\ target ∈ AI.opponents self
    /\ s1 = set_techniques (fun _ => techniques s1)
                           (fun _ => next_technique s1) s.
Proof.
  intros Hopp. unfold AI.track_next_use.
  destruct (AI.candidate_actions self s) as [|c cs] eqn:E.
  - destruct (choice_ok (AI.opponents self) Hopp) as (target & -> & _ & Hin).
    by do 3 eexists.
  - destruct (choice_ok (c :: cs)) as ([technique target] & -> & _ & Hin);
      [done|].
    exists technique, target, s. split_and!; [done| |by destruct s].
    rewrite <- E in Hin. by apply elem_of_candidate_actions in Hin as (_ & _ & ? & _).
Qed.

Lemma make_decision_wild_one_action self s :
  AI.opponents self <> [] ->
  exists technique target s1,
    AI.track_next_use self s = Ok (technique, target, s1)
    /\ target ∈ AI.opponents self
    /\ s1 = set_techniques (fun _ => techniques s1)
                           (fun _ => next_technique s1) s
    /\ AI.make_decision_wild self s
       = Ok (AI.action_tech self technique target s1).
Proof.
  intros Hopp.
  destruct (track_next_use_frame self s Hopp)
    as (technique & target & s1 & Htrack & Hin & Hs1).
  exists technique, target, s1. split_and!; [done..|].
  unfold AI.make_decision_wild. by rewrite Htrack.
Qed.

Lemma use_potions_none self s todo :
  Forall (fun itm => Item.category (items s itm) <> potion) todo
  \/ AI.need_potion self s = Ok false ->
  AI.use_potions self todo s = Ok s.
Proof.
  intros Hnone. induction todo as [|itm todo IH]; [done|]. simpl.
  destruct Hnone as [Hall|Hneed].
  - apply Forall_cons in Hall as [Hitm Hall].
    rewrite decide_False by done. apply IH. by left.
  - case_decide; [|apply IH; by right].
    rewrite Hneed. cbn. apply IH. by right.
Qed.

Lemma make_decision_trainer_no_potion self s b :
  AI.check_strongest self s = Ok b ->
  (b = true ->
   AI.use_potions self (NPC.items (npcs s (AI.user self))) s = Ok s) ->
  AI.make_decision_trainer self s = AI.make_decision_wild self s.
Proof.
  intros Hb Hs. unfold AI.make_decision_trainer, AI.make_decision_wild.
  rewrite Hb. cbn. destruct b; [|done].
  case_bool_decide; [|done]. by rewrite Hs.
Qed.

(** X7.  With an opposing monster in play, the decision maker of a wild
    battle, and that of a trainer battle whose combatant is not the
    strongest of its roster, has no potion in the bag or does not need
    one, enqueues exactly one action: the combatant uses the move it
    selected, as [pre_checking] returned it, on the selected opponent.
    The action is logged with the current turn, the slug of the selected
    move is noted in the human player's [action_tech], and no monster,
    no other player, no battlefield position and no ledger entry
    changes. *)
Theorem ai_enqueues_one_action (monster : ref) (s : CombatState) :
  let self := {| AI.human := (players s).1; AI.user := (players s).2;
                 AI.monster := monster;
                 AI.opponents := in_play s (players s).1 |} in
  in_play s (players s).1 <> [] ->
  (is_trainer_battle s = false
   \/ AI.check_strongest self s = Ok false
   \/ (exists b, AI.check_strongest self s = Ok b)
      /\ (potions self s = [] \/ AI.need_potion self s = Ok false)) ->
  exists technique target s1 s',
    AI.track_next_use self s = Ok (technique, target, s1)
    /\ target ∈ in_play s (players s).1
    /\ AI.init monster s = Ok s'
    /\ _action_queue s'
       = _action_queue s ++ [technique_action self technique target s1]
    /\ _log_action s'
       = _log_action s
         ++ [(_turn s, technique_action self technique target s1)]
    /\ NPC.game_variables (npcs s' (players s).1)
       = <["action_tech" := GStr (Technique.slug (techniques s1 technique))]>
           (NPC.game_variables (npcs s (players s).1))
    /\ (forall p, p <> (players s).1 -> npcs s' p = npcs s p)
    /\ monsters s' = monsters s
    /\ monsters_in_play s' = monsters_in_play s
    /\ _damage_map s' = _damage_map s.
Proof.
  intros self Hopp Hcase.
  destruct (make_decision_wild_one_action self s Hopp)
    as (technique & target & s1 & Htrack & Hin & Hs1 & Hwild).
  exists technique, target, s1, (AI.action_tech self technique target s1).
  assert (Hinit : AI.init monster s
                  = Ok (AI.action_tech self technique target s1)).
  { unfold AI.init. fold self.
    destruct (is_trainer_battle s) eqn:Htrainer; [|done].
    destruct Hcase as [?|Hcase]; [done|].
    rewrite <- Hwild.
    destruct Hcase as [Hweak|[[b Hb] Hnone]].
    - by apply (make_decision_trainer_no_potion self s false).
    - apply (make_decision_trainer_no_potion self s b Hb). intros _.
      apply use_potions_none. destruct Hnone as [Hnone|Hneed]; [left|by right].
      unfold potions in Hnone. apply Forall_forall. intros itm Hitm Hcat.
      eapply (filter_nil_not_elem_of _ _ itm Hnone); done. }
  split_and!; [done|done|done|..].
  - rewrite Hs1. done.
  - rewrite Hs1. done.
  - rewrite Hs1. simpl. by rewrite fn_lookup_insert.
  - intros p Hp. rewrite Hs1. simpl. by rewrite fn_lookup_insert_ne.
  - by rewrite Hs1.
  - by rewrite Hs1.
  - by rewrite Hs1.
Qed.

End OneAction.

Section OneActionExample.
Import Scenario.

(** X7, witness: the wild monster 2 facing monster 1. *)
Lemma ai_enqueues_one_action_example :
  let s := battle (a_monster 5 20 20) (a_monster 5 20 20) false [] in
  exists s', AI.init (H := simple) 2 s = Ok s'
             /\ _action_queue s' = [tackle 2 1].
Proof.
  intros s.
  destruct (ai_enqueues_one_action (H := simple) 2 s)
    as (technique & target & s1 & s' & Htrack & _ & Hinit & Hq & _).
  - discriminate.
  - left. reflexivity.
  - exists s'. split; [exact Hinit|]. rewrite Hq.
    vm_compute in Htrack. injection Htrack as <- <- <-. reflexivity.
Defined.

End OneActionExample.

(** ** The cache of technique animations *)

Section AnimationCache.
Context {image : Type}.
Variable load_and_scale : string -> image.
Variable images : TechniqueAnimationCache.key -> list string.
Variable flip_axes : TechniqueAnimationCache.key -> string.

Notation load :=
  (TechniqueAnimationCache.load_technique_animation
     load_and_scale images flip_axes).
Notation get :=
  (TechniqueAnimationCache.get load_and_scale images flip_axes).

Lemma cache_get_lookup technique is_flipped _sprites :
  (get technique is_flipped _sprites).2 !! technique
  = Some (get technique is_flipped _sprites).1.
Proof.
  unfold TechniqueAnimationCache.get.
  destruct (_sprites !! technique) as [sprite|] eqn:E; simpl; [done|].
  apply lookup_insert_eq.
Qed.

(** X8.  [get] answers from the cache whenever the technique has an
    entry, also an entry that holds no sprite, and loads and stores
    otherwise; the key is the technique alone.  So a second [get] of a
    technique returns what the first returned and leaves the cache as
    it was, whatever [is_flipped] says: a technique first shown
    unflipped is served unflipped to a request for the flipped
    animation.  Entries of other techniques are not touched.  A loaded
    animation has one frame of 0.09 seconds for each image of the
    technique and does not loop; a technique without images has no
    sprite. *)
Theorem technique_animation_cache_ignores_flip
    (technique : TechniqueAnimationCache.key) (first second : bool)
    (_sprites : gmap TechniqueAnimationCache.key
                  (option (TechniqueAnimationCache.Sprite (image := image)))) :
  let answer := get technique first _sprites in
  get technique second answer.2 = answer
  /\ (forall other, other <> technique ->
        answer.2 !! other = _sprites !! other)
  /\ (_sprites !! technique = None ->
      answer.1 = load technique first
      /\ (get technique second answer.2).1 = load technique first)
  /\ (forall sprite, _sprites !! technique = Some sprite ->
        answer = (sprite, _sprites))
  /\ (load technique first = None <-> images technique = [])
  /\ (forall sprite, load technique first = Some sprite ->
        TechniqueAnimationCache.frames sprite
        = (fun fn => (load_and_scale fn, TechniqueAnimationCache.frame_time))
            <$> images technique
        /\ TechniqueAnimationCache.loop sprite = false
        /\ TechniqueAnimationCache.flipped sprite
           = if first then [flip_axes technique] else []).
Proof.
  intros answer.
  assert (Hagain : get technique second answer.2 = answer).
  { pose proof (cache_get_lookup technique first _sprites) as Hl.
    fold answer in Hl. unfold TechniqueAnimationCache.get at 1.
    rewrite Hl. by destruct answer. }
  split_and!.
  - done.
  - intros other Hother. subst answer. unfold TechniqueAnimationCache.get.
    destruct (_sprites !! technique); simpl; [done|].
    by apply lookup_insert_ne.
  - intros Hmiss. rewrite Hagain. subst answer.
    unfold TechniqueAnimationCache.get. by rewrite Hmiss.
  - intros sprite Hhit. subst answer. unfold TechniqueAnimationCache.get.
    by rewrite Hhit.
  - unfold TechniqueAnimationCache.load_technique_animation.
    by destruct (images technique).
  - intros sprite.
    unfold TechniqueAnimationCache.load_technique_animation.
    destruct (images technique) as [|fn fns]; [done|].
    by intros [= <-].
Qed.

End AnimationCache.

(** ** The damage effect: what it writes *)

Section DamageFrame.
Context `{Collaborators}.


End DamageFrame.

(** ** The current_hp condition: the six operators *)

Section Operators.

Lemma compare_int_float_some i x :
  x <> S754_nan -> exists c, compare_int_float i x = Some c.
Proof. intros Hx. destruct x; simpl; try done; by eexists. Qed.

(** X10.  An operator outside [<, <=, >, >=, ==, =] (and not absent)
    makes [test] raise [KeyError] whatever the value and the monster.
    For an int value, and for a float value whose product with the
    maximum health is a number, the six operators answer from one
    three-way comparison of the current health with the threshold:
    exactly one of [<], [==], [>] holds, [<=] is the negation of [>] and
    [>=] the negation of [<].  When the product is not a number, every
    operator answers false, [==] and [>=] included. *)
Theorem current_hp_operators_agree (value : num) (target : Monster.t) :
  let test op :=
    CurrentHp.test {| CurrentHp.comparison := op; CurrentHp.value := value |}
                   target in
  (forall k, k ∉ ["<"; "<="; ">"; ">="; "=="; "="] ->
             test (Some k) = Raise KeyError)
  /\ (match value with
      | Int _ => True
      | Float v => exists x, mul_int_float (Monster.hp target) v = Ok x
                             /\ x <> S754_nan
      end ->
      exists c : comparison,
        test (Some "<") = Ok (bool_decide (c = Lt))
        /\ test (Some "==") = Ok (bool_decide (c = Eq))
        /\ test (Some "=") = Ok (bool_decide (c = Eq))
        /\ test (Some ">") = Ok (bool_decide (c = Gt))
        /\ test (Some "<=") = Ok (bool_decide (c <> Gt))
        /\ test (Some ">=") = Ok (bool_decide (c <> Lt))
        /\ test None = Ok (bool_decide (c <> Lt))
        /\ forall v, value = Int v ->
                     c = (Monster.current_hp target ?= v))
  /\ (forall v, value = Float v ->
        mul_int_float (Monster.hp target) v = Ok S754_nan ->
        forall op, op ∈ [None; Some "<"; Some "<="; Some ">"; Some ">=";
                         Some "=="; Some "="] ->
                   test op = Ok false).
Proof.
  intros test. split_and!.
  - intros k Hk. unfold test, CurrentHp.test. simpl.
    repeat (case_decide; [subst k; exfalso; apply Hk; set_solver|]).
    done.
  - intros Hnum. destruct value as [v|v].
    + exists (Monster.current_hp target ?= v).
      split_and!; try (by intros ? [= <-]);
        unfold test; run_test;
        unfold operator.lt, operator.le, operator.gt, operator.ge,
          operator.eq, compare;
        by destruct (Monster.current_hp target ?= v).
    + destruct Hnum as (x & Hx & Hnan).
      destruct (compare_int_float_some (Monster.current_hp target) x Hnan)
        as [c Hc].
      exists c.
      split_and!; try (by intros ? [=]);
        unfold test; run_test; rewrite Hx; cbn [mbind result_bind bind];
        unfold operator.lt, operator.le, operator.gt, operator.ge,
          operator.eq, compare;
        rewrite Hc; by destruct c.
  - intros v -> Hnan op Hop. unfold test.
    repeat (apply elem_of_cons in Hop as [->|Hop]);
      try (by apply elem_of_nil in Hop);
      run_test; by rewrite Hnan.
Qed.

End Operators.

Section OperatorsExample.
Import Scenario.

(** X10, witness: health 19 of 20 against the fraction 1.0. *)
Lemma current_hp_operators_agree_example :
  CurrentHp.test {| CurrentHp.comparison := Some "<=";
                    CurrentHp.value := Float f_1_0 |} (a_monster 5 19 20)
  = Ok true.
Proof.
  destruct (current_hp_operators_agree (Float f_1_0) (a_monster 5 19 20))
    as (_ & Hc & _).
  destruct Hc as (c & Hlt & _ & _ & _ & Hle & _).
  - eexists. split; [reflexivity|discriminate].
  - rewrite Hle. vm_compute in Hlt. injection Hlt as Hlt.
    destruct c; try discriminate Hlt. reflexivity.
Defined.

End OperatorsExample.

(** ** Performing an action: the damage ledger *)

Section Ledger.
Context `{Collaborators}.

Hypothesis technique_use_ledger : forall t u tg s,
  _damage_map (technique_use t u tg s).2 = _damage_map s.
Hypothesis condition_use_ledger : forall c m s,
  _damage_map (condition_use c m s).2 = _damage_map s.
Hypothesis apply_status_ledger : forall u c s,
  _damage_map (apply_status u c s) = _damage_map s.
Hypothesis item_use_ledger : forall i p tg s,
  _damage_map (item_use i p tg s) = _damage_map s.




End Ledger.

Section LedgerExample.
Import Scenario.


End LedgerExample.

(** ** Draining the queue *)

Section Drain.
Context `{Collaborators} `{Services}.

Hypothesis technique_use_queue : forall t u tg s,
  _action_queue (technique_use t u tg s).2 = _action_queue s.
Hypothesis condition_use_queue : forall c m s,
  _action_queue (condition_use c m s).2 = _action_queue s.
Hypothesis apply_status_queue : forall u c s,
  _action_queue (apply_status u c s) = _action_queue s.
Hypothesis item_use_queue : forall i p tg s,
  _action_queue (item_use i p tg s) = _action_queue s.

Lemma use_first_status_queue phase monster s :
  _action_queue (Combat.use_first_status phase monster s).2 = _action_queue s.
Proof.
  unfold Combat.use_first_status.
  destruct (Monster.status (monsters s monster)) as [|c ?]; [done|].
  destruct (condition_use c monster _) as [r s'] eqn:E. simpl.
  change s' with (r, s').2. rewrite <- E. by rewrite condition_use_queue.
Qed.

Lemma perform_action_queue user technique target s :
  _action_queue (Combat.perform_action user technique target s)
  = _action_queue s.
Proof.
  unfold Combat.perform_action.
  destruct technique as [[t|i|c]|], user as [[u|p]|]; cbv zeta; try done.
  - destruct (technique_use t u target _) as [result_tech s1] eqn:E1.
    assert (Hq1 : _action_queue s1 = _action_queue s).
    { change s1 with (result_tech, s1).2. rewrite <- E1.
      by rewrite technique_use_queue. }
    set (s2 := match _captured_mon s1 with
               | Some c => if negb (_captured s1) && bool_decide (c = u)
                           then set_captured_mon None s1 else s1
               | None => s1
               end).
    assert (Hq2 : _action_queue s2 = _action_queue s).
    { unfold s2. destruct (_captured_mon s1); [|done].
      by destruct (negb _ && _). }
    pose proof (use_first_status_queue "perform_action_tech" u s2) as Hq3.
    destruct (Combat.use_first_status "perform_action_tech" u s2)
      as [result_status s3]. simpl in Hq3.
    set (s4 := match result_status with
               | Some r => match cond_condition r with
                           | Some c => apply_status u c s3
                           | None => s3
                           end
               | None => s3
               end).
    assert (Hq4 : _action_queue s4 = _action_queue s).
    { unfold s4. destruct result_status as [r|]; [|congruence].
      destruct (cond_condition r); [|congruence].
      rewrite apply_status_queue. congruence. }
    simpl. destruct (should_tackle result_tech); simpl; by rewrite Hq4.
  - by rewrite condition_use_queue.
  - by rewrite condition_use_queue.
  - by rewrite condition_use_queue.
Qed.

Lemma handle_action_queue_takes_last s s1 :
  Combat.handle_action_queue s = Ok s1 ->
  (_action_queue s = [] /\ s1 = s)
  \/ exists front a,
       _action_queue s = front ++ [a]
       /\ s1 = Combat.perform_action (user a) (technique a) (target a)
                 (set_action_queue front s)
       /\ _action_queue s1 = front.
Proof.
  unfold Combat.handle_action_queue.
  destruct (_action_queue s) as [|a0 q] eqn:E using rev_ind.
  - intros [= <-]. by left.
  - clear IHq. destruct (q ++ [a0]) eqn:E'; [by destruct q|].
    rewrite <- E', pop_snoc. cbn. intros [= <-]. right.
    exists q, a0. split_and!; [done|done|]. by rewrite perform_action_queue.
Qed.

Lemma remove_sublist {A} `{EqDecision A} (a : A) (q q' : list A) :
  Py.remove a q = Ok q' -> q' `sublist_of` q.
Proof.
  revert q'. induction q as [|b q IH]; intros q'; simpl; [done|].
  case_decide.
  - intros [= <-]. by apply sublist_cons.
  - destruct (Py.remove a q) as [r|]; [|done]. cbn. intros [= <-].
    apply sublist_skip. by apply IH.
Qed.

Lemma remove_each_sublist l (q q' : list EnqueuedAction) :
  Combat.remove_each l q = Ok q' -> q' `sublist_of` q.
Proof.
  revert q. induction l as [|a l IH]; intros q; simpl.
  - by intros [= <-].
  - destruct (Py.remove a q) as [r|] eqn:E; [|done]. cbn. intros Hr.
    transitivity r; [by apply IH|by eapply remove_sublist].
Qed.

Lemma check_monster_hp_queue s monster s' :
  Combat.check_monster_hp s monster = Ok s' ->
  _action_queue s' `sublist_of` _action_queue s.
Proof.
  unfold Combat.check_monster_hp. cbv zeta.
  pose proof (use_first_status_queue "check_party_hp" monster s) as Hq.
  set (s1 := (Combat.use_first_status "check_party_hp" monster s).2) in *.
  rewrite <- Hq. destruct (_ && _).
  - unfold Combat.remove_monster_actions_from_queue.
    destruct (Combat.remove_each _ _) as [queue|] eqn:E; [|done]. cbn.
    intros Hf%faint_monster_queue. rewrite Hf. simpl.
    by eapply remove_each_sublist.
  - by intros [= <-].
Qed.

Lemma check_monsters_hp_queue party s s' :
  Combat.check_monsters_hp party s = Ok s' ->
  _action_queue s' `sublist_of` _action_queue s.
Proof.
  revert s. induction party as [|monster party IH]; intros s; simpl.
  - by intros [= <-].
  - destruct (Combat.check_monster_hp s monster) as [s1|] eqn:E; [|done].
    cbn. intros Hrest. transitivity (_action_queue s1);
      [by apply IH|by eapply check_monster_hp_queue].
Qed.

(** X12.  Provided the effects of techniques, items and conditions leave
    the action queue alone: in the action phase and in the post action
    phase [update_phase] performs the last action of the queue and
    leaves the actions in front of it (on an empty queue it does
    nothing), and the [check_party_hp] that follows only removes
    actions.  So each such step of a non-empty queue leaves a strictly
    shorter queue, whose actions are actions of the queue before, in
    their order. *)
Theorem update_phase_drains_queue (phase : option CombatPhase)
    (_decision_queue decisions : list ref) (s s1 s2 : CombatState) :
  phase = Some action_phase \/ phase = Some post_action_phase ->
  Round.update_phase phase _decision_queue s = Ok (decisions, s1) ->
  Combat.check_party_hp s1 = Ok s2 ->
  decisions = _decision_queue
  /\ (_action_queue s = [] -> s1 = s)
  /\ (forall front a,
        _action_queue s = front ++ [a] ->
        s1 = Combat.perform_action (user a) (technique a) (target a)
               (set_action_queue front s)
        /\ _action_queue s1 = front)
  /\ _action_queue s2 `sublist_of` _action_queue s
  /\ (_action_queue s <> [] ->
      (length (_action_queue s2) < length (_action_queue s))%nat).
Proof.
  intros Hphase Hupdate Hcheck.
  assert (Hhandle : Combat.handle_action_queue s = Ok s1
                    /\ decisions = _decision_queue).
  { unfold Round.update_phase in Hupdate.
    destruct Hphase as [-> | ->];
      destruct (Combat.handle_action_queue s); cbn in Hupdate; try done;
      by injection Hupdate as <- <-. }
  destruct Hhandle as [Hhandle ->].
  apply check_monsters_hp_queue in Hcheck.
  apply handle_action_queue_takes_last in Hhandle
    as [[Hnil ->]|(front & a & Hq & Hs1 & Hfront)].
  - rewrite Hnil in *. split_and!; [done|done| |done|done].
    intros front a Hq. by destruct front.
  - split_and!; [done| | | |].
    + intros Hnil. rewrite Hnil in Hq. by destruct front.
    + intros front' a' Hq'. rewrite Hq in Hq'.
      apply app_inj_tail in Hq' as [<- <-]. done.
    + rewrite Hq. transitivity front; [by rewrite <- Hfront|].
      by apply sublist_inserts_r.
    + intros _. apply sublist_length in Hcheck.
      rewrite Hfront in Hcheck. rewrite Hq, length_app. simpl. lia.
Qed.

End Drain.

Section DrainExample.
Import Scenario Field.

(** X12, witness: the second of two queued moves is performed and the
    first stays. *)
Lemma update_phase_drains_queue_example :
  exists s1 s2,
    Round.update_phase (H := simple) (H0 := plain) (Some action_phase) []
                       exchange = Ok ([], s1)
    /\ Combat.check_party_hp (H := simple) s1 = Ok s2
    /\ _action_queue s1 = [tackle 1 2]
    /\ (length (_action_queue s2) < 2)%nat.
Proof.
  destruct (Round.update_phase (H := simple) (H0 := plain)
              (Some action_phase) [] exchange) as [[decisions s1]|] eqn:E1;
    [|vm_compute in E1; discriminate].
  destruct (Combat.check_party_hp (H := simple) s1) as [s2|] eqn:E2;
    [|vm_compute in E1; injection E1 as <- <-; vm_compute in E2;
      discriminate].
  destruct (update_phase_drains_queue (H := simple) (H0 := plain)
              (fun _ _ _ _ => eq_refl) (fun _ _ _ => eq_refl)
              (fun _ _ _ => eq_refl) (fun _ _ _ _ => eq_refl)
              (Some action_phase) [] decisions exchange s1 s2)
    as (-> & _ & Hlast & _ & Hshorter).
  - left. reflexivity.
  - exact E1.
  - exact E2.
  - exists s1, s2. split; [reflexivity|]. split; [exact E2|]. split.
    + exact (proj2 (Hlast [tackle 1 2] (tackle 2 1) eq_refl)).
    + apply Hshorter. discriminate.
Defined.

End DrainExample.

(** ** Entering the post action phase *)

Section PostAction.
Context `{Collaborators} `{Services}.

Hypothesis set_stats_status : forall s m,
  Monster.status (set_stats s m) = Monster.status (monsters s m).








End PostAction.

Section PostActionExample.
Import Scenario Field.


End PostActionExample.

(** ** Filling the battlefield positions *)

Section Positions.
Context `{Collaborators} `{Services}.

Lemma same_parties_refl s : same_parties s s.
Proof. by repeat split. Qed.

Lemma same_parties_trans s1 s2 s3 :
  same_parties s1 s2 -> same_parties s2 s3 -> same_parties s1 s3.
Proof.
  intros (Hp & Hh & Hr) (Hp' & Hh' & Hr'). unfold same_parties.
  split_and!; [congruence| |].
  - intros m. by rewrite Hh', Hh.
  - intros p. by rewrite Hr', Hr.
Qed.

Lemma same_parties_alive s s' p :
  same_parties s s' -> Combat.alive_party s' p = Combat.alive_party s p.
Proof.
  intros (_ & Hh & Hr). unfold Combat.alive_party. rewrite Hr.
  apply filter_iff_in. intros m _. by rewrite Hh.
Qed.

Lemma same_parties_defeated s s' p :
  same_parties s s' -> Combat.defeated s' p = Combat.defeated s p.
Proof.
  intros Hs. unfold Combat.defeated. by rewrite (same_parties_alive s s').
Qed.

Lemma same_parties_positions s s' p :
  same_parties s s' ->
  NPC.max_position (npcs s' p) = NPC.max_position (npcs s p) ->
  positions s' p = positions s p.
Proof.
  intros Hs Hm. unfold positions.
  by rewrite (same_parties_alive s s'), Hm.
Qed.

(** The loop of [add_monster_into_play] over the bonded monsters. *)
Lemma clear_bonds_frame (l : list ref) s :
  let s' := foldl (fun s mon =>
                     if has_status_bond s mon
                     then update_monster mon (Monster.set_status []) s
                     else s) s l in
  monsters_in_play s' = monsters_in_play s
  /\ npcs s' = npcs s
  /\ same_parties s s'.
Proof.
  revert s. induction l as [|mon l IH]; intros s; cbv zeta.
  - split_and!; [done|done|apply same_parties_refl].
  - simpl foldl.
    set (s1 := if has_status_bond s mon
               then update_monster mon (Monster.set_status []) s else s).
    assert (Hs1 : monsters_in_play s1 = monsters_in_play s
                  /\ npcs s1 = npcs s /\ same_parties s s1).
    { unfold s1. destruct (has_status_bond s mon);
        [|split_and!; [done|done|apply same_parties_refl]].
      split_and!; [done|done|]. split_and!; [done| |done].
      intros m. simpl. destruct (decide (m = mon)) as [->|Hne].
      - by rewrite fn_lookup_insert.
      - by rewrite fn_lookup_insert_ne. }
    destruct Hs1 as (Hi1 & Hn1 & Hp1).
    destruct (IH s1) as (Hi & Hn & Hp). cbv zeta in Hi, Hn, Hp.
    split_and!; [congruence|congruence|by eapply same_parties_trans].
Qed.

Lemma add_monster_into_play_frame player monster s :
  let s' := Round.add_monster_into_play player monster None s in
  monsters_in_play s'
  = <[player := in_play s player ++ [monster]]> (monsters_in_play s)
  /\ same_parties s s'
  /\ forall p, NPC.max_position (npcs s' p) = NPC.max_position (npcs s p).
Proof.
  unfold Round.add_monster_into_play. cbv zeta.
  match goal with
  | |- context [foldl ?f ?s0 ?l] =>
      destruct (clear_bonds_frame l s0) as (Hi & Hn & Hp);
      cbv zeta in Hi, Hn, Hp; set (s1 := foldl f s0 l) in *
  end.
  assert (Hp0 : same_parties s s1).
  { destruct Hp as (Hp1 & Hp2 & Hp3). split_and!; [done|done|done]. }
  case_decide.
  - split_and!; [simpl; by rewrite Hi| |].
    + destruct Hp0 as (Hp1 & Hp2 & Hp3). split_and!; [done|done|].
      intros p. simpl. destruct (decide (p = (players s1).1)) as [->|Hne].
      * rewrite fn_lookup_insert. simpl. apply Hp3.
      * rewrite fn_lookup_insert_ne by done. apply Hp3.
    + intros p. simpl. destruct (decide (p = (players s1).1)) as [->|Hne].
      * rewrite fn_lookup_insert. simpl. by rewrite Hn.
      * rewrite fn_lookup_insert_ne by done. by rewrite Hn.
  - split_and!; [by rewrite Hi|done|]. intros p. by rewrite Hn.
Qed.

Lemma send_out_spec n player available s s' :
  Round.send_out n player false available s = Some s' ->
  same_parties s s'
  /\ (forall p, NPC.max_position (npcs s' p) = NPC.max_position (npcs s p))
  /\ length (in_play s' player) = (length (in_play s player) + n)%nat
  /\ in_play s player `prefix_of` in_play s' player
  /\ forall q, q <> player -> in_play s' q = in_play s q.
Proof.
  revert available s. induction n as [|n IH]; intros available s; simpl.
  - intros [= <-]. split_and!; [apply same_parties_refl|done|lia|done|done].
  - destruct (awake_next available s) as [[monster available']|]; [|done].
    intros Hrest. apply IH in Hrest as (Hp & Hm & Hlen & Hpre & Hother).
    destruct (add_monster_into_play_frame player monster s)
      as (Hi1 & Hp1 & Hm1). cbv zeta in Hi1, Hp1, Hm1.
    assert (Hin : in_play (Round.add_monster_into_play player monster None s)
                          player = in_play s player ++ [monster]).
    { unfold in_play at 1. by rewrite Hi1, lookup_insert_eq. }
    split_and!.
    + by eapply same_parties_trans.
    + intros p. by rewrite Hm, Hm1.
    + rewrite Hlen, Hin, length_app. simpl. lia.
    + etransitivity; [|exact Hpre]. rewrite Hin. by apply prefix_app_r.
    + intros q Hq. rewrite (Hother q Hq). unfold in_play.
      by rewrite Hi1, lookup_insert_ne.
Qed.

(** The first statement of both housekeeping loops. *)
Lemma last_one_standing_frame player s :
  let s' := if bool_decide (length (Combat.alive_party s player) = 1%nat)
            then update_npc player (NPC.set_max_position 1) s
            else s in
  same_parties s s'
  /\ monsters_in_play s' = monsters_in_play s
  /\ NPC.max_position (npcs s' player) = positions s player
  /\ forall q, q <> player ->
       NPC.max_position (npcs s' q) = NPC.max_position (npcs s q).
Proof.
  cbv zeta. unfold positions. case_bool_decide.
  - split_and!; [|done| |].
    + split_and!; [done|done|]. intros p. simpl.
      destruct (decide (p = player)) as [->|Hne].
      * by rewrite fn_lookup_insert.
      * by rewrite fn_lookup_insert_ne.
    + simpl. by rewrite fn_lookup_insert.
    + intros q Hq. simpl. by rewrite fn_lookup_insert_ne.
  - split_and!; [apply same_parties_refl|done|done|done].
Qed.

Lemma fill_positions_spec humans (todo : list ref) s s' :
  NoDup todo ->
  Round.fill_positions false humans todo s = Some s' ->
  (forall p, p ∈ todo -> Combat.defeated s p = false ->
             Z.of_nat (length (in_play s p)) <= positions s p) ->
  same_parties s s'
  /\ (forall p, in_play s p `prefix_of` in_play s' p)
  /\ (forall p, p ∈ todo -> Combat.defeated s p = false ->
                Z.of_nat (length (in_play s' p)) = positions s p
                /\ positions s' p = positions s p)
  /\ (forall p, p ∈ todo -> Combat.defeated s p = true ->
                in_play s' p = in_play s p)
  /\ forall q, q ∉ todo ->
       in_play s' q = in_play s q
       /\ NPC.max_position (npcs s' q) = NPC.max_position (npcs s q).
Proof.
  revert s. induction todo as [|player todo IH]; intros s Hnd; simpl.
  - intros [= <-] _.
    split_and!; [apply same_parties_refl|done| | |done];
      intros p Hp; by apply elem_of_nil in Hp.
  - apply NoDup_cons in Hnd as [Hnotin Hnd].
    destruct (Combat.defeated s player) eqn:Hdef.
    + intros Hfill Hroom.
      destruct (IH s Hnd Hfill) as (Hp & Hpre & Hact & Hdefd & Hout).
      { intros p Hp. apply Hroom. by right. }
      split_and!; [done|done| | |].
      * intros p [->|Hin]%elem_of_cons Hd; [congruence|by apply Hact].
      * intros p [->|Hin]%elem_of_cons Hd; [by apply Hout|by apply Hdefd].
      * intros q [_ Hq]%not_elem_of_cons. by apply Hout.
    + destruct (last_one_standing_frame player s)
        as (Hp1 & Hi1 & Hmax1 & Hoth1). cbv zeta in Hp1, Hi1, Hmax1, Hoth1.
      set (s1 := if bool_decide (length (Combat.alive_party s player) = 1%nat)
                 then update_npc player (NPC.set_max_position 1) s
                 else s) in *.
      assert (Hin1 : forall p, in_play s1 p = in_play s p)
        by (intros p; unfold in_play; by rewrite Hi1).
      rewrite andb_false_r. intros Hfill Hroom.
      assert (Hroom0 : Z.of_nat (length (in_play s player))
                       <= positions s player)
        by (apply Hroom; [left|done]).
      assert (exists s2,
                Round.fill_positions false humans todo s2 = Some s'
                /\ same_parties s s2
                /\ (forall p, NPC.max_position (npcs s2 p)
                              = NPC.max_position (npcs s1 p))
                /\ Z.of_nat (length (in_play s2 player)) = positions s player
                /\ in_play s player `prefix_of` in_play s2 player
                /\ forall q, q <> player -> in_play s2 q = in_play s q)
        as (s2 & Hfill2 & Hp2 & Hm2 & Hlen2 & Hpre2 & Hoth2).
      { case_bool_decide as Hpa.
        - destruct (Round.send_out _ player false _ s1) as [s2|] eqn:Hsend;
            [|done].
          apply send_out_spec in Hsend as (Hp2 & Hm2 & Hlen2 & Hpre2 & Hoth2).
          exists s2. split_and!; [done|by eapply same_parties_trans|done| | |].
          + rewrite Hlen2, Hin1, Hmax1. rewrite Hin1, Hmax1 in Hpa. lia.
          + by rewrite <- Hin1.
          + intros q Hq. by rewrite Hoth2, Hin1.
        - exists s1. split_and!; [done|done|done| |by rewrite Hin1|].
          + rewrite Hin1 in Hpa |- *. rewrite Hmax1 in Hpa. lia.
          + intros q _. apply Hin1. }
      assert (Hpos2 : forall q, q <> player -> positions s2 q = positions s q).
      { intros q Hq. apply same_parties_positions; [done|].
        by rewrite Hm2, Hoth1. }
      destruct (IH s2 Hnd Hfill2) as (Hp & Hpre & Hact & Hdefd & Hout).
      { intros p Hp Hd. assert (p <> player) by (by intros ->).
        rewrite Hoth2, Hpos2 by done. apply Hroom; [by right|].
        by rewrite <- (same_parties_defeated s s2). }
      destruct (Hout player Hnotin) as [Hinp Hmaxp].
      split_and!.
      * by eapply same_parties_trans.
      * intros p. etransitivity; [|apply Hpre].
        destruct (decide (p = player)) as [->|Hne]; [done|].
        by rewrite Hoth2.
      * intros p [->|Hin]%elem_of_cons Hd.
        -- split; [by rewrite Hinp|].
           unfold positions.
           rewrite (same_parties_alive s s')
             by (by eapply same_parties_trans).
           rewrite Hmaxp, Hm2, Hmax1. unfold positions.
           by destruct (bool_decide _).
        -- assert (p <> player) by (by intros ->).
           destruct (Hact p Hin) as [Hl Hps];
             [by rewrite (same_parties_defeated s s2)|].
           rewrite Hl, Hps. by rewrite Hpos2.
      * intros p [->|Hin]%elem_of_cons Hd; [congruence|].
        assert (p <> player) by (by intros ->).
        rewrite Hdefd; [by apply Hoth2|done|].
        by rewrite (same_parties_defeated s s2).
      * intros q [Hq Hqt]%not_elem_of_cons.
        destruct (Hout q Hqt) as [-> ->].
        split; [by apply Hoth2|]. by rewrite Hm2, Hoth1.
Qed.

Lemma wait_for_positions_filled (todo : list ref) s :
  (forall p, p ∈ todo -> Combat.defeated s p = false ->
             Z.of_nat (length (in_play s p)) = positions s p) ->
  (Combat.wait_for_positions todo s).1 = Some decision_phase.
Proof.
  revert s. induction todo as [|player todo IH]; intros s Hfilled; simpl;
    [done|].
  destruct (Combat.defeated s player) eqn:Hdef.
  - apply IH. intros p Hp. apply Hfilled. by right.
  - destruct (last_one_standing_frame player s)
      as (Hp1 & Hi1 & Hmax1 & Hoth1). cbv zeta in Hp1, Hi1, Hmax1, Hoth1.
    set (s1 := if bool_decide (length (Combat.alive_party s player) = 1%nat)
               then update_npc player (NPC.set_max_position 1) s
               else s) in *.
    assert (Hin1 : forall p, in_play s1 p = in_play s p)
      by (intros p; unfold in_play; by rewrite Hi1).
    rewrite bool_decide_eq_false_2.
    + apply IH. intros p Hp Hd. rewrite Hin1.
      rewrite (same_parties_defeated s s1) in Hd by done.
      rewrite (Hfilled p) by (done || by right).
      destruct (decide (p = player)) as [->|Hne].
      * unfold positions. rewrite (same_parties_alive s s1) by done.
        rewrite Hmax1. unfold positions. by destruct (bool_decide _).
      * symmetry. apply same_parties_positions; [done|by apply Hoth1].
    + intros Hpa. apply Hpa. rewrite Hin1, Hmax1.
      rewrite (Hfilled player) by (done || left). lia.
Qed.

(** X14.  When [fill_battlefield_positions] returns without asking (two
    distinct players, no player with more monsters in play than
    positions): every player that is not defeated has exactly as many
    monsters in play as positions, the monsters that were in play still
    in front; a defeated player's monsters in play, the rosters and the
    health of every monster are as before; and [determine_phase] then
    leaves the housekeeping phase for the decision phase. *)
Theorem fill_battlefield_positions_fills (s s' : CombatState) :
  (players s).1 <> (players s).2 ->
  Round.fill_battlefield_positions false s = Some s' ->
  (forall p, p ∈ Combat.players_list s -> Combat.defeated s p = false ->
             Z.of_nat (length (in_play s p)) <= positions s p) ->
  (forall p, p ∈ Combat.players_list s -> Combat.defeated s p = false ->
             Z.of_nat (length (in_play s' p)) = positions s p
             /\ in_play s p `prefix_of` in_play s' p)
  /\ (forall p, p ∈ Combat.players_list s -> Combat.defeated s p = true ->
                in_play s' p = in_play s p)
  /\ same_parties s s'
  /\ (Combat.determine_phase (Some housekeeping_phase) s').1
     = Some decision_phase.
Proof.
  intros Hdistinct Hfill Hroom.
  assert (Hnd : NoDup (Combat.players_list s)).
  { unfold Combat.players_list. apply NoDup_cons. split.
    - by intros Heq%list_elem_of_singleton.
    - apply NoDup_singleton. }
  destruct (fill_positions_spec _ _ s s' Hnd Hfill Hroom)
    as (Hp & Hpre & Hact & Hdefd & _).
  split_and!; [|done|done|].
  - intros p Hin Hd. split; [by apply Hact|apply Hpre].
  - unfold Combat.determine_phase.
    apply wait_for_positions_filled. intros p Hin Hd.
    assert (Hin0 : p ∈ Combat.players_list s).
    { unfold Combat.players_list in *. destruct Hp as (<- & _). done. }
    assert (Hd0 : Combat.defeated s p = false).
    { rewrite <- Hd. symmetry. by apply same_parties_defeated. }
    destruct (Hact p Hin0 Hd0) as [-> ->]. done.
Qed.

End Positions.

Section PositionsExample.
Import Scenario Field.

(** X14, witness: the opponent sends out monster 2 and the housekeeping
    phase ends. *)
Lemma fill_battlefield_positions_fills_example :
  exists s',
    Round.fill_battlefield_positions (H := simple) (H0 := plain) false
      unfilled = Some s'
    /\ in_play s' 2 = [2%positive]
    /\ (Combat.determine_phase (Some housekeeping_phase) s').1
       = Some decision_phase.
Proof.
  destruct (Round.fill_battlefield_positions (H := simple) (H0 := plain)
              false unfilled)
    as [s'|] eqn:E; [|vm_compute in E; discriminate].
  exists s'. split; [reflexivity|]. split.
  - vm_compute in E. injection E as <-. reflexivity.
  - apply (fill_battlefield_positions_fills (H := simple) (H0 := plain) unfilled s').
    + discriminate.
    + exact E.
    + intros p Hin _. unfold Combat.players_list in Hin.
      apply elem_of_cons in Hin as [->|Hin];
        [|apply list_elem_of_singleton in Hin as ->];
        vm_compute; discriminate.
Defined.

End PositionsExample.

(** ** The housekeeping phase waits for the positions *)

Section Housekeeping.
Context `{Collaborators}.

Lemma wait_for_positions_spec (todo : list ref) s :
  let r := Combat.wait_for_positions todo s in
  (r.1 = Some decision_phase \/ r.1 = None)
  /\ (r.1 = Some decision_phase ->
      forall p, p ∈ todo -> Combat.defeated s p = false ->
                Z.of_nat (length (in_play s p)) = positions s p)
  /\ same_parties s r.2
  /\ monsters_in_play r.2 = monsters_in_play s.
Proof.
  revert s. induction todo as [|player todo IH]; intros s; cbv zeta.
  - simpl. split_and!; [by left| |apply same_parties_refl|done].
    intros _ p Hp. by apply elem_of_nil in Hp.
  - cbn [Combat.wait_for_positions].
    destruct (Combat.defeated s player) eqn:Hdef.
    + destruct (IH s) as (Hor & Hall & Hsame & Hplay). cbv zeta in *.
      split_and!; [done| |done|done].
      intros Hr p [->|Hp]%elem_of_cons Hd; [congruence|by apply Hall].
    + destruct (last_one_standing_frame player s)
        as (Hp1 & Hi1 & Hmax1 & Hoth1). cbv zeta in Hp1, Hi1, Hmax1, Hoth1.
      set (s1 := if bool_decide
                      (length (Combat.alive_party s player) = 1%nat)
                 then update_npc player (NPC.set_max_position 1) s
                 else s) in *.
      assert (Hin1 : forall p, in_play s1 p = in_play s p)
        by (intros p; unfold in_play; by rewrite Hi1).
      case_bool_decide as Hpa.
      * simpl. split_and!; [by right|done|done|done].
      * destruct (IH s1) as (Hor & Hall & Hsame & Hplay). cbv zeta in *.
        split_and!; [done| |by apply (same_parties_trans s s1)|congruence].
        intros Hr p [->|Hp]%elem_of_cons Hd.
        -- rewrite <- Hmax1, <- Hin1.
           destruct (decide (NPC.max_position (npcs s1 player)
                             - Z.of_nat (length (in_play s1 player)) = 0))
             as [Hz|Hnz]; [lia|]. by destruct Hpa.
        -- rewrite <- Hin1, (Hall Hr p Hp)
             by (by rewrite (same_parties_defeated s s1)).
           destruct (decide (p = player)) as [->|Hne].
           ++ unfold positions at 1.
              rewrite (same_parties_alive s s1) by done.
              rewrite Hmax1. unfold positions. by destruct (bool_decide _).
           ++ apply same_parties_positions; [done|by apply Hoth1].
Qed.

(** X19.  In the housekeeping phase [determine_phase] answers the
    decision phase or [None], and the decision phase exactly when every
    player that is not defeated has as many monsters in play as it has
    positions (one position for a player with a single monster alive).
    The call leaves the players, the rosters, the health of the monsters
    and the monsters in play as they were. *)
Theorem housekeeping_waits_for_positions (s : CombatState) :
  let r := Combat.determine_phase (Some housekeeping_phase) s in
  (r.1 = Some decision_phase \/ r.1 = None)
  /\ (r.1 = Some decision_phase <->
      forall p, p ∈ Combat.players_list s -> Combat.defeated s p = false ->
                Z.of_nat (length (in_play s p)) = positions s p)
  /\ same_parties s r.2
  /\ monsters_in_play r.2 = monsters_in_play s.
Proof.
  cbv zeta. unfold Combat.determine_phase.
  destruct (wait_for_positions_spec (Combat.players_list s) s)
    as (Hor & Hall & Hsame & Hplay). cbv zeta in *.
  split_and!; [done| |done|done].
  split; [done|apply wait_for_positions_filled].
Qed.

End Housekeeping.

(** ** Entering the decision phase *)

Section DecisionPhase.
Context `{Collaborators} `{Services}.

Lemma decisions_keep_refl s : decisions_keep s s.
Proof. by repeat split. Qed.

Lemma decisions_keep_trans s1 s2 s3 :
  decisions_keep s1 s2 -> decisions_keep s2 s3 -> decisions_keep s1 s3.
Proof.
  intros (? & ? & ? & ? & ? & ? & Hv) (? & ? & ? & ? & ? & ? & Hv').
  unfold decisions_keep.
  split_and!; [congruence..|intros p; by rewrite Hv', Hv].
Qed.

Lemma decisions_keep_in_play s s' p :
  decisions_keep s s' -> in_play s' p = in_play s p.
Proof. intros (_ & _ & _ & Hi & _). unfold in_play. by rewrite Hi. Qed.

Lemma init_wild_step monster s :
  is_trainer_battle s = false ->
  in_play s (players s).1 <> [] ->
  exists s' a,
    AI.init monster s = Ok s'
    /\ _action_queue s' = _action_queue s ++ [a]
    /\ user a = Some (UMonster monster)
    /\ target a ∈ in_play s (players s).1
    /\ decisions_keep s s'.
Proof.
  intros Hwild Hopp. unfold AI.init. rewrite Hwild.
  set (self := {| AI.human := (players s).1; AI.user := (players s).2;
                  AI.monster := monster;
                  AI.opponents := in_play s (players s).1 |}).
  destruct (make_decision_wild_one_action self s Hopp)
    as (technique & target & s1 & _ & Hin & Hs1 & ->).
  eexists _, (technique_action self technique target s1).
  split_and!; [done| |done|done|].
  - rewrite Hs1. done.
  - rewrite Hs1. unfold decisions_keep. split_and!; try done.
    intros p. simpl. destruct (decide (p = (players s).1)) as [->|Hne].
    + rewrite fn_lookup_insert. simpl. by rewrite lookup_insert_ne.
    + by rewrite fn_lookup_insert_ne.
Qed.

Lemma recharge_moves_frame monster s :
  _action_queue (Round.recharge_moves monster s) = _action_queue s
  /\ decisions_keep s (Round.recharge_moves monster s).
Proof.
  unfold Round.recharge_moves.
  generalize (Monster.moves (monsters s monster)). intros moves.
  revert s. induction moves as [|tech moves IH]; intros s; simpl.
  - split; [done|apply decisions_keep_refl].
  - destruct (IH (update_technique tech recharge s)) as [Hq Hk].
    split; [by rewrite Hq|].
    eapply decisions_keep_trans; [|exact Hk]. by repeat split.
Qed.

Lemma decide_monsters_spec (party : list ref) s :
  is_trainer_battle s = false ->
  in_play s (players s).1 <> [] ->
  exists s' new,
    Round.decide_monsters party s = Ok s'
    /\ _action_queue s' = _action_queue s ++ new
    /\ Forall2 (fun m a => user a = Some (UMonster m)
                           /\ target a ∈ in_play s (players s).1) party new
    /\ decisions_keep s s'.
Proof.
  revert s. induction party as [|monster party IH]; intros s Hwild Hopp.
  - exists s, []. simpl. rewrite app_nil_r.
    split_and!; [done|done|done|apply decisions_keep_refl].
  - destruct (init_wild_step monster s Hwild Hopp)
      as (s1 & a & Hinit & Hq1 & Hu & Ht & Hk1).
    destruct (recharge_moves_frame monster s1) as [Hq2 Hk2].
    assert (Hk12 : decisions_keep s (Round.recharge_moves monster s1))
      by (by eapply decisions_keep_trans).
    pose proof Hk12 as (Hpl & Htr & _).
    destruct (IH (Round.recharge_moves monster s1))
      as (s' & new & Hrest & Hq & Hall & Hk).
    { by rewrite Htr. }
    { by rewrite Hpl, (decisions_keep_in_play s). }
    exists s', (a :: new). split_and!.
    + simpl. rewrite Hinit. cbn. exact Hrest.
    + rewrite Hq, Hq2, Hq1, <- app_assoc. done.
    + apply Forall2_cons. split; [done|].
      eapply Forall2_impl; [exact Hall|]. intros m a' [? Hin]. split; [done|].
      by rewrite Hpl, (decisions_keep_in_play s) in Hin.
    + by eapply decisions_keep_trans.
Qed.

Lemma decide_trainers_spec (trainers : list ref) s :
  is_trainer_battle s = false ->
  in_play s (players s).1 <> [] ->
  exists s' new,
    Round.decide_trainers trainers s = Ok s'
    /\ _action_queue s' = _action_queue s ++ new
    /\ Forall2 (fun m a => user a = Some (UMonster m)
                           /\ target a ∈ in_play s (players s).1)
               (concat (in_play s <$> trainers)) new
    /\ decisions_keep s s'.
Proof.
  revert s. induction trainers as [|trainer trainers IH]; intros s Hwild Hopp.
  - exists s, []. simpl. rewrite app_nil_r.
    split_and!; [done|done|done|apply decisions_keep_refl].
  - destruct (decide_monsters_spec (in_play s trainer) s Hwild Hopp)
      as (s1 & new1 & Hdec & Hq1 & Hall1 & Hk1).
    pose proof Hk1 as (Hpl & Htr & _).
    destruct (IH s1) as (s' & new & Hrest & Hq & Hall & Hk).
    { by rewrite Htr. }
    { by rewrite Hpl, (decisions_keep_in_play s). }
    exists s', (new1 ++ new). split_and!.
    + simpl. rewrite Hdec. cbn. exact Hrest.
    + rewrite Hq, Hq1, <- app_assoc. done.
    + rewrite fmap_cons. simpl concat. apply Forall2_app; [done|].
      assert (Heq : in_play s1 <$> trainers = in_play s <$> trainers).
      { apply list_fmap_ext. intros ? p _.
        by apply decisions_keep_in_play. }
      rewrite Heq in Hall.
      eapply Forall2_impl; [exact Hall|]. intros m a' [? Hin]. split; [done|].
      by rewrite Hpl, (decisions_keep_in_play s) in Hin.
    + by eapply decisions_keep_trans.
Qed.

Lemma foldl_app_concat {A B} (f : A -> list B) (acc : list B) (l : list A) :
  foldl (fun q x => q ++ f x) acc l = acc ++ concat (f <$> l).
Proof.
  revert acc. induction l as [|x l IH]; intros acc; simpl.
  - by rewrite app_nil_r.
  - by rewrite IH, app_assoc.
Qed.

(** The state after the round's draw was stored. *)
Lemma draw_stored_frame value s :
  let s0 := update_npc (players s).1
              (NPC.set_game_variable "random_tech_hit" (GFloat value)) s in
  Round.human_players s0 = Round.human_players s
  /\ Round.ai_players s0 = Round.ai_players s
  /\ (forall p, in_play s0 p = in_play s p)
  /\ NPC.game_variables (npcs s0 (players s).1) !! "random_tech_hit"
     = Some (GFloat value).
Proof.
  cbv zeta.
  assert (Hh : forall s1, npcs s1 = <[(players s).1 :=
                 NPC.set_game_variable "random_tech_hit" (GFloat value)
                   (npcs s (players s).1)]> (npcs s) ->
               players s1 = players s -> monsters s1 = monsters s ->
               Round.human_players s1 = Round.human_players s
               /\ Round.active_players s1 = Round.active_players s).
  { intros s1 Hn Hp Hm. unfold Round.human_players, Round.active_players,
      Combat.players_list, Combat.defeated, Combat.alive_party.
    rewrite Hp, Hn, Hm. split.
    - apply filter_iff_in. intros p _.
      destruct (decide (p = (players s).1)) as [->|Hne].
      + by rewrite fn_lookup_insert.
      + by rewrite fn_lookup_insert_ne.
    - apply filter_iff_in. intros p _.
      destruct (decide (p = (players s).1)) as [->|Hne].
      + by rewrite fn_lookup_insert.
      + by rewrite fn_lookup_insert_ne. }
  match goal with
  | |- Round.human_players ?s0 = _ /\ _ =>
      destruct (Hh s0 eq_refl eq_refl eq_refl) as [Hhum Hact]
  end.
  split_and!; [done| |done|].
  - unfold Round.ai_players. by rewrite Hhum, Hact.
  - simpl. rewrite fn_lookup_insert. simpl. apply lookup_insert_eq.
Qed.

(** X15.  Entering the decision phase of a wild battle with an empty
    decision queue and a monster of the first player in play: the
    round's draw is stored as a float in [random_tech_hit] of the first
    player and survives the decisions; the monsters in play of the human
    players are put on the decision queue; and every monster in play of
    every opposing player gets exactly one action appended to the queue,
    in order, each with that monster as user and a monster in play of
    the first player as target.  No monster, battlefield position or
    ledger entry changes.  With a non-empty decision queue the
    transition only stores the draw. *)
Theorem decision_phase_one_action_each (value : float) (s : CombatState) :
  is_trainer_battle s = false ->
  in_play s (players s).1 <> [] ->
  (exists s' new,
     Round.transition_decision_phase value [] s
     = Ok (concat (in_play s <$> Round.human_players s), s')
     /\ _action_queue s' = _action_queue s ++ new
     /\ Forall2 (fun m a => user a = Some (UMonster m)
                            /\ target a ∈ in_play s (players s).1)
                (concat (in_play s <$> Round.ai_players s)) new
     /\ NPC.game_variables (npcs s' (players s).1) !! "random_tech_hit"
        = Some (GFloat value)
     /\ monsters s' = monsters s
     /\ monsters_in_play s' = monsters_in_play s
     /\ _damage_map s' = _damage_map s)
  /\ forall waiting, waiting <> [] ->
       Round.transition_decision_phase value waiting s
       = Ok (waiting,
             update_npc (players s).1
               (NPC.set_game_variable "random_tech_hit" (GFloat value)) s).
Proof.
  intros Hwild Hopp. split; [|by intros [|m waiting]].
  destruct (draw_stored_frame value s) as (Hhum & Hai & Hin & Hvar).
  cbv zeta in Hhum, Hai, Hin, Hvar.
  unfold Round.transition_decision_phase. cbv zeta.
  set (s0 := update_npc (players s).1
               (NPC.set_game_variable "random_tech_hit" (GFloat value)) s)
    in *.
  destruct (decide_trainers_spec (Round.ai_players s0) s0)
    as (s' & new & Hdec & Hq & Hall & Hk); [done|by rewrite Hin|].
  exists s', new. rewrite Hdec. cbn [mbind result_bind bind].
  destruct Hk as (_ & _ & Hm & Hi & Hd & _ & Hv).
  assert (Hins : forall l : list ref, in_play s0 <$> l = in_play s <$> l).
  { intros l. apply list_fmap_ext. intros ? p _. apply Hin. }
  split_and!.
  - rewrite foldl_app_concat, Hhum, Hins. done.
  - done.
  - rewrite Hai, Hins in Hall.
    eapply Forall2_impl; [exact Hall|]. intros m a [? Ht]. split; [done|].
    by rewrite Hin in Ht.
  - by rewrite Hv.
  - done.
  - done.
  - done.
Qed.

End DecisionPhase.

Section DecisionPhaseExample.
Import Scenario Field.

(** X15, witness: the wild monster 2 queues one action, monster 1 waits
    for its player, and the draw 0.5 is stored. *)
Lemma decision_phase_one_action_each_example :
  let s := battle (a_monster 5 20 20) (a_monster 5 20 20) false [] in
  exists s',
    Round.transition_decision_phase (H := simple) (H0 := plain) f_0_5 [] s
    = Ok ([1%positive], s')
    /\ length (_action_queue s') = 1%nat
    /\ NPC.game_variables (npcs s' 1) !! "random_tech_hit"
       = Some (GFloat f_0_5).
Proof.
  intros s.
  destruct (decision_phase_one_action_each (H := simple) (H0 := plain)
              f_0_5 s) as [(s' & new & Htr & Hq & Hall & Hvar & _) _].
  - reflexivity.
  - discriminate.
  - exists s'. split; [exact Htr|]. split; [|exact Hvar].
    rewrite Hq. apply Forall2_length in Hall. simpl. rewrite <- Hall.
    reflexivity.
Defined.

End DecisionPhaseExample.

(** ** Purging the queue: the copies of an action *)

Section PurgeCount.

Lemma copies_cons a b q :
  copies a (b :: q) = ((if decide (b = a) then 1 else 0) + copies a q)%nat.
Proof. unfold copies. rewrite filter_cons. by case_decide. Qed.

Lemma copies_elem_of a q : (0 < copies a q)%nat <-> a ∈ q.
Proof.
  induction q as [|b q IH].
  - split; [unfold copies; simpl; lia|]. by intros ?%elem_of_nil.
  - rewrite copies_cons, elem_of_cons.
    destruct (decide (b = a)) as [->|Hne].
    + split; [by left|lia].
    + rewrite Nat.add_0_l, IH. split; [by right|]. by intros [->|?].
Qed.

Lemma remove_copies x q q' :
  Py.remove x q = Ok q' ->
  forall a, copies a q
            = (copies a q' + if decide (a = x) then 1 else 0)%nat.
Proof.
  revert q'. induction q as [|b q IH]; intros q'; simpl; [done|].
  case_decide as Hx.
  - intros [= <-] a. subst b. rewrite copies_cons.
    destruct (decide (a = x)) as [->|Hne].
    + rewrite decide_True by done. lia.
    + rewrite decide_False by done. lia.
  - destruct (Py.remove x q) as [r|]; [|done]. cbn [bind]. intros [= <-] a.
    rewrite !copies_cons, (IH r eq_refl a). lia.
Qed.

Lemma remove_elem_of (x : EnqueuedAction) q :
  x ∈ q -> exists q', Py.remove x q = Ok q'.
Proof.
  induction q as [|b q IH]; [by intros ?%elem_of_nil|]. simpl.
  case_decide; [by eexists|].
  intros [->|Hin]%elem_of_cons; [done|].
  destruct (IH Hin) as [q' ->]. by eexists.
Qed.

Lemma remove_each_copies l q :
  NoDup l -> (forall a, a ∈ l -> a ∈ q) ->
  exists q',
    Combat.remove_each l q = Ok q'
    /\ forall a, copies a q
                 = (copies a q' + if decide (a ∈ l) then 1 else 0)%nat.
Proof.
  revert q. induction l as [|x l IH]; intros q Hnd Hin;
    cbn [Combat.remove_each].
  - exists q. split; [done|]. intros a.
    destruct (decide (a ∈ [])) as [Ha|_]; [by apply elem_of_nil in Ha|lia].
  - apply NoDup_cons in Hnd as [Hx Hnd].
    destruct (remove_elem_of x q) as [q1 Hq1]; [apply Hin; left|].
    rewrite Hq1. cbn [mbind result_bind bind].
    pose proof (remove_copies x q q1 Hq1) as Hc1.
    destruct (IH q1 Hnd) as (q' & Hq' & Hc).
    { intros a Ha. apply copies_elem_of.
      assert (a <> x) by (by intros ->).
      specialize (Hc1 a). rewrite decide_False in Hc1 by done.
      assert (0 < copies a q)%nat
        by (apply copies_elem_of, Hin; by right).
      lia. }
    exists q'. split; [done|]. intros a. rewrite (Hc1 a), (Hc a).
    destruct (decide (a = x)) as [->|Hne].
    + rewrite decide_False by done. rewrite decide_True by left. lia.
    + destruct (decide (a ∈ l)).
      * rewrite decide_True by (by right). lia.
      * rewrite decide_False; [lia|]. by intros [?|?]%elem_of_cons.
Qed.

(** X16.  [remove_monster_actions_from_queue] never raises.  It leaves
    a queue that keeps the order of the actions, every copy of an action
    that does not refer to the monster, and all but one copy of every
    action that refers to it as user or as target: exactly one copy of
    each distinct such action is removed.  So the queue is free of the
    monster afterwards exactly when no action that refers to it was
    queued twice. *)
Theorem purge_removes_one_copy_each (monster : ref) (s : CombatState) :
  exists s',
    Combat.remove_monster_actions_from_queue monster s = Ok s'
    /\ s' = set_action_queue (_action_queue s') s
    /\ _action_queue s' `sublist_of` _action_queue s
    /\ (forall a,
          copies a (_action_queue s)
          = (copies a (_action_queue s')
             + if Combat.refers_to monster a
                  && bool_decide (a ∈ _action_queue s)
               then 1 else 0)%nat)
    /\ (Forall (fun a => Combat.refers_to monster a = false)
               (_action_queue s')
        <-> forall a, Combat.refers_to monster a = true ->
                      (copies a (_action_queue s) <= 1)%nat).
Proof.
  unfold Combat.remove_monster_actions_from_queue. cbv zeta.
  set (to_remove := foldl _ _ _).
  assert (Hmem : forall a, a ∈ elements to_remove
                           <-> a ∈ _action_queue s
                               /\ Combat.refers_to monster a = true).
  { intros a. rewrite elem_of_elements. unfold to_remove.
    rewrite elem_of_to_remove. set_solver. }
  destruct (remove_each_copies (elements to_remove) (_action_queue s))
    as (q' & Hq' & Hc).
  { apply NoDup_elements. }
  { intros a Ha. by apply Hmem. }
  rewrite Hq'. cbn. eexists. split; [done|]. simpl.
  assert (Hcount : forall a,
            copies a (_action_queue s)
            = (copies a q'
               + if Combat.refers_to monster a
                    && bool_decide (a ∈ _action_queue s)
                 then 1 else 0)%nat).
  { intros a. rewrite (Hc a). f_equal.
    destruct (decide (a ∈ elements to_remove)) as [Hin|Hout].
    - apply Hmem in Hin as [Hin ->]. by rewrite bool_decide_eq_true_2.
    - destruct (Combat.refers_to monster a) eqn:Hr; [|done].
      rewrite bool_decide_eq_false_2; [done|].
      intros Hin. apply Hout, Hmem. done. }
  split_and!; [done|by eapply remove_each_sublist|done|].
  rewrite Forall_forall. split.
  - intros Hfree a Hr. specialize (Hcount a).
    assert (copies a q' = 0)%nat.
    { destruct (copies a q') eqn:E; [done|]. exfalso.
      assert (a ∈ q') by (apply copies_elem_of; lia).
      specialize (Hfree a H). congruence. }
    destruct (_ && _); lia.
  - intros Honce a Ha.
    destruct (Combat.refers_to monster a) eqn:Hr; [|done]. exfalso.
    specialize (Hcount a). specialize (Honce a Hr).
    assert (0 < copies a q')%nat by (by apply copies_elem_of).
    assert (a ∈ _action_queue s).
    { apply copies_elem_of. lia. }
    rewrite Hr, bool_decide_eq_true_2 in Hcount by done. simpl in Hcount.
    lia.
Qed.

End PurgeCount.

(** ** The decision maker of a trainer: the actions of one monster *)

Section TrainerCount.
Context `{Collaborators}.

Lemma use_potions_guard self s :
  (if bool_decide (0 < length (NPC.items (npcs s (AI.user self))))%nat
   then AI.use_potions self (NPC.items (npcs s (AI.user self))) s
   else Ok s)
  = AI.use_potions self (NPC.items (npcs s (AI.user self))) s.
Proof.
  case_bool_decide as Hlen; [done|].
  destruct (NPC.items (npcs s (AI.user self))); [done|simpl in Hlen; lia].
Qed.

(** X17.  In a trainer battle, when the combatant is a member of its
    roster of the highest level, [need_potion] holds and an opposing
    monster is in play, the decision appends to the queue one item
    action for every potion of the bag and then one more action, the
    move the selection chose after the items were queued: the monster
    gets one action more than one for every potion in the bag. *)
Theorem trainer_queues_potions_and_move (self : AI.t) (s : CombatState) :
  AI.monster self ∈ NPC.monsters (npcs s (AI.user self)) ->
  (forall m, m ∈ NPC.monsters (npcs s (AI.user self)) ->
             Monster.level (monsters s m)
             <= Monster.level (monsters s (AI.monster self))) ->
  AI.need_potion self s = Ok true ->
  AI.opponents self <> [] ->
  exists s0 technique target s1 s',
    AI.use_potions self (NPC.items (npcs s (AI.user self))) s = Ok s0
    /\ AI.track_next_use self s0 = Ok (technique, target, s1)
    /\ target ∈ AI.opponents self
    /\ AI.make_decision_trainer self s = Ok s'
    /\ _action_queue s'
       = _action_queue s ++ (item_action self <$> potions self s)
         ++ [technique_action self technique target s1]
    /\ length (_action_queue s')
       = (length (_action_queue s) + length (potions self s) + 1)%nat.
Proof.
  intros Hin Htop Hneed Hopp.
  destruct (use_potions_needed self s (NPC.items (npcs s (AI.user self)))
              Hneed) as (s0 & Hpot & Hq0 & _).
  destruct (track_next_use_frame self s0 Hopp)
    as (technique & target & s1 & Htrack & Htarget & Hs1).
  exists s0, technique, target, s1,
    (AI.action_tech self technique target s1).
  assert (Hq : _action_queue (AI.action_tech self technique target s1)
               = _action_queue s ++ (item_action self <$> potions self s)
                 ++ [technique_action self technique target s1]).
  { rewrite Hs1. simpl. rewrite Hq0. unfold potions.
    by rewrite <- app_assoc. }
  split_and!; [done|done|done| |done|].
  - unfold AI.make_decision_trainer.
    rewrite (check_strongest_true self s Hin Htop).
    cbn [mbind result_bind bind]. rewrite use_potions_guard, Hpot.
    cbn [mbind result_bind bind]. by rewrite Htrack.
  - rewrite Hq, !length_app, length_fmap. simpl. lia.
Qed.

End TrainerCount.

Section TrainerCountExample.
Import Scenario.

(** X17, witness: at health 10 of 100 the opponent queues its potion
    and a move, two actions for one monster. *)
Lemma trainer_queues_potions_and_move_example :
  let s := battle (a_monster 5 20 20) (a_monster 5 10 100) true [] in
  exists s',
    AI.make_decision_trainer (H := simple) opponent_ai s = Ok s'
    /\ length (_action_queue s') = 2%nat.
Proof.
  intros s.
  destruct (trainer_queues_potions_and_move (H := simple) opponent_ai s)
    as (s0 & technique & target & s1 & s' & _ & _ & _ & Hs' & _ & Hlen).
  - vm_compute. left.
  - intros m Hm. vm_compute in Hm.
    apply list_elem_of_singleton in Hm as ->. discriminate.
  - reflexivity.
  - discriminate.
  - exists s'. split; [exact Hs'|]. rewrite Hlen. reflexivity.
Defined.

End TrainerCountExample.
